(** * SAT_algorithms: resolution, Davis-Putnam and DPLL

    A shallow embedding of the three satisfiability engines of the
    repository (resolution.py, dp.py and dpll.py) together with the
    properties their specification states about them.

    Conventions of the embedding:
    - a literal is a Python [int], here [Z]; a clause is a Python list of
      literals, a formula a Python list of clauses;
    - a dictionary from literals to [True] is a [gmap Z bool];
    - a Python [set] is a [gset]; the order in which Python iterates over
      a set is not specified by the language, so it is a parameter of the
      embedding ([SetOrder]);
    - Python [float] arithmetic and [math.log] are parameters as well
      ([FloatOps]): the engines only add scores and compare them;
    - a [while] loop or a recursion is a [Fixpoint] on a fuel argument, and
      running out of fuel is the distinguished outcome [OutOfFuel]. Unit
      propagation and [dpll] supply their own fuel, which is shown to be
      enough; [resolution] and [davis_putnam] take the number of rounds
      they may run as an argument;
    - the exceptions that the modelled code can raise are outcomes
      ([Raise]); the recursion limit of the interpreter is not modelled. *)

From Stdlib Require Import ZArith Lia.
From stdpp Require Import gmap list sorting.

Local Open Scope Z_scope.

(** ** Data model

    Literal: [Z]. Clause: [list Z]. Formula: [list (list Z)].
    Assignment: [gmap Z bool]. *)

(** The verdicts of resolution.py and dp.py are the integers 0 and 1. *)
Definition UNSAT : Z := 0.
Definition SAT : Z := 1.

(** ** Outcomes of a Python call *)

Inductive exn : Type :=
| ZeroDivisionError
| TypeError.

Inductive outcome (A : Type) : Type :=
| Return (a : A)
| Raise (e : exn)
| OutOfFuel.
Arguments Return {A} a.
Arguments Raise {A} e.
Arguments OutOfFuel {A}.

#[global] Instance outcome_ret : MRet outcome := λ A a, Return a.
#[global] Instance outcome_bind : MBind outcome := λ A B f m,
  match m with
  | Return a => f a
  | Raise e => Raise e
  | OutOfFuel => OutOfFuel
  end.

(** A run of the DPLL engine: its outcome, and the formulas on which
    [choose_literal] was called on the way, in call order. *)
Record run (A : Type) : Type := Run {
  calls : list (list (list Z));
  result : outcome A
}.
Arguments Run {A} calls result.
Arguments calls {A} r.
Arguments result {A} r.

#[global] Instance run_ret : MRet run := λ A a, Run [] (Return a).
#[global] Instance run_bind : MBind run := λ A B f m,
  match result m with
  | Return a => Run (calls m ++ calls (f a)) (result (f a))
  | Raise e => Run (calls m) (Raise e)
  | OutOfFuel => Run (calls m) OutOfFuel
  end.

Definition lift {A : Type} (o : outcome A) : run A := Run [] o.

(** ** Parameters: floating point and set iteration order *)

(** The [float] operations [choose_literal] uses. [int_truediv a b] is
    Python's [a / b] on two ints with [b] nonzero, [int_add_float n x] is
    [n + x] for an int [n], [float_zero] is [float()], [float_gt] is [>]. *)
Class FloatOps : Type := {
  float : Type;
  float_zero : float;
  float_add : float → float → float;
  int_truediv : Z → Z → float;
  int_add_float : Z → float → float;
  float_log : float → float;
  float_gt : float → float → bool
}.

(** The order in which [list(s)] and [for x in s] enumerate a set:
    some enumeration of its elements, each one once. *)
Class SetOrder : Type := {
  set_list_Z : gset Z → list Z;
  set_list_clause : gset (list Z) → list (list Z);
  set_list_Z_perm : ∀ X, set_list_Z X ≡ₚ elements X;
  set_list_clause_perm : ∀ X, set_list_clause X ≡ₚ elements X
}.

(** [sorted(clause)] on a list of ints. *)
Definition sorted (clause : list Z) : list Z := merge_sort Z.le clause.

(** ** dpll.py *)

Module Dpll.

Definition negate (literal : Z) : Z := - literal.

(** [apply_literal]: drop the clauses that contain [literal], remove
    [neg_literal] from the others; [None] as soon as a clause empties. *)
Fixpoint apply_literal (formula : list (list Z)) (literal : Z)
  : option (list (list Z)) :=
  match formula with
  | [] => Some []
  | clause :: formula' =>
      if bool_decide (literal ∈ clause) then apply_literal formula' literal
      else if bool_decide (negate literal ∈ clause) then
        match filter (λ l, l ≠ negate literal) clause with
        | [] => None
        | new_clause => cons new_clause <$> apply_literal formula' literal
        end
      else cons clause <$> apply_literal formula' literal
  end.

Fixpoint find_unit_clause (formula : list (list Z)) : option Z :=
  match formula with
  | [] => None
  | [literal] :: _ => Some literal
  | _ :: formula' => find_unit_clause formula'
  end.

(** The [while True] loop of [unit_propagation]. [if unit_clause:] is
    false for [None] and for the literal 0. *)
Fixpoint unit_propagation_loop (fuel : nat) (formula : list (list Z))
    (assignment : gmap Z bool)
  : outcome (option (list (list Z)) * gmap Z bool) :=
  match find_unit_clause formula with
  | Some unit_clause =>
      if bool_decide (unit_clause = 0) then Return (Some formula, assignment)
      else
        match fuel with
        | O => OutOfFuel
        | S fuel' =>
            let assignment := <[unit_clause := true]> assignment in
            match apply_literal formula unit_clause with
            | None => Return (None, assignment)
            | Some formula' => unit_propagation_loop fuel' formula' assignment
            end
        end
  | None => Return (Some formula, assignment)
  end.

Definition unit_propagation (formula : list (list Z))
  : outcome (option (list (list Z)) * gmap Z bool) :=
  unit_propagation_loop (length formula) formula ∅.

Definition unit_subsumption (formula : option (list (list Z)))
    (assignment : gmap Z bool) : option (list (list Z)) :=
  match formula with
  | None => None
  | Some formula =>
      if bool_decide ([] ∈ formula) then None
      else Some (filter (λ clause, Forall (λ literal, assignment !! literal = None) clause)
                        formula)
  end.

(** The inner [for literal in clause] of [monotone_literal_fixing], with
    its [break]; [formula] is the current binding of the variable. *)
Fixpoint fix_first_monotone (clause : list Z) (formula : list (list Z))
    (assignment : gmap Z bool) : list (list Z) * gmap Z bool :=
  match clause with
  | [] => (formula, assignment)
  | literal :: clause' =>
      if bool_decide (- literal ∉ mjoin formula)
      then (filter (λ c, literal ∉ c) formula, <[literal := true]> assignment)
      else fix_first_monotone clause' formula assignment
  end.

(** The outer loop iterates over the list the function was called with,
    while the assignments to [formula] rebind the variable. *)
Definition monotone_literal_fixing (formula : list (list Z))
  : list (list Z) * gmap Z bool :=
  foldl (λ state clause, fix_first_monotone clause state.1 state.2)
        (formula, ∅) formula.

Section choose.
Context `{FloatOps}.

(** [math.log(1 + 1 / (4 ** k - 2 ** (k + 1)))]. *)
Definition denominator (k : Z) : Z := 4 ^ k - 2 ^ (k + 1).

Definition weight (k : Z) : outcome float :=
  if bool_decide (denominator k = 0) then Raise ZeroDivisionError
  else Return (float_log (int_add_float 1 (int_truediv 1 (denominator k)))).

(** [literal_scores[lit] += weight] on a [defaultdict(float)]: a
    dictionary in insertion order. *)
Fixpoint add_score (literal_scores : list (Z * float)) (lit : Z) (w : float)
  : list (Z * float) :=
  match literal_scores with
  | [] => [(lit, float_add float_zero w)]
  | (key, score) :: literal_scores' =>
      if bool_decide (key = lit) then (key, float_add score w) :: literal_scores'
      else (key, score) :: add_score literal_scores' lit w
  end.

Fixpoint score_clauses (formula : list (list Z)) (literal_scores : list (Z * float))
  : outcome (list (Z * float)) :=
  match formula with
  | [] => Return literal_scores
  | [] :: formula' => score_clauses formula' literal_scores
  | clause :: formula' =>
      w ← weight (Z.of_nat (length clause));
      score_clauses formula' (foldl (λ scores lit, add_score scores lit w)
                                    literal_scores clause)
  end.

(** [max(d, key=d.get, default=None)]: the first key whose value no later
    value exceeds. *)
Fixpoint max_from (best : Z) (best_score : float) (literal_scores : list (Z * float))
  : Z :=
  match literal_scores with
  | [] => best
  | (key, score) :: literal_scores' =>
      if float_gt score best_score then max_from key score literal_scores'
      else max_from best best_score literal_scores'
  end.

Definition max_key (literal_scores : list (Z * float)) : option Z :=
  match literal_scores with
  | [] => None
  | (key, score) :: literal_scores' => Some (max_from key score literal_scores')
  end.

Definition choose_literal (formula : list (list Z)) : outcome (option Z) :=
  literal_scores ← score_clauses formula [];
  mret (max_key literal_scores).

(** A call of [choose_literal] from [dpll]. *)
Definition call_choose_literal (formula : list (list Z)) : run (option Z) :=
  Run [formula] (choose_literal formula).

(** One of the two branches of [dpll]: [Some r] when the branch makes
    [dpll] return [r], [None] when control falls through to the code
    after it. [monotone_literal_fixing(None)] would iterate over [None]. *)
Definition try_literal (dpll : list (list Z) → run (bool * option (list (list Z))))
    (formula : list (list Z)) (unit_assignments : gmap Z bool) (literal : Z)
  : run (option (bool * option (list (list Z)))) :=
  match apply_literal formula literal with
  | None => mret None
  | Some new_formula =>
      '(new_formula, _) ← lift (unit_propagation new_formula);
      match new_formula with
      | None => mret (Some (false, None))
      | Some new_formula =>
          if bool_decide ([] ∈ new_formula) then mret (Some (false, Some new_formula))
          else
            match unit_subsumption (Some new_formula) unit_assignments with
            | None => Run [] (Raise TypeError)
            | Some new_formula =>
                let new_formula := (monotone_literal_fixing new_formula).1 in
                '(sat, final_formula) ← dpll new_formula;
                if sat : bool then mret (Some (true, final_formula)) else mret None
            end
      end
  end.

(** [if not literal:] holds for [None] and for the literal 0. *)
Fixpoint dpll_run (fuel : nat) (formula : list (list Z))
  : run (bool * option (list (list Z))) :=
  match fuel with
  | O => Run [] OutOfFuel
  | S fuel' =>
      '(formula, unit_assignments) ← lift (unit_propagation formula);
      match formula with
      | None => mret (false, None)
      | Some formula =>
      if bool_decide ([] ∈ formula) then mret (false, Some formula) else
      match unit_subsumption (Some formula) unit_assignments with
      | None => mret (false, None)
      | Some formula =>
      if bool_decide ([] ∈ formula) then mret (false, Some formula) else
      let '(formula, mono_assignments) := monotone_literal_fixing formula in
      let unit_assignments := mono_assignments ∪ unit_assignments in
      match formula with
      | [] => mret (true, Some formula)
      | _ =>
      if bool_decide ([] ∈ formula) then mret (false, Some formula) else
      literal ← call_choose_literal formula;
      match literal with
      | None => mret (false, Some formula)
      | Some literal =>
          if bool_decide (literal = 0) then mret (false, Some formula) else
          positive ← try_literal (dpll_run fuel') formula unit_assignments literal;
          match positive with
          | Some r => mret r
          | None =>
              negative ← try_literal (dpll_run fuel') formula unit_assignments
                                     (negate literal);
              match negative with
              | Some r => mret r
              | None => mret (false, Some formula)
              end
          end
      end
      end
      end
      end
  end.

(** Every recursive call is on a formula with fewer literal occurrences. *)
Definition dpll (formula : list (list Z)) : run (bool * option (list (list Z))) :=
  dpll_run (S (length (mjoin formula))) formula.

End choose.

End Dpll.

(** ** Shared by dp.py and resolution.py *)

(** [is_redundant_clause]: some literal of the clause is the negation of
    some literal of the clause. *)
Definition is_redundant_clause (clause : list Z) : bool :=
  bool_decide (Exists (λ literal, Exists (λ other, literal = - other) clause) clause).

(** [list(set(c1 + c2) - {literal, -literal})]. *)
Definition resolve `{SetOrder} (clause1 clause2 : list Z) (literal : Z) : list Z :=
  set_list_Z (list_to_set (clause1 ++ clause2) ∖ {[literal; - literal]}).

(** The pairs [(clauses[i], clauses[j])] with [i < j], in the order of
    [itertools.combinations(clauses, 2)] and of the double comprehension
    of dp.py. *)
Fixpoint combinations (clauses : list (list Z)) : list (list Z * list Z) :=
  match clauses with
  | [] => []
  | c1 :: clauses' => ((λ c2, (c1, c2)) <$> clauses') ++ combinations clauses'
  end.

(** ** dp.py *)

Module Dp.

(** [clause.remove(x)]: removes the first occurrence. *)
Fixpoint remove_first (x : Z) (clause : list Z) : list Z :=
  match clause with
  | [] => []
  | y :: clause' => if bool_decide (y = x) then clause' else y :: remove_first x clause'
  end.

(** The body of [for unit in unit_clauses]. The clauses are copied before
    they are mutated, so the clauses of [unit_clauses] keep their
    literals. *)
Definition propagate (state : list (list Z) * gmap Z bool) (unit : list Z)
  : list (list Z) * gmap Z bool :=
  let literal := hd 0 unit in
  (remove_first (- literal) <$> filter (λ c, literal ∉ c) state.1,
   <[literal := true]> state.2).

Fixpoint unit_propagation_loop (fuel : nat) (clauses : list (list Z))
    (assignment : gmap Z bool) : outcome (list (list Z) * gmap Z bool) :=
  match filter (λ c, length c = 1%nat) clauses with
  | [] => Return (clauses, assignment)
  | unit_clauses =>
      match fuel with
      | O => OutOfFuel
      | S fuel' =>
          let state := foldl propagate (clauses, assignment) unit_clauses in
          unit_propagation_loop fuel' state.1 state.2
      end
  end.

Definition unit_propagation (clauses : list (list Z))
  : outcome (list (list Z) * gmap Z bool) :=
  unit_propagation_loop (length clauses) clauses ∅.

(** The keys of [Counter(all_literals)], in insertion order. *)
Definition counter_keys (all_literals : list Z) : list Z :=
  foldl (λ keys literal, if bool_decide (literal ∈ keys) then keys else keys ++ [literal])
        [] all_literals.

Definition monotone_literal_fixing (clauses : list (list Z))
  : list (list Z) * gmap Z bool :=
  let counter := counter_keys (mjoin clauses) in
  foldl (λ state literal,
           if bool_decide (- literal ∉ counter)
           then (filter (λ c, literal ∉ c) state.1, <[literal := true]> state.2)
           else state)
        (clauses, ∅) counter.

Section engine.
Context `{SetOrder}.

(** The body of [for literal in c1] of [find_resolvents]. *)
Definition find_resolvents_step (c1 c2 : list Z) (resolvents : list (list Z))
    (literal : Z) : list (list Z) :=
  if bool_decide (- literal ∈ c2) then
    let resolvent := resolve c1 c2 literal in
    if bool_decide (resolvent ≠ []) && negb (is_redundant_clause resolvent)
       && bool_decide (resolvent ∉ resolvents)
    then resolvents ++ [resolvent] else resolvents
  else resolvents.

Definition find_resolvents (c1 c2 : list Z) : list (list Z) :=
  foldl (find_resolvents_step c1 c2) [] c1.

(** The loops over [pairs] and over the resolvents of each pair: [None]
    when [davis_putnam] returns [(0, {})] from inside them, otherwise the
    set [new_clauses]. *)
Fixpoint add_resolvents (resolvents : list (list Z)) (new_clauses : gset (list Z))
  : option (gset (list Z)) :=
  match resolvents with
  | [] => Some new_clauses
  | [] :: _ => None
  | resolvent :: resolvents' =>
      add_resolvents resolvents' ({[sorted resolvent]} ∪ new_clauses)
  end.

Fixpoint resolve_pairs (pairs : list (list Z * list Z)) (new_clauses : gset (list Z))
  : option (gset (list Z)) :=
  match pairs with
  | [] => Some new_clauses
  | (c1, c2) :: pairs' =>
      match add_resolvents (find_resolvents c1 c2) new_clauses with
      | None => None
      | Some new_clauses => resolve_pairs pairs' new_clauses
      end
  end.

(** The [while clauses] loop of [davis_putnam]. None of the calls inside
    the [try] blocks raises, so the handlers are never entered. *)
Fixpoint davis_putnam_loop (fuel : nat) (clauses : list (list Z))
    (final_assignment : gmap Z bool) (previous_clauses : gset (list Z))
  : outcome (Z * gmap Z bool) :=
  match clauses with
  | [] => Return (SAT, final_assignment)
  | _ =>
  match fuel with
  | O => OutOfFuel
  | S fuel' =>
      '(clauses, unit_assignments) ← unit_propagation clauses;
      let final_assignment := unit_assignments ∪ final_assignment in
      let '(clauses, mono_assignments) := monotone_literal_fixing clauses in
      let final_assignment := mono_assignments ∪ final_assignment in
      match clauses with
      | [] => Return (SAT, final_assignment)
      | _ =>
      if bool_decide ([] ∈ clauses) then Return (UNSAT, ∅) else
      match resolve_pairs (combinations clauses) ∅ with
      | None => Return (UNSAT, ∅)
      | Some new_clauses =>
      if bool_decide (new_clauses = previous_clauses) then Return (SAT, final_assignment)
      else
        let clauses :=
          set_list_clause (list_to_set (clauses ++ set_list_clause new_clauses)) in
        let clauses := filter (λ clause, is_redundant_clause clause = false) clauses in
        '(clauses, unit_assignments) ← unit_propagation clauses;
        let '(clauses, mono_assignments) := monotone_literal_fixing clauses in
        let final_assignment := unit_assignments ∪ final_assignment in
        let final_assignment := mono_assignments ∪ final_assignment in
        match clauses with
        | [] => Return (SAT, final_assignment)
        | _ => davis_putnam_loop fuel' clauses final_assignment new_clauses
        end
      end
      end
  end
  end.

Definition davis_putnam (fuel : nat) (clauses : list (list Z))
  : outcome (Z * gmap Z bool) :=
  davis_putnam_loop fuel clauses ∅ ∅.

End engine.

End Dp.

(** ** resolution.py *)

Module Resolution.

Section engine.
Context `{SetOrder}.

(** The body of [for literal in c1] of [find_resolvents]. *)
Definition find_resolvents_step (c1 c2 : list Z) (resolvents : list (list Z))
    (literal : Z) : list (list Z) :=
  if bool_decide (- literal ∈ c2) then
    let resolvent := resolve c1 c2 literal in
    if bool_decide (resolvent ∉ resolvents) && negb (is_redundant_clause resolvent)
    then resolvents ++ [resolvent] else resolvents
  else resolvents.

Definition find_resolvents (c1 c2 : list Z) : list (list Z) :=
  foldl (find_resolvents_step c1 c2) [] c1.

(** The loops over [pairs] and over the resolvents of each pair: [None]
    when [resolution] returns 0 from inside them, otherwise the set
    [new]. *)
Fixpoint add_resolvents (clause_set : gset (list Z)) (resolvents : list (list Z))
    (new : gset (list Z)) : option (gset (list Z)) :=
  match resolvents with
  | [] => Some new
  | [] :: _ => None
  | resolvent :: resolvents' =>
      let sorted_resolvent := sorted resolvent in
      if bool_decide (sorted_resolvent ∉ clause_set)
      then add_resolvents clause_set resolvents' ({[sorted_resolvent]} ∪ new)
      else add_resolvents clause_set resolvents' new
  end.

Fixpoint resolve_pairs (clause_set : gset (list Z)) (pairs : list (list Z * list Z))
    (new : gset (list Z)) : option (gset (list Z)) :=
  match pairs with
  | [] => Some new
  | (c1, c2) :: pairs' =>
      match add_resolvents clause_set (find_resolvents c1 c2) new with
      | None => None
      | Some new => resolve_pairs clause_set pairs' new
      end
  end.

(** The [while True] loop of [resolution]. *)
Fixpoint resolution_loop (fuel : nat) (clauses : list (list Z))
    (clause_set : gset (list Z)) : outcome Z :=
  match fuel with
  | O => OutOfFuel
  | S fuel' =>
      match resolve_pairs clause_set (combinations clauses) ∅ with
      | None => Return UNSAT
      | Some new =>
          if bool_decide (new = ∅) then Return SAT
          else resolution_loop fuel' (clauses ++ set_list_clause new) (clause_set ∪ new)
      end
  end.

Definition resolution (fuel : nat) (clauses : list (list Z)) : outcome Z :=
  resolution_loop fuel clauses (list_to_set clauses).

End engine.

End Resolution.

(** ** Instances used to run the engines *)

(** Sets enumerated in the order of [elements]. *)
#[global] Program Instance elements_order : SetOrder := {|
  set_list_Z := elements;
  set_list_clause := elements
|}.
Solve All Obligations with done.

(** Fixed-point scores with 64 fractional bits, the logarithm replaced
    by its first-order approximation [log x = x - 1]: a clause of size
    [k] weighs [2 ^ 64 / (4 ^ k - 2 ^ (k + 1))], rounded down. *)
#[global] Instance fixed_point_scores : FloatOps := {|
  float := Z;
  float_zero := 0;
  float_add := Z.add;
  int_truediv := λ a b, a * 2 ^ 64 / b;
  int_add_float := λ n x, n * 2 ^ 64 + x;
  float_log := λ x, x - 2 ^ 64;
  float_gt := Z.gtb
|}.

(** ** Notions used in the statements and in the proofs *)

(** *** Formulas *)

(** The number of literal occurrences of a formula. *)
Definition formula_size (formula : list (list Z)) : nat := length (mjoin formula).

(** The result of [apply_literal], when it is a formula. *)
Definition reduct (formula : list (list Z)) (literal : Z) : list (list Z) :=
  filter (λ l, l ≠ Dpll.negate literal) <$> filter (λ c, literal ∉ c) formula.

(** No key of the assignment occurs in the formula. *)
Definition untouched (assignment : gmap Z bool) (formula : list (list Z)) : Prop :=
  ∀ literal, is_Some (assignment !! literal) → literal ∉ mjoin formula.

(** What one pure literal does to the pair of the current formula and the
    assignment, and what a whole pass of [monotone_literal_fixing] does:
    the relation is closed under reflexivity and transitivity. *)
Inductive fixes : list (list Z) * gmap Z bool → list (list Z) * gmap Z bool → Prop :=
| fixes_refl state : fixes state state
| fixes_step state literal state' :
    - literal ∉ mjoin state.1 →
    fixes (filter (λ c, literal ∉ c) state.1, <[literal := true]> state.2) state' →
    fixes state state'.

(** A formula on which [choose_literal] may be called: every clause has
    at least two literals. *)
Definition branching_ready (formula : list (list Z)) : Prop :=
  Forall (λ clause, (2 ≤ length clause)%nat) formula.

(** While no clause is empty, two complementary unit clauses are both
    still there. *)
Definition conflict_pending (literal : Z) (clauses : list (list Z)) : Prop :=
  [] ∈ clauses ∨ ([literal] ∈ clauses ∧ [- literal] ∈ clauses).

(** The second scenario of the specification. *)
Definition xor_formula : list (list Z) := [[1; 2]; [-1; 2]; [1; -2]; [-1; -2]].

(** A formula over three variables in which the six literals get the
    same score, so that [max] returns the first key, 3, whatever the
    floats are. Setting every variable to false satisfies it. *)
Definition balanced_formula : list (list Z) :=
  [[3; -1]; [1; -2]; [2; -3]; [-3; -1; -2]; [3; 1; -2]; [-1; 2; 3]; [1; 2; -3]].

(** *** Satisfiability *)

(** A truth assignment gives a boolean to every variable, the absolute
    value of a literal; a positive literal is true when its variable is. *)
Definition literal_true (v : Z → bool) (literal : Z) : bool :=
  if bool_decide (0 < literal) then v (Z.abs literal) else negb (v (Z.abs literal)).

Definition satisfies (v : Z → bool) (formula : list (list Z)) : Prop :=
  ∀ clause, clause ∈ formula → ∃ literal, literal ∈ clause ∧ literal_true v literal = true.

Definition satisfiable (formula : list (list Z)) : Prop := ∃ v, satisfies v formula.

(** The truth assignment [v] changed so that [literal] is true. *)
Definition set_true (v : Z → bool) (literal : Z) : Z → bool :=
  λ x, if bool_decide (x = Z.abs literal) then bool_decide (0 < literal) else v x.

(** *** Saturation *)

(** The literals of the resolvent of [c1] and [c2] on [literal]. *)
Definition in_resolvent (c1 c2 : list Z) (literal x : Z) : Prop :=
  (x ∈ c1 ∨ x ∈ c2) ∧ x ≠ literal ∧ x ≠ - literal.

(** A clause list is saturated when each resolvent of two of its clauses
    without complementary literals either holds two complementary
    literals or has all the literals of some clause of the list. *)
Definition saturated (clauses : list (list Z)) : Prop :=
  ∀ c1 c2 literal,
    c1 ∈ clauses → c2 ∈ clauses →
    is_redundant_clause c1 = false → is_redundant_clause c2 = false →
    literal ∈ c1 → - literal ∈ c2 →
    (∃ x, in_resolvent c1 c2 literal x ∧ in_resolvent c1 c2 literal (- x)) ∨
    (∃ c, c ∈ clauses ∧ ∀ x, x ∈ c → in_resolvent c1 c2 literal x).

(** *** Candidate resolvents *)

(** The sublists of a list. *)
Fixpoint sublists (l : list Z) : list (list Z) :=
  match l with
  | [] => [[]]
  | x :: l' => sublists l' ++ ((x ::.) <$> sublists l')
  end.

(** The sorted lists without repetition over a set of literals: what
    [sorted(resolvent)] can be when the clauses resolved are over these
    literals. *)
Definition candidates (literals : gset Z) : gset (list Z) :=
  list_to_set (sublists (sorted (elements literals))).

(** *** dp.py: clause lists under simplification *)

(** The clauses of [clauses'] are clauses of [clauses] that have lost
    literals. *)
Definition shortened (clauses clauses' : list (list Z)) : Prop :=
  ∀ c', c' ∈ clauses' → ∃ c, c ∈ clauses ∧ c' ⊆ c.

(** The loop of [monotone_literal_fixing] of dp.py, from any state and
    over any list of keys; the function runs it from the clause list and
    the empty assignment, over the keys of the counter. *)
Definition fix_keys (counter keys : list Z) (state : list (list Z) * gmap Z bool)
  : list (list Z) * gmap Z bool :=
  foldl (λ state literal,
           if bool_decide (- literal ∉ counter)
           then (filter (λ c, literal ∉ c) state.1, <[literal := true]> state.2)
           else state)
        state keys.

(** A clause of [clauses] all of whose literals still occur in
    [clauses'] is a clause of [clauses']. *)
Definition survives (clauses clauses' : list (list Z)) : Prop :=
  ∀ t, t ∈ clauses → (∀ x, x ∈ t → x ∈ mjoin clauses') → t ∈ clauses'.

(** What a simplification step of dp.py does to a clause list. *)
Definition simplifies (clauses clauses' : list (list Z)) : Prop :=
  shortened clauses clauses' ∧
  (Forall NoDup clauses →
   Forall NoDup clauses' ∧ survives clauses clauses' ∧
   (satisfiable clauses' → satisfiable clauses)).

(** *** dp.py: progress of the rounds *)

(** The number of distinct literals of a clause list. *)
Definition literal_count (clauses : list (list Z)) : nat :=
  size (list_to_set (mjoin clauses) : gset Z).

Section rounds.
Context `{SetOrder}.

(** The clause list has no clause with complementary literals, and the
    lists of [previous_clauses] are the sorted resolvents, neither empty
    nor with complementary literals, of clauses of the list. *)
Definition resolved_from (clauses : list (list Z)) (previous_clauses : gset (list Z))
  : Prop :=
  Forall (λ c, is_redundant_clause c = false) clauses ∧
  ∀ t, t ∈ previous_clauses →
    ∃ c1 c2 literal,
      c1 ∈ clauses ∧ c2 ∈ clauses ∧ literal ∈ c1 ∧ - literal ∈ c2 ∧
      t = sorted (resolve c1 c2 literal) ∧ resolve c1 c2 literal ≠ [] ∧
      is_redundant_clause (resolve c1 c2 literal) = false.

(** A bound on the number of rounds that [davis_putnam] still runs from
    a clause list over [literals] and a set [previous_clauses]. *)
Definition rounds_left (literals : gset Z) (clauses : list (list Z))
    (previous_clauses : gset (list Z)) (m : nat) : Prop :=
  (size (candidates literals) + 2 ≤ m)%nat ∨
  (Forall (λ c, is_redundant_clause c = false) clauses ∧
   (size (candidates literals) + 1 ≤ m)%nat) ∨
  (resolved_from clauses previous_clauses ∧
   (size (candidates literals ∖ previous_clauses) ≤ m)%nat).

End rounds.

(** *** Scores *)

(** What the heuristic needs of [>] on scores: it is a strict order.
    This holds of the comparison of Python floats. *)
Class FloatOrder `{FloatOps} : Prop := {
  float_gt_irrefl : ∀ x, float_gt x x = false;
  float_gt_trans : ∀ x y z,
    float_gt x y = true → float_gt y z = true → float_gt x z = true
}.

Section scores.
Context `{FloatOps}.

(** In the words of the specification: a clause of size [k] contributes
    the weight [log(1 + 1 / (4 ** k - 2 ** (k + 1)))] to each of its
    literals. *)
Definition clause_weight (clause : list Z) : float :=
  float_log (int_add_float 1
               (int_truediv 1 (Dpll.denominator (Z.of_nat (length clause))))).

(** In the words of the specification: the accumulated score of a
    literal is the sum of the weights of the clauses that contain it. The
    sum is taken in the order of the clauses, from 0.0. *)
Definition accumulated_score (formula : list (list Z)) (literal : Z) : float :=
  foldl (λ score clause,
           if bool_decide (literal ∈ clause) then float_add score (clause_weight clause)
           else score)
        float_zero formula.

(** [literal_scores[key]], and 0.0 for a key that is not there. *)
Fixpoint get_score (scores : list (Z * float)) (key : Z) : float :=
  match scores with
  | [] => float_zero
  | (k, score) :: scores' => if bool_decide (k = key) then score else get_score scores' key
  end.

End scores.

(** * Properties *)

(** ** The outcome monads *)

Lemma run_bind_result {A B : Type} (f : A → run B) (m : run A) :
  result (m ≫= f) =
  match result m with
  | Return a => result (f a)
  | Raise e => Raise e
  | OutOfFuel => OutOfFuel
  end.
Proof. unfold mbind, run_bind. by destruct (result m). Qed.

Lemma run_bind_calls {A B : Type} (f : A → run B) (m : run A) :
  calls (m ≫= f) =
  calls m ++ match result m with Return a => calls (f a) | _ => [] end.
Proof.
  unfold mbind, run_bind. destruct (result m); simpl; by rewrite ?app_nil_r.
Qed.

Lemma lift_bind {A B : Type} (a : A) (f : A → run B) :
  lift (Return a) ≫= f = f a.
Proof. unfold mbind, run_bind, lift. simpl. by destruct (f a). Qed.

(** ** dpll.py: literal application and unit propagation *)

Module DpllFacts.
Import Dpll.

Implicit Types (formula : list (list Z)) (clause : list Z) (literal : Z).
Implicit Types (assignment : gmap Z bool).

Lemma filter_Forall_id {A : Type} (P : A → Prop) `{∀ x, Decision (P x)} (l : list A) :
  Forall P l → filter P l = l.
Proof.
  induction 1 as [|x l Hx Hl IH]; [done|].
  rewrite filter_cons_True by done. by rewrite IH.
Qed.

Lemma filter_ne_id (x : Z) (clause : list Z) :
  x ∉ clause → filter (λ l, l ≠ x) clause = clause.
Proof.
  induction clause as [|y clause IH]; [done|].
  rewrite not_elem_of_cons. intros [Hxy Hx].
  rewrite filter_cons_True by done. by rewrite IH.
Qed.

Lemma apply_literal_Some formula literal formula' :
  apply_literal formula literal = Some formula' → formula' = reduct formula literal.
Proof.
  unfold reduct. revert formula'.
  induction formula as [|clause formula IH]; simpl; intros formula' Hap.
  { by inversion Hap. }
  case_bool_decide as Hlit.
  { rewrite filter_cons_False by (by intros ?). by apply IH. }
  rewrite filter_cons_True by done. simpl.
  case_bool_decide as Hneg.
  - destruct (filter (λ l, l ≠ negate literal) clause) as [|l new_clause] eqn:Hf;
      [done|].
    destruct (apply_literal formula literal) as [rest|]; [|done].
    simpl in Hap. inversion Hap. by rewrite (IH rest).
  - destruct (apply_literal formula literal) as [rest|]; [|done].
    simpl in Hap. inversion Hap. rewrite (IH rest) by done.
    by rewrite filter_ne_id.
Qed.

(** [apply_literal] fails exactly when removing the negated literal
    empties a clause that is not satisfied by the literal. *)
Lemma apply_literal_None formula literal :
  apply_literal formula literal = None ↔
  ∃ clause, clause ∈ formula ∧ (literal ∉ clause) ∧ negate literal ∈ clause ∧
            filter (λ l, l ≠ negate literal) clause = [].
Proof.
  induction formula as [|clause formula IH]; simpl.
  { split; [done|]. intros (c & Hc & _). by apply elem_of_nil in Hc. }
  case_bool_decide as Hlit.
  { rewrite IH. split.
    - intros (c & Hc & ?). exists c. split; [by right|done].
    - intros (c & Hc & Hn & ?). apply elem_of_cons in Hc as [->|Hc]; [done|].
      by exists c. }
  case_bool_decide as Hneg.
  - destruct (filter (λ l, l ≠ negate literal) clause) as [|l new_clause] eqn:Hf.
    { split; [|done]. intros _. exists clause. split; [by left|done]. }
    destruct (apply_literal formula literal) as [rest|] eqn:Hrest; simpl.
    + split; [done|]. intros (c & Hc & Hn & Hm & Hfc).
      apply elem_of_cons in Hc as [->|Hc]; [congruence|].
      assert (Some rest = None) as Habs; [|done].
      apply IH. by exists c.
    + split; [|done]. intros _. destruct IH as [IH _].
      destruct (IH eq_refl) as (c & Hc & ?). exists c. split; [by right|done].
  - destruct (apply_literal formula literal) as [rest|] eqn:Hrest; simpl.
    + split; [done|]. intros (c & Hc & Hn & Hm & Hfc).
      apply elem_of_cons in Hc as [->|Hc]; [done|].
      assert (Some rest = None) as Habs; [|done].
      apply IH. by exists c.
    + split; [|done]. intros _. destruct IH as [IH _].
      destruct (IH eq_refl) as (c & Hc & ?). exists c. split; [by right|done].
Qed.

Lemma reduct_length formula literal :
  (length (reduct formula literal) ≤ length formula)%nat.
Proof. unfold reduct. rewrite length_fmap. apply length_filter. Qed.

Lemma reduct_length_lt formula literal clause :
  clause ∈ formula → literal ∈ clause →
  (length (reduct formula literal) < length formula)%nat.
Proof.
  unfold reduct. rewrite length_fmap. intros Hc Hl.
  induction formula as [|c formula IH]; [by apply elem_of_nil in Hc|].
  apply elem_of_cons in Hc as [<-|Hc].
  - rewrite filter_cons_False by (by intros ?). simpl.
    pose proof (length_filter (λ c, literal ∉ c) formula). lia.
  - specialize (IH Hc). destruct (decide (literal ∈ c)).
    + rewrite filter_cons_False by (by intros ?). simpl. lia.
    + rewrite filter_cons_True by done. simpl. lia.
Qed.

Lemma find_unit_clause_Some formula literal :
  find_unit_clause formula = Some literal → [literal] ∈ formula.
Proof.
  induction formula as [|clause formula IH]; simpl; [done|].
  destruct clause as [|l [|l' clause]].
  - intros Hf. right. by apply IH.
  - intros [= ->]. by left.
  - intros Hf. right. by apply IH.
Qed.

Lemma find_unit_clause_None formula :
  find_unit_clause formula = None ↔ Forall (λ clause, length clause ≠ 1%nat) formula.
Proof.
  induction formula as [|clause formula IH]; simpl.
  { split; [constructor|done]. }
  destruct clause as [|l [|l' clause]]; rewrite Forall_cons; simpl.
  - rewrite IH. split; [by split|by intros [_ ?]].
  - split; [done|]. by intros [? _].
  - rewrite IH. split; [by split|by intros [_ ?]].
Qed.

(** One iteration of the loop of [unit_propagation] removes at least the
    unit clause it has found. *)
Lemma unit_step_decreases formula unit_clause formula' :
  find_unit_clause formula = Some unit_clause →
  apply_literal formula unit_clause = Some formula' →
  (length formula' < length formula)%nat.
Proof.
  intros Hfind Hap. rewrite (apply_literal_Some _ _ _ Hap).
  apply (reduct_length_lt _ _ [unit_clause]).
  - by apply find_unit_clause_Some.
  - by left.
Qed.

Lemma unit_propagation_loop_returns fuel formula assignment :
  (length formula ≤ fuel)%nat →
  ∃ r, unit_propagation_loop fuel formula assignment = Return r.
Proof.
  revert formula assignment.
  induction fuel as [|fuel IH]; intros formula assignment Hlen.
  - destruct formula; [|simpl in Hlen; lia]. simpl. eauto.
  - simpl. destruct (find_unit_clause formula) as [u|] eqn:Hfind; [|eauto].
    case_bool_decide; [eauto|].
    destruct (apply_literal formula u) as [formula'|] eqn:Hap; [|eauto].
    apply IH. pose proof (unit_step_decreases _ _ _ Hfind Hap). lia.
Qed.

Lemma unit_propagation_returns formula :
  ∃ r, unit_propagation formula = Return r.
Proof. by apply unit_propagation_loop_returns. Qed.

(** *** Sizes and literals *)

Lemma formula_size_cons clause formula :
  formula_size (clause :: formula) = (length clause + formula_size formula)%nat.
Proof. unfold formula_size. simpl. by rewrite length_app. Qed.

Lemma formula_size_filter (P : list Z → Prop) `{∀ c, Decision (P c)} formula :
  (formula_size (filter P formula) ≤ formula_size formula)%nat.
Proof.
  induction formula as [|c formula IH]; [done|].
  destruct (decide (P c)).
  - rewrite filter_cons_True by done. rewrite !formula_size_cons. lia.
  - rewrite filter_cons_False by done. rewrite formula_size_cons. lia.
Qed.

Lemma join_filter_subseteq (P : list Z → Prop) `{∀ c, Decision (P c)} formula :
  mjoin (filter P formula) ⊆ mjoin formula.
Proof.
  intros l. rewrite !list_elem_of_join. intros (c & Hl & Hc).
  apply list_elem_of_filter in Hc as [_ Hc]. eauto.
Qed.

Lemma formula_size_reduct formula literal :
  (formula_size (reduct formula literal) ≤ formula_size formula)%nat.
Proof.
  unfold reduct. induction formula as [|c formula IH]; [done|].
  destruct (decide (literal ∈ c)).
  - rewrite filter_cons_False by (by intros ?). rewrite formula_size_cons. lia.
  - rewrite filter_cons_True by done. rewrite fmap_cons, !formula_size_cons.
    pose proof (length_filter (λ l, l ≠ negate literal) c). lia.
Qed.

Lemma length_filter_lt (x : Z) (clause : list Z) :
  x ∈ clause → (length (filter (λ l, l ≠ x) clause) < length clause)%nat.
Proof.
  induction clause as [|y clause IH]; [by intros ?%elem_of_nil|].
  intros Hx. destruct (decide (y = x)) as [->|Hne].
  - rewrite filter_cons_False by (by intros ?). simpl.
    pose proof (length_filter (λ l, l ≠ x) clause). lia.
  - rewrite filter_cons_True by done. simpl.
    apply elem_of_cons in Hx as [->|Hx]; [done|]. specialize (IH Hx). lia.
Qed.

(** Applying a literal that occurs in the formula, in either polarity,
    removes at least one literal occurrence. *)
Lemma formula_size_reduct_lt formula literal :
  literal ∈ mjoin formula ∨ negate literal ∈ mjoin formula →
  (formula_size (reduct formula literal) < formula_size formula)%nat.
Proof.
  unfold reduct. induction formula as [|c formula IH].
  { intros [H|H]; by apply elem_of_nil in H. }
  simpl. rewrite !elem_of_app. intros Hocc.
  pose proof (formula_size_reduct formula literal) as Hle. unfold reduct in Hle.
  destruct (decide (literal ∈ c)) as [Hin|Hnin].
  - rewrite filter_cons_False by (by intros ?). rewrite formula_size_cons.
    destruct c; [by apply elem_of_nil in Hin|]. simpl. lia.
  - rewrite filter_cons_True by done. rewrite fmap_cons, !formula_size_cons.
    destruct (decide (negate literal ∈ c)) as [Hneg|Hnneg].
    + pose proof (length_filter_lt _ _ Hneg). lia.
    + rewrite filter_ne_id by done.
      assert (literal ∈ mjoin formula ∨ negate literal ∈ mjoin formula) as Hrest
        by tauto.
      specialize (IH Hrest). lia.
Qed.

Lemma join_reduct_subseteq formula literal :
  mjoin (reduct formula literal) ⊆ mjoin formula.
Proof.
  intros l. unfold reduct. rewrite !list_elem_of_join.
  intros (c' & Hl & Hc'). apply list_elem_of_fmap in Hc' as (c & -> & Hc).
  apply list_elem_of_filter in Hc as [_ Hc].
  apply list_elem_of_filter in Hl as [_ Hl]. eauto.
Qed.

Lemma reduct_not_elem_of formula literal :
  literal ∉ mjoin (reduct formula literal).
Proof.
  unfold reduct. rewrite list_elem_of_join.
  intros (c' & Hl & Hc'). apply list_elem_of_fmap in Hc' as (c & -> & Hc).
  apply list_elem_of_filter in Hc as [Hn _].
  apply list_elem_of_filter in Hl as [_ Hl]. done.
Qed.

Lemma reduct_negate_not_elem_of formula literal :
  negate literal ∉ mjoin (reduct formula literal).
Proof.
  unfold reduct. rewrite list_elem_of_join.
  intros (c' & Hl & Hc'). apply list_elem_of_fmap in Hc' as (c & -> & Hc).
  apply list_elem_of_filter in Hl as [Hl _]. done.
Qed.

(** *** Invariants of unit propagation *)

Lemma untouched_empty formula : untouched ∅ formula.
Proof. intros l [x Hx]. by rewrite lookup_empty in Hx. Qed.

Lemma untouched_subseteq assignment formula formula' :
  mjoin formula' ⊆ mjoin formula →
  untouched assignment formula → untouched assignment formula'.
Proof. intros Hsub Hun l Hl Hin. apply (Hun l Hl). by apply Hsub. Qed.

Lemma untouched_union a1 a2 formula :
  untouched a1 formula → untouched a2 formula → untouched (a1 ∪ a2) formula.
Proof.
  intros H1 H2 l [x Hx]. apply lookup_union_Some_raw in Hx as [Hx|[_ Hx]].
  - apply H1. eauto.
  - apply H2. eauto.
Qed.

Lemma unit_propagation_loop_inv fuel formula assignment formula' assignment' :
  unit_propagation_loop fuel formula assignment = Return (Some formula', assignment') →
  mjoin formula' ⊆ mjoin formula ∧
  (formula_size formula' ≤ formula_size formula)%nat ∧
  (untouched assignment formula → untouched assignment' formula') ∧
  (find_unit_clause formula' = None ∨ find_unit_clause formula' = Some 0) ∧
  ([] ∈ formula → [] ∈ formula').
Proof.
  revert formula assignment.
  induction fuel as [|fuel IH]; intros formula assignment; simpl.
  - destruct (find_unit_clause formula) as [u|] eqn:Hfind.
    + case_bool_decide as Hu; [|done]. intros [= <- <-]. subst u. by eauto 10.
    + intros [= <- <-]. by eauto 10.
  - destruct (find_unit_clause formula) as [u|] eqn:Hfind.
    + case_bool_decide as Hu.
      { intros [= <- <-]. subst u. by eauto 10. }
      destruct (apply_literal formula u) as [next|] eqn:Hap; [|done].
      intros Hloop. apply IH in Hloop as (Hsub & Hsize & Hun & Hunit & Hempty).
      apply apply_literal_Some in Hap. subst next.
      split; [|split; [|split; [|split]]].
      * etrans; [done|apply join_reduct_subseteq].
      * pose proof (formula_size_reduct formula u). lia.
      * intros Hinit. apply Hun. intros l [x Hx].
        destruct (decide (u = l)) as [->|Hne]; [apply reduct_not_elem_of|].
        rewrite lookup_insert_ne in Hx by done.
        intros Hin. apply (Hinit l); [by eauto|].
        by apply join_reduct_subseteq in Hin.
      * done.
      * intros Hin. apply Hempty. unfold reduct.
        apply list_elem_of_fmap. exists []. split; [done|].
        apply list_elem_of_filter. split; [|done]. by intros ?%elem_of_nil.
    + intros [= <- <-]. by eauto 10.
Qed.

(** *** Subsumption and monotone literals *)

Lemma unit_subsumption_Some formula assignment formula' :
  unit_subsumption (Some formula) assignment = Some formula' →
  ([] ∉ formula) ∧
  formula' = filter (λ clause, Forall (λ literal, assignment !! literal = None) clause)
                    formula.
Proof. unfold unit_subsumption. case_bool_decide; [done|]. by intros [= <-]. Qed.

Lemma unit_subsumption_is_Some formula assignment :
  [] ∉ formula → is_Some (unit_subsumption (Some formula) assignment).
Proof. intros Hn. unfold unit_subsumption. rewrite bool_decide_false by done. eauto. Qed.

(** Subsumption against an assignment whose literals have left the
    formula removes nothing. *)
Lemma unit_subsumption_untouched formula assignment :
  [] ∉ formula → untouched assignment formula →
  unit_subsumption (Some formula) assignment = Some formula.
Proof.
  intros Hn Hun. unfold unit_subsumption. rewrite bool_decide_false by done.
  f_equal. apply filter_Forall_id. apply Forall_forall. intros c Hc.
  apply Forall_forall. intros l Hl.
  destruct (assignment !! l) eqn:Hlook; [|done].
  exfalso. apply (Hun l); [by eauto|]. apply list_elem_of_join. eauto.
Qed.

Lemma fix_first_monotone_cases clause formula assignment :
  fix_first_monotone clause formula assignment = (formula, assignment) ∨
  ∃ literal, literal ∈ clause ∧ (- literal ∉ mjoin formula) ∧
    fix_first_monotone clause formula assignment =
      (filter (λ c, literal ∉ c) formula, <[literal := true]> assignment).
Proof.
  induction clause as [|l clause IH]; simpl; [by left|].
  case_bool_decide as Hpure.
  - right. exists l. split; [by left|done].
  - destruct IH as [IH|(l' & Hl' & Hp & IH)]; [by left|].
    right. exists l'. split; [by right|done].
Qed.

Lemma foldl_fix_first_monotone_fixes (clauses : list (list Z)) state :
  fixes state (foldl (λ state clause, fix_first_monotone clause state.1 state.2)
                     state clauses).
Proof.
  revert state. induction clauses as [|clause clauses IH]; intros state; simpl.
  { constructor. }
  destruct (fix_first_monotone_cases clause state.1 state.2)
    as [Heq|(l & Hl & Hpure & Heq)]; rewrite Heq.
  - destruct state. apply IH.
  - eapply fixes_step; [done|]. apply IH.
Qed.

Lemma monotone_literal_fixing_fixes formula :
  fixes (formula, ∅) (monotone_literal_fixing formula).
Proof. apply foldl_fix_first_monotone_fixes. Qed.

Lemma fixes_inv state state' :
  fixes state state' →
  state'.1 ⊆ state.1 ∧
  (formula_size state'.1 ≤ formula_size state.1)%nat ∧
  (untouched state.2 state.1 → untouched state'.2 state'.1) ∧
  ([] ∈ state.1 → [] ∈ state'.1).
Proof.
  induction 1 as [state|state l state' Hpure Hfix (Hsub & Hsize & Hun & Hemp)].
  { done. }
  simpl in *. split; [|split; [|split]].
  - intros c Hc. apply Hsub in Hc. by apply list_elem_of_filter in Hc as [_ Hc].
  - pose proof (formula_size_filter (λ c, l ∉ c) state.1). lia.
  - intros Hinit. apply Hun. intros k [x Hx]. rewrite list_elem_of_join.
    intros (c & Hk & Hc). apply list_elem_of_filter in Hc as [Hn Hc].
    destruct (decide (l = k)) as [->|Hne]; [done|].
    rewrite lookup_insert_ne in Hx by done.
    apply (Hinit k); [by eauto|]. apply list_elem_of_join. eauto.
  - intros Hin. apply Hemp. apply list_elem_of_filter.
    split; [by intros ?%elem_of_nil|done].
Qed.

Lemma monotone_literal_fixing_inv formula :
  (monotone_literal_fixing formula).1 ⊆ formula ∧
  (formula_size (monotone_literal_fixing formula).1 ≤ formula_size formula)%nat ∧
  untouched (monotone_literal_fixing formula).2 (monotone_literal_fixing formula).1 ∧
  ([] ∈ formula → [] ∈ (monotone_literal_fixing formula).1).
Proof.
  destruct (fixes_inv _ _ (monotone_literal_fixing_fixes formula))
    as (Hsub & Hsize & Hun & Hemp).
  split; [done|]. split; [done|]. split; [|done].
  apply Hun. apply untouched_empty.
Qed.

Lemma join_subseteq formula formula' :
  formula' ⊆ formula → mjoin formula' ⊆ mjoin formula.
Proof.
  intros Hsub l. rewrite !list_elem_of_join. intros (c & Hl & Hc).
  exists c. split; [done|]. by apply Hsub.
Qed.

(** *** The branching heuristic *)

Lemma denominator_ge (k : Z) : 2 ≤ k → 8 ≤ denominator k.
Proof.
  intros Hk. unfold denominator.
  replace (4 ^ k) with (2 ^ k * 2 ^ k)
    by (rewrite <- Z.pow_mul_l; reflexivity).
  rewrite Z.pow_add_r by lia. change (2 ^ 1) with 2.
  assert (4 ≤ 2 ^ k) as Hpow.
  { change 4 with (2 ^ 2). apply Z.pow_le_mono_r; lia. }
  nia.
Qed.

Lemma denominator_unit : denominator 1 = 0.
Proof. reflexivity. Qed.

Section choose_facts.
Context `{FloatOps}.

Lemma add_score_keys (scores : list (Z * float)) lit w k :
  k ∈ (add_score scores lit w).*1 ↔ k = lit ∨ k ∈ scores.*1.
Proof.
  induction scores as [|[key score] scores IH]; simpl.
  - rewrite list_elem_of_singleton. split; [by left|]. intros [?|?%elem_of_nil]; done.
  - case_bool_decide as Hkey; simpl.
    + subst key. rewrite !elem_of_cons. tauto.
    + rewrite !elem_of_cons, IH. tauto.
Qed.

Lemma foldl_add_score_keys clause (scores : list (Z * float)) w k :
  k ∈ (foldl (λ scores lit, add_score scores lit w) scores clause).*1 ↔
  k ∈ clause ∨ k ∈ scores.*1.
Proof.
  revert scores. induction clause as [|l clause IH]; intros scores; simpl.
  - split; [by right|]. intros [?%elem_of_nil|?]; done.
  - rewrite IH, add_score_keys, elem_of_cons. tauto.
Qed.

Lemma score_clauses_keys formula (scores scores' : list (Z * float)) k :
  score_clauses formula scores = Return scores' →
  k ∈ scores'.*1 ↔ k ∈ mjoin formula ∨ k ∈ scores.*1.
Proof.
  revert scores. induction formula as [|clause formula IH]; intros scores; simpl.
  { intros [= <-]. split; [by right|]. intros [?%elem_of_nil|?]; done. }
  destruct clause as [|l clause].
  { intros Hs. rewrite (IH _ Hs). done. }
  destruct (weight _) as [w| |]; simpl; [|done..].
  intros Hs.
  rewrite (IH _ Hs), foldl_add_score_keys, add_score_keys, !elem_of_cons, elem_of_app.
  tauto.
Qed.

Lemma max_from_elem best best_score (scores : list (Z * float)) :
  max_from best best_score scores = best ∨
  max_from best best_score scores ∈ scores.*1.
Proof.
  revert best best_score.
  induction scores as [|[key score] scores IH]; intros best best_score; simpl.
  { by left. }
  destruct (float_gt score best_score).
  - right. destruct (IH key score) as [->|Hin]; [by left|by right].
  - destruct (IH best best_score) as [->|Hin]; [by left|right; by right].
Qed.

Lemma max_key_elem (scores : list (Z * float)) literal :
  max_key scores = Some literal → literal ∈ scores.*1.
Proof.
  destruct scores as [|[key score] scores]; simpl; [done|].
  intros [= <-]. destruct (max_from_elem key score scores) as [->|Hin].
  - by left.
  - by right.
Qed.

Lemma choose_literal_elem formula literal :
  choose_literal formula = Return (Some literal) → literal ∈ mjoin formula.
Proof.
  unfold choose_literal.
  destruct (score_clauses formula []) as [scores| |] eqn:Hs; simpl; [|done..].
  intros [= Hmax]. apply max_key_elem in Hmax.
  apply (score_clauses_keys _ _ _ _ Hs) in Hmax as [?|?%elem_of_nil]; done.
Qed.

Lemma weight_returns (k : Z) : 2 ≤ k → ∃ w, weight k = Return w.
Proof.
  intros Hk. unfold weight. pose proof (denominator_ge k Hk).
  rewrite bool_decide_false by lia. eauto.
Qed.

(** The weights are defined as soon as no clause is a unit clause. *)
Lemma score_clauses_returns formula (scores : list (Z * float)) :
  Forall (λ clause, length clause ≠ 1%nat) formula →
  ∃ scores', score_clauses formula scores = Return scores'.
Proof.
  intros Hf. revert scores.
  induction Hf as [|clause formula Hc Hf IH]; intros scores; simpl; [eauto|].
  destruct clause as [|l clause]; [apply IH|].
  destruct (weight_returns (Z.of_nat (length (l :: clause)))) as [w ->].
  { destruct clause; simpl in *; [done|lia]. }
  simpl. apply IH.
Qed.

Lemma choose_literal_returns formula :
  Forall (λ clause, length clause ≠ 1%nat) formula →
  ∃ chosen, choose_literal formula = Return chosen.
Proof.
  intros Hf. unfold choose_literal.
  destruct (score_clauses_returns formula [] Hf) as [scores ->]. simpl. eauto.
Qed.

End choose_facts.

(** *** Satisfiability *)

Lemma literal_true_set_true v literal :
  literal_true (set_true v literal) literal = true.
Proof.
  unfold literal_true, set_true. rewrite (bool_decide_true (_ = _)) by done.
  by case_bool_decide.
Qed.

Lemma literal_true_set_true_ne v literal other :
  other ≠ literal → other ≠ - literal →
  literal_true (set_true v literal) other = literal_true v other.
Proof.
  intros Hne Hneg. unfold literal_true, set_true.
  rewrite (bool_decide_false (Z.abs other = _)) by lia. done.
Qed.

Lemma satisfiable_nil : satisfiable [].
Proof. exists (λ _, true). by intros c ?%elem_of_nil. Qed.

Lemma satisfiable_reduct formula literal :
  satisfiable (reduct formula literal) → satisfiable formula.
Proof.
  intros [v Hv]. exists (set_true v literal). intros c Hc.
  destruct (decide (literal ∈ c)) as [Hin|Hnin].
  { exists literal. split; [done|apply literal_true_set_true]. }
  destruct (Hv (filter (λ l, l ≠ negate literal) c)) as (m & Hm & Htrue).
  { unfold reduct. apply list_elem_of_fmap. exists c. split; [done|].
    by apply list_elem_of_filter. }
  apply list_elem_of_filter in Hm as [Hmneg Hm].
  exists m. split; [done|]. rewrite literal_true_set_true_ne; [done| |done].
  by intros ->.
Qed.

Lemma satisfiable_filter_pure formula literal :
  - literal ∉ mjoin formula →
  satisfiable (filter (λ c, literal ∉ c) formula) → satisfiable formula.
Proof.
  intros Hpure [v Hv]. exists (set_true v literal). intros c Hc.
  destruct (decide (literal ∈ c)) as [Hin|Hnin].
  { exists literal. split; [done|apply literal_true_set_true]. }
  destruct (Hv c) as (m & Hm & Htrue); [by apply list_elem_of_filter|].
  exists m. split; [done|]. rewrite literal_true_set_true_ne; [done| |].
  - by intros ->.
  - intros ->. apply Hpure. apply list_elem_of_join. eauto.
Qed.

Lemma fixes_satisfiable state state' :
  fixes state state' → satisfiable state'.1 → satisfiable state.1.
Proof.
  induction 1 as [state|state l state' Hpure Hfix IH]; [done|].
  intros Hsat. apply (satisfiable_filter_pure _ l); [done|]. by apply IH.
Qed.

Lemma monotone_literal_fixing_satisfiable formula :
  satisfiable (monotone_literal_fixing formula).1 → satisfiable formula.
Proof. apply (fixes_satisfiable (formula, ∅)), monotone_literal_fixing_fixes. Qed.

Lemma unit_propagation_loop_satisfiable fuel formula assignment formula' assignment' :
  unit_propagation_loop fuel formula assignment = Return (Some formula', assignment') →
  satisfiable formula' → satisfiable formula.
Proof.
  revert formula assignment.
  induction fuel as [|fuel IH]; intros formula assignment; simpl.
  - destruct (find_unit_clause formula) as [u|].
    + case_bool_decide; [|done]. by intros [= <- <-].
    + by intros [= <- <-].
  - destruct (find_unit_clause formula) as [u|].
    + case_bool_decide; [by intros [= <- <-]|].
      destruct (apply_literal formula u) as [next|] eqn:Hap; [|done].
      intros Hloop Hsat. apply apply_literal_Some in Hap. subst next.
      apply (satisfiable_reduct _ u). by eapply IH.
    + by intros [= <- <-].
Qed.

(** *** The recursion of [dpll] *)

#[local] Arguments unit_subsumption : simpl never.
#[local] Arguments unit_propagation : simpl never.
#[local] Arguments monotone_literal_fixing : simpl never.
#[local] Arguments choose_literal : simpl never.
#[local] Arguments try_literal : simpl never.

Lemma unit_propagation_inv formula formula' assignment' :
  unit_propagation formula = Return (Some formula', assignment') →
  mjoin formula' ⊆ mjoin formula ∧
  (formula_size formula' ≤ formula_size formula)%nat ∧
  untouched assignment' formula' ∧
  (find_unit_clause formula' = None ∨ find_unit_clause formula' = Some 0) ∧
  ([] ∈ formula → [] ∈ formula').
Proof.
  intros Hup. apply unit_propagation_loop_inv in Hup as (? & ? & Hun & ? & ?).
  split; [done|]. split; [done|]. split; [|done].
  apply Hun, untouched_empty.
Qed.

Lemma branching_ready_intro formula :
  find_unit_clause formula = None → [] ∉ formula → branching_ready formula.
Proof.
  rewrite find_unit_clause_None. intros Hunit Hempty.
  apply Forall_forall. intros c Hc.
  pose proof (proj1 (Forall_forall _ _) Hunit c Hc) as Hlen. simpl in Hlen.
  destruct c as [|? [|? ?]]; simpl in *; [done|done|lia].
Qed.

Lemma branching_ready_subseteq formula formula' :
  formula' ⊆ formula → branching_ready formula → branching_ready formula'.
Proof.
  unfold branching_ready. rewrite !Forall_forall. intros Hsub Hf c Hc.
  apply Hf. by apply Hsub.
Qed.

Lemma branching_ready_not_unit formula :
  branching_ready formula → Forall (λ clause, length clause ≠ 1%nat) formula.
Proof.
  intros Hready. eapply Forall_impl; [exact Hready|].
  intros c Hc. simpl in Hc. lia.
Qed.

Section dpll_facts.
Context `{FloatOps}.

Lemma try_literal_sat (rec : list (list Z) → run (bool * option (list (list Z))))
    formula unit_assignments literal r :
  (∀ g r', result (rec g) = Return (true, r') → r' = Some []) →
  result (try_literal rec formula unit_assignments literal) = Return (Some (true, r)) →
  r = Some [].
Proof.
  intros Hrec. unfold try_literal.
  destruct (apply_literal formula literal) as [g|]; [|by simpl].
  rewrite run_bind_result. simpl.
  destruct (unit_propagation g) as [[[g1|] a1]| |]; simpl; try done.
  case_bool_decide; [done|].
  destruct (unit_subsumption (Some g1) unit_assignments) as [g2|]; [|by simpl].
  rewrite run_bind_result.
  destruct (result (rec _)) as [[[] ff]| |] eqn:Hres; simpl; try done.
  intros [= <-]. by eapply Hrec.
Qed.

Lemma dpll_run_sat fuel formula r :
  result (dpll_run fuel formula) = Return (true, r) → r = Some [].
Proof.
  revert formula r. induction fuel as [|fuel IH]; intros formula r; [done|].
  simpl. rewrite run_bind_result. simpl.
  destruct (unit_propagation formula) as [[[f1|] ua]| |]; simpl; try done.
  case_bool_decide; [done|].
  destruct (unit_subsumption (Some f1) ua) as [f2|]; [|done].
  case_bool_decide; [done|].
  destruct (monotone_literal_fixing f2) as [f3 ma].
  destruct f3 as [|c f3]; [by intros [= <-]|].
  case_bool_decide; [done|].
  rewrite run_bind_result. simpl.
  destruct (choose_literal (c :: f3)) as [[l|]| |]; simpl; try done.
  case_bool_decide; [done|].
  rewrite run_bind_result.
  destruct (result (try_literal _ _ _ l)) as [[[[] r1]|]| |] eqn:Hpos;
    simpl; try done.
  { intros [= <-]. by eapply try_literal_sat. }
  rewrite run_bind_result.
  destruct (result (try_literal _ _ _ (negate l))) as [[[[] r2]|]| |] eqn:Hneg;
    simpl; try done.
  intros [= <-]. by eapply try_literal_sat.
Qed.

(** A branch of [dpll] returns, and calls [choose_literal] on
    branching-ready formulas only, when the recursive calls do. *)
Lemma try_literal_safe (rec : list (list Z) → run (bool * option (list (list Z))))
    formula unit_assignments literal :
  (∀ g, 0 ∉ mjoin g → (formula_size g < formula_size formula)%nat →
        (∃ r, result (rec g) = Return r) ∧ Forall branching_ready (calls (rec g))) →
  literal ∈ mjoin formula ∨ negate literal ∈ mjoin formula →
  0 ∉ mjoin formula →
  (∃ x, result (try_literal rec formula unit_assignments literal) = Return x) ∧
  Forall branching_ready (calls (try_literal rec formula unit_assignments literal)).
Proof.
  intros Hrec Hocc Hnz. unfold try_literal.
  destruct (apply_literal formula literal) as [g|] eqn:Hap; [|simpl; by eauto].
  apply apply_literal_Some in Hap. subst g.
  pose proof (formula_size_reduct_lt formula literal Hocc) as Hlt.
  pose proof (join_reduct_subseteq formula literal) as Hsub.
  destruct (unit_propagation_returns (reduct formula literal)) as [[g1 a1] Hup].
  rewrite Hup. destruct g1 as [g1|]; [|simpl; by eauto].
  apply unit_propagation_inv in Hup as (Hsub1 & Hsize1 & _ & _ & _).
  simpl.
  case_bool_decide as Hempty; [simpl; by eauto|].
  destruct (unit_subsumption_is_Some g1 unit_assignments Hempty) as [g2 Hg2].
  rewrite Hg2. apply unit_subsumption_Some in Hg2 as [_ ->].
  set (target := (monotone_literal_fixing _).1).
  assert (mjoin target ⊆ mjoin g1 ∧ (formula_size target ≤ formula_size g1)%nat) as [Hsubt Hsizet].
  { destruct (monotone_literal_fixing_inv
                (filter (λ clause, Forall (λ l, unit_assignments !! l = None) clause) g1))
      as (Hs & Hz & _).
    split.
    - etrans; [by apply join_subseteq|]. apply join_filter_subseteq.
    - etrans; [done|]. apply formula_size_filter. }
  destruct (Hrec target) as [[[sat ff] Hres] Hcalls].
  { intros H0. apply Hnz. by apply Hsub, Hsub1, Hsubt. }
  { lia. }
  rewrite run_bind_result, run_bind_calls, Hres.
  split.
  - destruct sat; simpl; eauto.
  - apply Forall_app. split; [done|]. destruct sat; simpl; constructor.
Qed.

(** On a formula without the literal 0, [dpll] returns a result, it does
    not raise, and every call of [choose_literal] is on a branching-ready
    formula. *)
Lemma dpll_run_safe fuel formula :
  (formula_size formula < fuel)%nat → 0 ∉ mjoin formula →
  (∃ r, result (dpll_run fuel formula) = Return r) ∧
  Forall branching_ready (calls (dpll_run fuel formula)).
Proof.
  revert formula. induction fuel as [|fuel IH]; intros formula Hfuel Hnz; [lia|].
  simpl.
  destruct (unit_propagation_returns formula) as [[f1 ua] Hup].
  rewrite Hup. simpl.
  destruct f1 as [f1|]; [|simpl; by eauto].
  apply unit_propagation_inv in Hup as (Hsub1 & Hsize1 & _ & Hunit & _).
  case_bool_decide as Hempty1; [simpl; by eauto|].
  destruct (unit_subsumption_is_Some f1 ua Hempty1) as [f2 Hf2].
  rewrite Hf2. apply unit_subsumption_Some in Hf2 as [_ Hf2].
  case_bool_decide as Hempty2; [simpl; by eauto|].
  pose proof (monotone_literal_fixing_inv f2) as (Hsub3 & Hsize3 & _ & _).
  destruct (monotone_literal_fixing f2) as [f3 ma]. simpl in Hsub3, Hsize3.
  assert (f2 ⊆ f1) as Hsub2.
  { subst f2. intros c Hc. by apply list_elem_of_filter in Hc as [_ Hc]. }
  assert ((formula_size f2 ≤ formula_size f1)%nat) as Hsize2 by (subst f2; apply formula_size_filter).
  assert (0 ∉ mjoin f3) as Hnz3.
  { intros H0. apply Hnz, Hsub1. apply (join_subseteq f1 f2 Hsub2).
    by apply (join_subseteq f2 f3 Hsub3). }
  assert (branching_ready f1) as Hready1.
  { apply branching_ready_intro; [|done]. destruct Hunit as [Hu|Hu]; [done|].
    exfalso. apply find_unit_clause_Some in Hu. apply Hnz, Hsub1.
    apply list_elem_of_join. exists [0]. split; [by left|done]. }
  assert (branching_ready f3) as Hready3.
  { apply (branching_ready_subseteq f1); [|done]. by etrans. }
  destruct f3 as [|c f3]; [simpl; by eauto|].
  case_bool_decide as Hempty3; [simpl; by eauto|].
  destruct (choose_literal_returns (c :: f3)) as [chosen Hchoose].
  { by apply branching_ready_not_unit. }
  unfold call_choose_literal. rewrite Hchoose. simpl.
  destruct chosen as [l|]; [|simpl; split; [by eauto|by apply Forall_singleton]].
  case_bool_decide as Hl0; [simpl; split; [by eauto|by apply Forall_singleton]|].
  apply choose_literal_elem in Hchoose.
  assert (∀ g, 0 ∉ mjoin g → (formula_size g < formula_size (c :: f3))%nat →
               (∃ r, result (dpll_run fuel g) = Return r) ∧
               Forall branching_ready (calls (dpll_run fuel g))) as Hrec.
  { intros g Hg Hlt. apply IH; [lia|done]. }
  destruct (try_literal_safe (dpll_run fuel) (c :: f3) (ma ∪ ua) l Hrec)
    as [[positive Hpos] Hpcalls]; [by left|done|].
  destruct (try_literal_safe (dpll_run fuel) (c :: f3) (ma ∪ ua) (negate l) Hrec)
    as [[negative Hneg] Hncalls].
  { right. unfold negate. by rewrite Z.opp_involutive. }
  { done. }
  rewrite !run_bind_result, !run_bind_calls, Hpos.
  destruct positive as [r|].
  - simpl. split; [by eauto|]. constructor; [done|].
    rewrite app_nil_r. done.
  - rewrite !run_bind_result, !run_bind_calls, Hneg.
    split.
    + destruct negative; simpl; eauto.
    + constructor; [done|]. apply Forall_app. split; [done|].
      apply Forall_app. split; [done|]. destruct negative; simpl; constructor.
Qed.

(** The SAT verdict of [dpll] is sound. The subsumption steps remove
    nothing: the literals of the assignments they test have left the
    formula. *)
Lemma try_literal_sound (rec : list (list Z) → run (bool * option (list (list Z))))
    formula unit_assignments literal r :
  (∀ g r', result (rec g) = Return (true, r') → satisfiable g) →
  untouched unit_assignments formula →
  result (try_literal rec formula unit_assignments literal) = Return (Some (true, r)) →
  satisfiable formula.
Proof.
  intros Hrec Hun. unfold try_literal.
  destruct (apply_literal formula literal) as [g|] eqn:Hap; [|by simpl].
  apply apply_literal_Some in Hap. subst g.
  rewrite run_bind_result. simpl.
  destruct (unit_propagation (reduct formula literal)) as [[[g1|] a1]| |] eqn:Hup;
    simpl; try done.
  case_bool_decide as Hempty; [done|].
  pose proof Hup as Hsat. apply unit_propagation_inv in Hup as (Hsub1 & _).
  rewrite unit_subsumption_untouched; [|done|].
  2:{ apply (untouched_subseteq _ formula); [|done].
      etrans; [done|apply join_reduct_subseteq]. }
  rewrite run_bind_result.
  destruct (result (rec _)) as [[[] ff]| |] eqn:Hres; simpl; try done.
  intros _. apply (satisfiable_reduct _ literal).
  eapply unit_propagation_loop_satisfiable; [exact Hsat|].
  apply monotone_literal_fixing_satisfiable. by eapply Hrec.
Qed.

Lemma dpll_run_sound fuel formula r :
  result (dpll_run fuel formula) = Return (true, r) → satisfiable formula.
Proof.
  revert formula r. induction fuel as [|fuel IH]; intros formula r; [done|].
  simpl. rewrite run_bind_result. simpl.
  destruct (unit_propagation formula) as [[[f1|] ua]| |] eqn:Hup; simpl; try done.
  case_bool_decide as Hempty1; [done|].
  pose proof Hup as Hsat. apply unit_propagation_inv in Hup as (_ & _ & Hun1 & _).
  rewrite unit_subsumption_untouched by done.
  case_bool_decide; [done|].
  pose proof (monotone_literal_fixing_inv f1) as (Hsub3 & _ & Hun3 & _).
  pose proof (monotone_literal_fixing_satisfiable f1) as Hsat3.
  destruct (monotone_literal_fixing f1) as [f3 ma]. simpl in Hsub3, Hun3, Hsat3.
  assert (satisfiable f3 → satisfiable formula) as Hback.
  { intros Hf3. eapply unit_propagation_loop_satisfiable; [exact Hsat|]. auto. }
  destruct f3 as [|c f3]; [intros _; apply Hback, satisfiable_nil|].
  case_bool_decide; [done|].
  rewrite run_bind_result. simpl.
  destruct (choose_literal (c :: f3)) as [[l|]| |]; simpl; try done.
  case_bool_decide; [done|].
  assert (untouched (ma ∪ ua) (c :: f3)) as Hun.
  { apply untouched_union; [done|].
    apply (untouched_subseteq _ f1); [by apply join_subseteq|done]. }
  rewrite run_bind_result.
  destruct (result (try_literal _ _ _ l)) as [[[[] r1]|]| |] eqn:Hpos;
    simpl; try done.
  { intros _. apply Hback. eapply try_literal_sound; [|done|exact Hpos]. eauto. }
  rewrite run_bind_result.
  destruct (result (try_literal _ _ _ (negate l))) as [[[[] r2]|]| |] eqn:Hneg;
    simpl; try done.
  intros _. apply Hback. eapply try_literal_sound; [|done|exact Hneg]. eauto.
Qed.

(** The fuel that [dpll] supplies is enough on every formula: the
    recursion is on formulas with fewer literal occurrences. *)
Lemma score_clauses_fuel formula (scores : list (Z * float)) :
  score_clauses formula scores ≠ OutOfFuel.
Proof.
  revert scores. induction formula as [|clause formula IH]; intros scores; simpl.
  { done. }
  destruct clause as [|l clause]; [apply IH|].
  unfold weight. case_bool_decide; simpl; [done|apply IH].
Qed.

Lemma choose_literal_fuel formula : choose_literal formula ≠ OutOfFuel.
Proof.
  unfold choose_literal. pose proof (score_clauses_fuel formula []) as Hs.
  by destruct (score_clauses formula []).
Qed.

Lemma try_literal_fuel (rec : list (list Z) → run (bool * option (list (list Z))))
    formula unit_assignments literal :
  (∀ g, (formula_size g < formula_size formula)%nat → result (rec g) ≠ OutOfFuel) →
  literal ∈ mjoin formula ∨ negate literal ∈ mjoin formula →
  result (try_literal rec formula unit_assignments literal) ≠ OutOfFuel.
Proof.
  intros Hrec Hocc. unfold try_literal.
  destruct (apply_literal formula literal) as [g|] eqn:Hap; [|by simpl].
  apply apply_literal_Some in Hap. subst g.
  pose proof (formula_size_reduct_lt formula literal Hocc) as Hlt.
  destruct (unit_propagation_returns (reduct formula literal)) as [[g1 a1] Hup].
  rewrite run_bind_result, Hup. simpl.
  destruct g1 as [g1|]; [|by simpl].
  apply unit_propagation_inv in Hup as (_ & Hsize1 & _).
  case_bool_decide; [by simpl|].
  destruct (unit_subsumption (Some g1) unit_assignments) as [g2|] eqn:Hg2; [|by simpl].
  apply unit_subsumption_Some in Hg2 as [_ ->].
  rewrite run_bind_result.
  set (target := (monotone_literal_fixing _).1).
  assert ((formula_size target ≤ formula_size g1)%nat) as Hsizet.
  { destruct (monotone_literal_fixing_inv
                (filter (λ clause, Forall (λ l, unit_assignments !! l = None) clause) g1))
      as (_ & Hz & _).
    etrans; [exact Hz|]. apply formula_size_filter. }
  specialize (Hrec target ltac:(lia)).
  destruct (result (rec target)) as [[[] ff]| |]; by simpl.
Qed.

Lemma dpll_run_fuel fuel formula :
  (formula_size formula < fuel)%nat → result (dpll_run fuel formula) ≠ OutOfFuel.
Proof.
  revert formula. induction fuel as [|fuel IH]; intros formula Hfuel; [lia|].
  simpl.
  destruct (unit_propagation_returns formula) as [[f1 ua] Hup].
  rewrite run_bind_result, Hup. simpl.
  destruct f1 as [f1|]; [|by simpl].
  apply unit_propagation_inv in Hup as (_ & Hsize1 & _).
  case_bool_decide; [by simpl|].
  destruct (unit_subsumption (Some f1) ua) as [f2|] eqn:Hf2; [|by simpl].
  apply unit_subsumption_Some in Hf2 as [_ Hf2].
  case_bool_decide; [by simpl|].
  pose proof (monotone_literal_fixing_inv f2) as (_ & Hsize3 & _).
  destruct (monotone_literal_fixing f2) as [f3 ma]. simpl in Hsize3.
  assert ((formula_size f2 ≤ formula_size f1)%nat) as Hsize2
    by (subst f2; apply formula_size_filter).
  destruct f3 as [|c f3]; [by simpl|].
  case_bool_decide; [by simpl|].
  rewrite run_bind_result. simpl.
  pose proof (choose_literal_fuel (c :: f3)) as Hnof.
  destruct (choose_literal (c :: f3)) as [[l|]| |] eqn:Hchoose; simpl; try done.
  case_bool_decide; [by simpl|].
  apply choose_literal_elem in Hchoose.
  assert (∀ g, (formula_size g < formula_size (c :: f3))%nat →
               result (dpll_run fuel g) ≠ OutOfFuel) as Hrec.
  { intros g Hlt. apply IH. lia. }
  pose proof (try_literal_fuel (dpll_run fuel) (c :: f3) (ma ∪ ua) l Hrec) as Hpos.
  pose proof (try_literal_fuel (dpll_run fuel) (c :: f3) (ma ∪ ua) (negate l) Hrec)
    as Hneg.
  rewrite run_bind_result.
  destruct (result (try_literal _ _ _ l)) as [[r1|]| |]; simpl; [done| |done|].
  - rewrite run_bind_result.
    destruct (result (try_literal _ _ _ (negate l))) as [[r2|]| |]; simpl;
      [done|done|done|].
    exfalso. apply Hneg; [|done]. right. unfold negate. by rewrite Z.opp_involutive.
  - exfalso. apply Hpos; [by left|done].
Qed.

End dpll_facts.

End DpllFacts.

(** ** dp.py: unit propagation *)

Module DpFacts.
Import Dp.

Implicit Types (clauses : list (list Z)) (clause unit : list Z) (literal : Z).
Implicit Types (assignment : gmap Z bool).

Lemma propagate_length state unit :
  (length (propagate state unit).1 ≤ length state.1)%nat.
Proof. unfold propagate. simpl. rewrite length_fmap. apply length_filter. Qed.

Lemma foldl_propagate_length unit_clauses state :
  (length (foldl propagate state unit_clauses).1 ≤ length state.1)%nat.
Proof.
  revert state. induction unit_clauses as [|unit unit_clauses IH]; intros state.
  - done.
  - simpl. etrans; [apply IH|apply propagate_length].
Qed.

(** Propagating a unit clause of the clause list removes that clause. *)
Lemma propagate_length_lt state unit :
  unit ∈ state.1 → length unit = 1%nat →
  (length (propagate state unit).1 < length state.1)%nat.
Proof.
  destruct state as [clauses assignment]. simpl.
  destruct unit as [|literal [|? ?]]; [done| |done]. intros Hin _.
  unfold propagate. simpl. rewrite length_fmap.
  induction clauses as [|c clauses IH]; [by apply elem_of_nil in Hin|].
  apply elem_of_cons in Hin as [<-|Hin].
  - rewrite filter_cons_False; [|intros Hn; apply Hn; by left].
    simpl. pose proof (length_filter (λ c, literal ∉ c) clauses). lia.
  - specialize (IH Hin). destruct (decide (literal ∈ c)).
    + rewrite filter_cons_False by (by intros ?). simpl. lia.
    + rewrite filter_cons_True by done. simpl. lia.
Qed.

(** One iteration of the [while] loop, that is, the propagation of every
    unit clause found at its start, removes at least one clause. *)
Lemma unit_round_decreases clauses assignment :
  filter (λ c, length c = 1%nat) clauses ≠ [] →
  (length (foldl propagate (clauses, assignment)
                 (filter (λ c, length c = 1%nat) clauses)).1 < length clauses)%nat.
Proof.
  destruct (filter (λ c, length c = 1%nat) clauses) as [|unit units] eqn:Hf; [done|].
  intros _. simpl.
  assert (unit ∈ filter (λ c, length c = 1%nat) clauses) as Hin
    by (rewrite Hf; by left).
  apply list_elem_of_filter in Hin as [Hlen Hin].
  eapply Nat.le_lt_trans; [apply foldl_propagate_length|].
  by apply (propagate_length_lt (clauses, assignment)).
Qed.

Lemma dp_unit_propagation_loop_returns fuel clauses assignment :
  (length clauses ≤ fuel)%nat →
  ∃ r, unit_propagation_loop fuel clauses assignment = Return r.
Proof.
  revert clauses assignment.
  induction fuel as [|fuel IH]; intros clauses assignment Hlen.
  - destruct clauses; [|simpl in Hlen; lia]. simpl. eauto.
  - simpl.
    pose proof (unit_round_decreases clauses assignment) as Hdec.
    destruct (filter (λ c, length c = 1%nat) clauses) as [|unit units] eqn:Hf;
      [eauto|].
    apply IH. specialize (Hdec ltac:(done)). simpl in Hdec. lia.
Qed.

Lemma dp_unit_propagation_returns clauses :
  ∃ r, unit_propagation clauses = Return r.
Proof. by apply dp_unit_propagation_loop_returns. Qed.

(** *** The empty clause under unit propagation *)

Lemma remove_first_nil x : remove_first x [] = [].
Proof. done. Qed.

Lemma propagate_keeps_empty state unit :
  [] ∈ state.1 → [] ∈ (propagate state unit).1.
Proof.
  intros Hin. unfold propagate. simpl.
  apply list_elem_of_fmap. exists []. split; [done|].
  apply list_elem_of_filter. split; [by intros ?%elem_of_nil|done].
Qed.

Lemma foldl_propagate_keeps_empty (unit_clauses : list (list Z)) state :
  [] ∈ state.1 → [] ∈ (foldl propagate state unit_clauses).1.
Proof.
  revert state. induction unit_clauses as [|unit unit_clauses IH]; intros state Hin.
  - done.
  - simpl. by apply IH, propagate_keeps_empty.
Qed.

(** Once a clause is empty, it stays in the clause list to the end. *)
Lemma unit_propagation_loop_keeps_empty fuel clauses assignment clauses' assignment' :
  [] ∈ clauses →
  unit_propagation_loop fuel clauses assignment = Return (clauses', assignment') →
  [] ∈ clauses'.
Proof.
  revert clauses assignment.
  induction fuel as [|fuel IH]; intros clauses assignment Hin; simpl.
  - destruct (filter _ clauses); [|done]. by intros [= <- <-].
  - destruct (filter _ clauses) as [|unit units] eqn:Hf; [by intros [= <- <-]|].
    apply IH. by apply (foldl_propagate_keeps_empty (unit :: units) (clauses, assignment)).
Qed.

(** Propagating a unit clause empties the complementary unit clause. *)
Lemma propagate_empties state literal :
  literal ≠ 0 → [- literal] ∈ state.1 → [] ∈ (propagate state [literal]).1.
Proof.
  intros Hnz Hin. unfold propagate. simpl.
  apply list_elem_of_fmap. exists [- literal]. split.
  - simpl. by rewrite bool_decide_true.
  - apply list_elem_of_filter. split; [|done].
    intros Hl%list_elem_of_singleton. lia.
Qed.

(** A unit clause on another variable leaves a unit clause as it is. *)
Lemma propagate_keeps_unit state other literal :
  other ≠ literal → other ≠ - literal →
  [literal] ∈ state.1 → [literal] ∈ (propagate state [other]).1.
Proof.
  intros Hne Hneg Hin. unfold propagate. simpl.
  apply list_elem_of_fmap. exists [literal]. split.
  - simpl. rewrite bool_decide_false by lia. done.
  - apply list_elem_of_filter. split; [|done].
    by intros Hl%list_elem_of_singleton.
Qed.

Lemma propagate_conflict_pending state unit literal :
  literal ≠ 0 → length unit = 1%nat →
  conflict_pending literal state.1 →
  conflict_pending literal (propagate state unit).1 ∧
  (unit = [literal] → [] ∈ (propagate state unit).1).
Proof.
  intros Hnz Hlen [Hempty|[Hpos Hneg]].
  { split; [left|intros _]; by apply propagate_keeps_empty. }
  destruct unit as [|other [|? ?]]; [done| |done].
  destruct (decide (other = literal)) as [->|Hne].
  { split; [left|intros _]; by apply propagate_empties. }
  destruct (decide (other = - literal)) as [->|Hne'].
  { split; [left|intros [=]; lia]. apply propagate_empties; [lia|].
    by rewrite Z.opp_involutive. }
  split; [|by intros [=]]. right. split.
  - by apply propagate_keeps_unit.
  - apply propagate_keeps_unit; [lia|lia|done].
Qed.

Lemma foldl_propagate_conflict (unit_clauses : list (list Z)) state literal :
  literal ≠ 0 → Forall (λ unit, length unit = 1%nat) unit_clauses →
  conflict_pending literal state.1 → [literal] ∈ unit_clauses →
  [] ∈ (foldl propagate state unit_clauses).1.
Proof.
  intros Hnz Hunits. revert state.
  induction Hunits as [|unit unit_clauses Hlen Hunits IH]; intros state Hpending.
  { by intros ?%elem_of_nil. }
  destruct (propagate_conflict_pending state unit literal Hnz Hlen Hpending)
    as [Hnext Hnow].
  simpl. intros [Heq|Hin]%elem_of_cons.
  - apply foldl_propagate_keeps_empty. by apply Hnow.
  - by apply IH.
Qed.

(** Two complementary unit clauses leave the empty clause in the result
    of unit propagation. *)
Lemma unit_propagation_conflict clauses literal clauses' assignment' :
  literal ≠ 0 → [literal] ∈ clauses → [- literal] ∈ clauses →
  unit_propagation clauses = Return (clauses', assignment') → [] ∈ clauses'.
Proof.
  intros Hnz Hpos Hneg. unfold unit_propagation.
  destruct (length clauses) as [|fuel] eqn:Hlen.
  { destruct clauses; [by apply elem_of_nil in Hpos|done]. }
  simpl.
  assert ([literal] ∈ filter (λ c, length c = 1%nat) clauses) as Hunit
    by (by apply list_elem_of_filter).
  destruct (filter (λ c, length c = 1%nat) clauses) as [|unit units] eqn:Hf;
    [by apply elem_of_nil in Hunit|].
  apply unit_propagation_loop_keeps_empty.
  apply (foldl_propagate_conflict (unit :: units) (clauses, ∅) literal); [done| | |done].
  - rewrite <- Hf. apply Forall_forall. by intros c [? _]%list_elem_of_filter.
  - right. done.
Qed.

Lemma unit_propagation_keeps_empty clauses clauses' assignment' :
  [] ∈ clauses →
  unit_propagation clauses = Return (clauses', assignment') → [] ∈ clauses'.
Proof. apply unit_propagation_loop_keeps_empty. Qed.

Lemma foldl_fix_keeps_empty (counter literals : list Z)
    (state : list (list Z) * gmap Z bool) :
  [] ∈ state.1 →
  [] ∈ (foldl (λ state literal,
                 if bool_decide (- literal ∉ counter)
                 then (filter (λ c, literal ∉ c) state.1, <[literal := true]> state.2)
                 else state)
              state literals).1.
Proof.
  revert state. induction literals as [|l literals IH]; intros state Hin; [done|].
  simpl. case_bool_decide; [|by apply IH].
  apply IH. simpl. apply list_elem_of_filter. split; [by intros ?%elem_of_nil|done].
Qed.

Lemma monotone_literal_fixing_keeps_empty clauses :
  [] ∈ clauses → [] ∈ (monotone_literal_fixing clauses).1.
Proof. apply (foldl_fix_keeps_empty _ _ (clauses, ∅)). Qed.

End DpFacts.

(** ** Resolvents *)

Module ResolventFacts.

Implicit Types (clauses : list (list Z)) (clause c : list Z) (literal : Z).

Lemma is_redundant_clause_true clause :
  is_redundant_clause clause = true ↔ ∃ l, l ∈ clause ∧ - l ∈ clause.
Proof.
  unfold is_redundant_clause. rewrite bool_decide_eq_true, Exists_exists.
  split.
  - intros (l & Hl & Hex). apply Exists_exists in Hex as (other & Hother & ->).
    exists other. split; [done|done].
  - intros (l & Hl & Hneg). exists (- l). split; [done|].
    apply Exists_exists. exists l. split; [done|done].
Qed.

Lemma is_redundant_clause_false clause :
  is_redundant_clause clause = false ↔ ∀ l, l ∈ clause → - l ∉ clause.
Proof.
  rewrite <- not_true_iff_false, is_redundant_clause_true. split.
  - intros Hn l Hl Hneg. apply Hn. eauto.
  - intros Hall (l & Hl & Hneg). by apply (Hall l).
Qed.

Lemma combinations_elem_of clauses c1 c2 :
  c1 ∈ clauses → c2 ∈ clauses → c1 ≠ c2 →
  (c1, c2) ∈ combinations clauses ∨ (c2, c1) ∈ combinations clauses.
Proof.
  induction clauses as [|c clauses IH]; [by intros ?%elem_of_nil|].
  simpl. rewrite !elem_of_cons, !elem_of_app. intros [->|H1] [->|H2] Hne.
  - done.
  - left. left. by apply list_elem_of_fmap_2.
  - right. left. by apply list_elem_of_fmap_2.
  - destruct (IH H1 H2 Hne); [left|right]; by right.
Qed.

Section order.
Context `{SetOrder}.

Lemma elem_of_set_list_Z (X : gset Z) x : x ∈ set_list_Z X ↔ x ∈ X.
Proof. by rewrite (set_list_Z_perm X), elem_of_elements. Qed.

Lemma NoDup_set_list_Z (X : gset Z) : NoDup (set_list_Z X).
Proof. rewrite (set_list_Z_perm X). apply NoDup_elements. Qed.

Lemma set_list_Z_empty : set_list_Z ∅ = [].
Proof. apply Permutation_nil_r. by rewrite (set_list_Z_perm ∅), elements_empty. Qed.

Lemma set_list_Z_singleton x : set_list_Z {[x]} = [x].
Proof.
  apply Permutation_singleton_r. by rewrite (set_list_Z_perm {[x]}), elements_singleton.
Qed.

Lemma elem_of_set_list_clause (X : gset (list Z)) c : c ∈ set_list_clause X ↔ c ∈ X.
Proof. by rewrite (set_list_clause_perm X), elem_of_elements. Qed.

Lemma sorted_Permutation (l1 l2 : list Z) : l1 ≡ₚ l2 → sorted l1 = sorted l2.
Proof.
  intros Hperm. unfold sorted. apply (Sorted_unique Z.le).
  - apply (Sorted_merge_sort Z.le).
  - apply (Sorted_merge_sort Z.le).
  - by rewrite !merge_sort_Permutation.
Qed.

Lemma sorted_set_list_Z (X : gset Z) : sorted (set_list_Z X) = sorted (elements X).
Proof. apply sorted_Permutation, set_list_Z_perm. Qed.

(** The literals of a resolvent. *)
Lemma elem_of_resolve c1 c2 literal x :
  x ∈ resolve c1 c2 literal ↔ (x ∈ c1 ∨ x ∈ c2) ∧ x ≠ literal ∧ x ≠ - literal.
Proof.
  unfold resolve. rewrite elem_of_set_list_Z, elem_of_difference.
  rewrite elem_of_list_to_set, elem_of_app, elem_of_union, !elem_of_singleton.
  tauto.
Qed.

(** Resolving on a literal and on its negation gives the same list. *)
Lemma resolve_opp c1 c2 literal :
  resolve c1 c2 (- literal) = resolve c1 c2 literal.
Proof.
  unfold resolve. f_equal. rewrite Z.opp_involutive. f_equal.
  apply set_eq. intros x. rewrite !elem_of_union, !elem_of_singleton. tauto.
Qed.

Lemma resolve_units literal : resolve [literal] [- literal] literal = [].
Proof.
  unfold resolve. etrans; [|apply set_list_Z_empty]. f_equal.
  apply set_eq. intros x.
  rewrite elem_of_difference, elem_of_list_to_set, elem_of_app.
  rewrite !list_elem_of_singleton, elem_of_union, !elem_of_singleton.
  split; [tauto|by intros ?%elem_of_empty].
Qed.

Lemma resolve_eq_nil c1 c2 literal :
  resolve c1 c2 literal = [] ↔ ∀ x, x ∈ c1 ∨ x ∈ c2 → x = literal ∨ x = - literal.
Proof.
  split.
  - intros Hnil x Hx. destruct (decide (x = literal)) as [|Hne]; [by left|].
    destruct (decide (x = - literal)) as [|Hneg]; [by right|].
    assert (x ∈ resolve c1 c2 literal) as Hin by (by apply elem_of_resolve).
    rewrite Hnil in Hin. by apply elem_of_nil in Hin.
  - intros Hall. destruct (resolve c1 c2 literal) as [|x r] eqn:Hr; [done|].
    assert (x ∈ resolve c1 c2 literal) as Hin by (rewrite Hr; by left).
    apply elem_of_resolve in Hin as (Hx & Hne & Hneg).
    destruct (Hall x Hx); done.
Qed.

End order.

End ResolventFacts.

(** ** resolution.py *)

Module ResolutionFacts.
Import Resolution ResolventFacts.

Implicit Types (clauses : list (list Z)) (clause c r : list Z) (literal : Z).
Implicit Types (clause_set new : gset (list Z)).

Section order.
Context `{SetOrder}.

Lemma elem_of_step c1 c2 (resolvents : list (list Z)) literal r :
  r ∈ find_resolvents_step c1 c2 resolvents literal ↔
  r ∈ resolvents ∨
  (- literal ∈ c2 ∧ r = resolve c1 c2 literal ∧ is_redundant_clause r = false).
Proof.
  unfold find_resolvents_step. case_bool_decide as Hneg; [|tauto]. simpl.
  case_bool_decide as Hnew; simpl.
  - destruct (is_redundant_clause (resolve c1 c2 literal)) eqn:Hred; simpl.
    + split; [by left|]. intros [?|(_ & -> & ?)]; [done|congruence].
    + rewrite elem_of_app, list_elem_of_singleton. split.
      * intros [?| ->]; [by left|by right].
      * intros [?|(_ & -> & _)]; [by left|by right].
  - split; [by left|].
    intros [?|(_ & -> & _)]; done.
Qed.

Lemma NoDup_step c1 c2 (resolvents : list (list Z)) literal :
  NoDup resolvents → NoDup (find_resolvents_step c1 c2 resolvents literal).
Proof.
  intros Hnd. unfold find_resolvents_step. case_bool_decide; [|done]. simpl.
  case_bool_decide as Hnew; simpl; [|done].
  destruct (is_redundant_clause _); simpl; [done|].
  apply NoDup_app. split; [done|]. split; [|apply NoDup_singleton].
  intros r Hr Heq. apply list_elem_of_singleton in Heq as ->. done.
Qed.

Lemma elem_of_foldl_step c1 c2 (literals : list Z) (resolvents : list (list Z)) r :
  r ∈ foldl (find_resolvents_step c1 c2) resolvents literals ↔
  r ∈ resolvents ∨
  ∃ literal, literal ∈ literals ∧ - literal ∈ c2 ∧
             r = resolve c1 c2 literal ∧ is_redundant_clause r = false.
Proof.
  revert resolvents.
  induction literals as [|l literals IH]; intros resolvents; simpl.
  { split; [by left|]. intros [?|(l & ?%elem_of_nil & _)]; done. }
  rewrite IH, elem_of_step. split.
  - intros [[?|?]|(l' & ? & ?)].
    + by left.
    + right. exists l. split; [by left|done].
    + right. exists l'. split; [by right|done].
  - intros [?|(l' & [->|?]%elem_of_cons & ?)].
    + left. by left.
    + left. by right.
    + right. by exists l'.
Qed.

Lemma NoDup_foldl_step c1 c2 (literals : list Z) (resolvents : list (list Z)) :
  NoDup resolvents → NoDup (foldl (find_resolvents_step c1 c2) resolvents literals).
Proof.
  revert resolvents. induction literals as [|l literals IH]; intros resolvents Hnd.
  - done.
  - simpl. by apply IH, NoDup_step.
Qed.

Lemma find_resolvents_foldl c1 c2 : find_resolvents c1 c2 = foldl (find_resolvents_step c1 c2) [] c1.
Proof. reflexivity. Qed.

(** The resolvents of a pair: the non-tautologous candidates. *)
Lemma elem_of_find_resolvents c1 c2 r :
  r ∈ find_resolvents c1 c2 ↔
  ∃ literal, literal ∈ c1 ∧ - literal ∈ c2 ∧
             r = resolve c1 c2 literal ∧ is_redundant_clause r = false.
Proof.
  rewrite find_resolvents_foldl, elem_of_foldl_step. split; [|by right].
  by intros [?%elem_of_nil|?].
Qed.

Lemma NoDup_find_resolvents c1 c2 : NoDup (find_resolvents c1 c2).
Proof. rewrite find_resolvents_foldl. apply NoDup_foldl_step. constructor. Qed.

(** Two candidates of one pair on different variables each contain the
    complementary pair of the other, and two candidates on one variable
    are equal. *)
Lemma find_resolvents_unique c1 c2 r1 r2 :
  r1 ∈ find_resolvents c1 c2 → r2 ∈ find_resolvents c1 c2 → r1 = r2.
Proof.
  rewrite !elem_of_find_resolvents.
  intros (l1 & Hl1 & Hn1 & -> & Hred1) (l2 & Hl2 & Hn2 & -> & Hred2).
  destruct (decide (l2 = l1)) as [->|Hne]; [done|].
  destruct (decide (l2 = - l1)) as [->|Hneg]; [by rewrite resolve_opp|].
  exfalso. rewrite is_redundant_clause_false in Hred1.
  apply (Hred1 l2); apply elem_of_resolve.
  - split; [by left|]. done.
  - split; [by right|]. split; lia.
Qed.

Lemma find_resolvents_length c1 c2 : (length (find_resolvents c1 c2) ≤ 1)%nat.
Proof.
  pose proof (NoDup_find_resolvents c1 c2) as Hnd.
  pose proof (find_resolvents_unique c1 c2) as Huniq.
  destruct (find_resolvents c1 c2) as [|r1 [|r2 rs]]; simpl; [lia|lia|].
  exfalso. apply NoDup_cons in Hnd as [Hnin _]. apply Hnin.
  rewrite (Huniq r1 r2); [by left|by left|right; by left].
Qed.

Lemma find_resolvents_units literal : find_resolvents [literal] [- literal] = [[]].
Proof.
  rewrite find_resolvents_foldl. cbn [foldl]. unfold find_resolvents_step.
  rewrite bool_decide_true by (by left). cbv zeta. rewrite resolve_units.
  rewrite bool_decide_true by (by intros ?%elem_of_nil). done.
Qed.

Lemma find_resolvents_units_opp literal : find_resolvents [- literal] [literal] = [[]].
Proof.
  pose proof (find_resolvents_units (- literal)) as Hu.
  by rewrite Z.opp_involutive in Hu.
Qed.

(** *** The resolution loop *)

Lemma add_resolvents_None clause_set (resolvents : list (list Z)) new :
  [] ∈ resolvents → add_resolvents clause_set resolvents new = None.
Proof.
  revert new. induction resolvents as [|r resolvents IH]; intros new.
  { by intros ?%elem_of_nil. }
  intros Hin. simpl. destruct r as [|l r]; [done|].
  apply elem_of_cons in Hin as [?|Hin]; [done|].
  case_bool_decide; by apply IH.
Qed.

Lemma add_resolvents_Some clause_set (resolvents : list (list Z)) new new' t :
  add_resolvents clause_set resolvents new = Some new' →
  t ∈ new' ↔ t ∈ new ∨ (∃ r, r ∈ resolvents ∧ t = sorted r ∧ t ∉ clause_set).
Proof.
  revert new. induction resolvents as [|r resolvents IH]; intros new; simpl.
  { intros [= <-]. split; [by left|]. intros [?|(r & ?%elem_of_nil & _)]; done. }
  destruct r as [|l r]; [done|].
  case_bool_decide as Hfresh; intros Hadd; rewrite (IH _ Hadd).
  - rewrite elem_of_union, elem_of_singleton. split.
    + intros [[->|?]|(r' & ? & ?)].
      * right. exists (l :: r). split; [by left|done].
      * by left.
      * right. exists r'. split; [by right|done].
    + intros [?|(r' & [->|?]%elem_of_cons & -> & ?)].
      * left. by right.
      * left. by left.
      * right. by exists r'.
  - split.
    + intros [?|(r' & ? & ?)]; [by left|].
      right. exists r'. split; [by right|done].
    + intros [?|(r' & [->|?]%elem_of_cons & -> & ?)]; [by left|done|].
      right. by exists r'.
Qed.

Lemma resolve_pairs_None clause_set (pairs : list (list Z * list Z)) new c1 c2 :
  (c1, c2) ∈ pairs → [] ∈ find_resolvents c1 c2 →
  resolve_pairs clause_set pairs new = None.
Proof.
  revert new. induction pairs as [|[a b] pairs IH]; intros new.
  { by intros ?%elem_of_nil. }
  intros Hin Hempty. simpl.
  destruct (add_resolvents clause_set (find_resolvents a b) new) as [new'|] eqn:Hadd;
    [|done].
  apply elem_of_cons in Hin as [[= <- <-]|Hin].
  - by rewrite add_resolvents_None in Hadd.
  - by apply IH.
Qed.

Lemma resolve_pairs_Some clause_set (pairs : list (list Z * list Z)) new new' t :
  resolve_pairs clause_set pairs new = Some new' →
  t ∈ new' ↔
  t ∈ new ∨ ∃ c1 c2 r, (c1, c2) ∈ pairs ∧ r ∈ find_resolvents c1 c2 ∧
                       t = sorted r ∧ t ∉ clause_set.
Proof.
  revert new. induction pairs as [|[a b] pairs IH]; intros new; simpl.
  { intros [= <-]. split; [by left|].
    intros [?|(? & ? & ? & ?%elem_of_nil & _)]; done. }
  destruct (add_resolvents clause_set (find_resolvents a b) new) as [new1|] eqn:Hadd;
    [|done].
  intros Hrest. rewrite (IH _ Hrest), (add_resolvents_Some _ _ _ _ _ Hadd). split.
  - intros [[?|(r & ? & ? & ?)]|(c1 & c2 & r & ? & ?)].
    + by left.
    + right. exists a, b, r. split; [by left|done].
    + right. exists c1, c2, r. split; [by right|done].
  - intros [?|(c1 & c2 & r & [[= -> ->]|?]%elem_of_cons & ? & ? & ?)].
    + left. by left.
    + left. right. by exists r.
    + right. by exists c1, c2, r.
Qed.

(** Two complementary unit clauses end the loop in the round that sees
    them. *)
Lemma resolution_loop_complementary_units fuel clauses clause_set literal :
  literal ≠ 0 → [literal] ∈ clauses → [- literal] ∈ clauses →
  resolution_loop (S fuel) clauses clause_set = Return 0.
Proof.
  intros Hnz Hpos Hneg. simpl.
  assert (resolve_pairs clause_set (combinations clauses) ∅ = None) as ->; [|done].
  destruct (combinations_elem_of clauses [literal] [- literal]) as [Hin|Hin];
    [done|done|intros [=]; lia| |].
  - apply (resolve_pairs_None _ _ _ _ _ Hin).
    rewrite find_resolvents_units. by left.
  - apply (resolve_pairs_None _ _ _ _ _ Hin).
    rewrite find_resolvents_units_opp. by left.
Qed.

Lemma resolution_complementary_units fuel clauses literal :
  literal ≠ 0 → [literal] ∈ clauses → [- literal] ∈ clauses →
  resolution (S fuel) clauses = Return 0.
Proof. apply resolution_loop_complementary_units. Qed.

End order.

End ResolutionFacts.

(** ** dp.py: resolvents and the Davis-Putnam loop *)

Module DavisPutnamFacts.
Import Dp DpFacts ResolventFacts.

Implicit Types (clauses : list (list Z)) (clause c r : list Z) (literal : Z).
Implicit Types (new_clauses previous_clauses : gset (list Z)).

#[local] Arguments unit_propagation : simpl never.
#[local] Arguments monotone_literal_fixing : simpl never.

Section order.
Context `{SetOrder}.

Lemma dp_find_resolvents_foldl c1 c2 :
  find_resolvents c1 c2 = foldl (find_resolvents_step c1 c2) [] c1.
Proof. reflexivity. Qed.

Lemma dp_elem_of_step c1 c2 (resolvents : list (list Z)) literal r :
  r ∈ find_resolvents_step c1 c2 resolvents literal ↔
  r ∈ resolvents ∨
  (- literal ∈ c2 ∧ r = resolve c1 c2 literal ∧ r ≠ [] ∧
   is_redundant_clause r = false).
Proof.
  unfold find_resolvents_step. case_bool_decide as Hneg; [|tauto]. simpl.
  case_bool_decide as Hnil; simpl.
  2:{ split; [by left|]. intros [?|(_ & -> & ? & _)]; done. }
  destruct (is_redundant_clause (resolve c1 c2 literal)) eqn:Hred; simpl.
  { split; [by left|]. intros [?|(_ & -> & _ & ?)]; [done|congruence]. }
  case_bool_decide as Hnew.
  - rewrite elem_of_app, list_elem_of_singleton. split.
    + intros [?| ->]; [by left|by right].
    + intros [?|(_ & -> & _)]; [by left|by right].
  - split; [by left|]. intros [?|(_ & -> & _)]; done.
Qed.

Lemma dp_elem_of_foldl_step c1 c2 (literals : list Z) (resolvents : list (list Z)) r :
  r ∈ foldl (find_resolvents_step c1 c2) resolvents literals ↔
  r ∈ resolvents ∨
  ∃ literal, literal ∈ literals ∧ - literal ∈ c2 ∧
             r = resolve c1 c2 literal ∧ r ≠ [] ∧ is_redundant_clause r = false.
Proof.
  revert resolvents.
  induction literals as [|l literals IH]; intros resolvents; simpl.
  { split; [by left|]. intros [?|(l & ?%elem_of_nil & _)]; done. }
  rewrite IH, dp_elem_of_step. split.
  - intros [[?|?]|(l' & ? & ?)].
    + by left.
    + right. exists l. split; [by left|done].
    + right. exists l'. split; [by right|done].
  - intros [?|(l' & [->|?]%elem_of_cons & ?)].
    + left. by left.
    + left. by right.
    + right. by exists l'.
Qed.

(** The resolvents of a pair in dp.py: the candidates that are neither
    empty nor tautologous. *)
Lemma dp_elem_of_find_resolvents c1 c2 r :
  r ∈ find_resolvents c1 c2 ↔
  ∃ literal, literal ∈ c1 ∧ - literal ∈ c2 ∧
             r = resolve c1 c2 literal ∧ r ≠ [] ∧ is_redundant_clause r = false.
Proof.
  rewrite dp_find_resolvents_foldl, dp_elem_of_foldl_step. split; [|by right].
  by intros [?%elem_of_nil|?].
Qed.

Lemma dp_find_resolvents_not_empty c1 c2 : [] ∉ find_resolvents c1 c2.
Proof. rewrite dp_elem_of_find_resolvents. by intros (l & _ & _ & _ & ? & _). Qed.

Lemma dp_find_resolvents_units literal : find_resolvents [literal] [- literal] = [].
Proof.
  rewrite dp_find_resolvents_foldl. cbn [foldl]. unfold find_resolvents_step.
  rewrite bool_decide_true by (by left). cbv zeta. rewrite resolve_units.
  by rewrite bool_decide_false by (by intros ?).
Qed.

Lemma dp_add_resolvents_Some (resolvents : list (list Z)) new_clauses new' t :
  add_resolvents resolvents new_clauses = Some new' →
  t ∈ new' ↔ t ∈ new_clauses ∨ (∃ r, r ∈ resolvents ∧ t = sorted r).
Proof.
  revert new_clauses. induction resolvents as [|r resolvents IH]; intros new_clauses.
  { simpl. intros [= <-]. split; [by left|]. intros [?|(r & ?%elem_of_nil & _)]; done. }
  simpl. destruct r as [|l r]; [done|].
  intros Hadd. rewrite (IH _ Hadd), elem_of_union, elem_of_singleton. split.
  - intros [[->|?]|(r' & ? & ?)].
    + right. exists (l :: r). split; [by left|done].
    + by left.
    + right. exists r'. split; [by right|done].
  - intros [?|(r' & [->|?]%elem_of_cons & ->)].
    + left. by right.
    + left. by left.
    + right. by exists r'.
Qed.

Lemma dp_resolve_pairs_Some (pairs : list (list Z * list Z)) new_clauses new' t :
  resolve_pairs pairs new_clauses = Some new' →
  t ∈ new' ↔
  t ∈ new_clauses ∨
  ∃ c1 c2 r, (c1, c2) ∈ pairs ∧ r ∈ find_resolvents c1 c2 ∧ t = sorted r.
Proof.
  revert new_clauses. induction pairs as [|[a b] pairs IH]; intros new_clauses; simpl.
  { intros [= <-]. split; [by left|].
    intros [?|(? & ? & ? & ?%elem_of_nil & _)]; done. }
  destruct (add_resolvents (find_resolvents a b) new_clauses) as [new1|] eqn:Hadd;
    [|done].
  intros Hrest. rewrite (IH _ Hrest), (dp_add_resolvents_Some _ _ _ _ Hadd). split.
  - intros [[?|(r & ? & ?)]|(c1 & c2 & r & ? & ?)].
    + by left.
    + right. exists a, b, r. split; [by left|done].
    + right. exists c1, c2, r. split; [by right|done].
  - intros [?|(c1 & c2 & r & [[= -> ->]|?]%elem_of_cons & ? & ?)].
    + left. by left.
    + left. right. by exists r.
    + right. by exists c1, c2, r.
Qed.

Lemma dp_NoDup_step c1 c2 (resolvents : list (list Z)) literal :
  NoDup resolvents → NoDup (find_resolvents_step c1 c2 resolvents literal).
Proof.
  intros Hnd. unfold find_resolvents_step. case_bool_decide; [|done]. simpl.
  destruct (bool_decide (resolve c1 c2 literal ≠ [])); simpl; [|done].
  destruct (is_redundant_clause _); simpl; [done|].
  case_bool_decide as Hnew; [|done].
  apply NoDup_app. split; [done|]. split; [|apply NoDup_singleton].
  intros r Hr Heq. apply list_elem_of_singleton in Heq as ->. done.
Qed.

Lemma dp_NoDup_foldl_step c1 c2 (literals : list Z) (resolvents : list (list Z)) :
  NoDup resolvents → NoDup (foldl (find_resolvents_step c1 c2) resolvents literals).
Proof.
  revert resolvents. induction literals as [|l literals IH]; intros resolvents Hnd.
  - done.
  - simpl. by apply IH, dp_NoDup_step.
Qed.

Lemma dp_NoDup_find_resolvents c1 c2 : NoDup (find_resolvents c1 c2).
Proof. rewrite dp_find_resolvents_foldl. apply dp_NoDup_foldl_step. constructor. Qed.

Lemma dp_find_resolvents_subseteq c1 c2 :
  find_resolvents c1 c2 ⊆ Resolution.find_resolvents c1 c2.
Proof.
  intros r. rewrite dp_elem_of_find_resolvents, ResolutionFacts.elem_of_find_resolvents.
  intros (l & ? & ? & ? & _ & ?). by exists l.
Qed.

Lemma dp_find_resolvents_length c1 c2 : (length (find_resolvents c1 c2) ≤ 1)%nat.
Proof.
  pose proof (dp_NoDup_find_resolvents c1 c2) as Hnd.
  pose proof (dp_find_resolvents_subseteq c1 c2) as Hsub.
  destruct (find_resolvents c1 c2) as [|r1 [|r2 rs]]; simpl; [lia|lia|].
  exfalso. apply NoDup_cons in Hnd as [Hnin _]. apply Hnin.
  rewrite (ResolutionFacts.find_resolvents_unique c1 c2 r1 r2).
  - by left.
  - apply Hsub. by left.
  - apply Hsub. right. by left.
Qed.

(** A clause list that holds the empty clause is rejected by the
    iteration that sees it. *)
Lemma davis_putnam_loop_empty_clause fuel clauses final_assignment previous_clauses :
  [] ∈ clauses →
  davis_putnam_loop (S fuel) clauses final_assignment previous_clauses = Return (0, ∅).
Proof.
  intros Hin. destruct clauses as [|c clauses]; [by apply elem_of_nil in Hin|].
  simpl.
  destruct (dp_unit_propagation_returns (c :: clauses)) as [[clauses1 ua] Hup].
  rewrite Hup. simpl.
  apply unit_propagation_keeps_empty in Hup; [|done].
  apply monotone_literal_fixing_keeps_empty in Hup.
  destruct (monotone_literal_fixing clauses1) as [clauses2 ma]. simpl in Hup.
  destruct clauses2 as [|c2 clauses2]; [by apply elem_of_nil in Hup|].
  by rewrite bool_decide_true.
Qed.

(** So is a clause list that holds two complementary unit clauses: unit
    propagation turns one of them into the empty clause. *)
Lemma davis_putnam_loop_complementary_units fuel clauses final_assignment
    previous_clauses literal :
  literal ≠ 0 → [literal] ∈ clauses → [- literal] ∈ clauses →
  davis_putnam_loop (S fuel) clauses final_assignment previous_clauses = Return (0, ∅).
Proof.
  intros Hnz Hpos Hneg.
  destruct clauses as [|c clauses]; [by apply elem_of_nil in Hpos|].
  simpl.
  destruct (dp_unit_propagation_returns (c :: clauses)) as [[clauses1 ua] Hup].
  rewrite Hup. simpl.
  apply (unit_propagation_conflict _ literal) in Hup; [|done..].
  apply monotone_literal_fixing_keeps_empty in Hup.
  destruct (monotone_literal_fixing clauses1) as [clauses2 ma]. simpl in Hup.
  destruct clauses2 as [|c2 clauses2]; [by apply elem_of_nil in Hup|].
  by rewrite bool_decide_true.
Qed.

End order.

End DavisPutnamFacts.

(** C8. Unit propagation terminates on every formula, in dpll.py and in
    dp.py: both functions return, and every iteration of their loops
    strictly decreases the number of clauses. *)
Theorem unit_propagation_terminates (formula : list (list Z)) :
  (∃ r, Dpll.unit_propagation formula = Return r) ∧
  (∃ r, Dp.unit_propagation formula = Return r) ∧
  (∀ unit_clause formula',
     Dpll.find_unit_clause formula = Some unit_clause →
     Dpll.apply_literal formula unit_clause = Some formula' →
     (length formula' < length formula)%nat) ∧
  (∀ assignment,
     filter (λ c, length c = 1%nat) formula ≠ [] →
     (length (foldl Dp.propagate (formula, assignment)
                    (filter (λ c, length c = 1%nat) formula)).1
      < length formula)%nat).
Proof.
  split; [apply DpllFacts.unit_propagation_returns|].
  split; [apply DpFacts.dp_unit_propagation_returns|].
  split.
  - apply DpllFacts.unit_step_decreases.
  - intros assignment. apply DpFacts.unit_round_decreases.
Qed.

(** ** dpll.py: the claims *)

#[local] Arguments Dpll.unit_subsumption : simpl never.
#[local] Arguments Dpll.unit_propagation : simpl never.
#[local] Arguments Dpll.monotone_literal_fixing : simpl never.
#[local] Arguments Dpll.choose_literal : simpl never.
#[local] Arguments Dpll.try_literal : simpl never.

Section dpll_claims.
Context `{FloatOps}.
Implicit Types (formula : list (list Z)).

(** An input that contains the empty clause is rejected before any
    branching: [choose_literal] is not called. *)
Lemma dpll_rejects_empty_clause formula :
  [] ∈ formula → ∃ second, Dpll.dpll formula = Run [] (Return (false, second)).
Proof.
  intros Hin. unfold Dpll.dpll. cbn [Dpll.dpll_run].
  destruct (DpllFacts.unit_propagation_returns formula) as [[f1 ua] Hup].
  rewrite Hup, lift_bind. destruct f1 as [f1|]; [|by eexists].
  apply DpllFacts.unit_propagation_inv in Hup as (_ & _ & _ & _ & Hempty).
  rewrite bool_decide_true by auto. by eexists.
Qed.

(** C10. Whenever [dpll] returns with first component [True], its second
    component is the empty formula. *)
Theorem dpll_sat_returns_empty_formula formula (second : option (list (list Z))) :
  result (Dpll.dpll formula) = Return (true, second) → second = Some [].
Proof. apply DpllFacts.dpll_run_sat. Qed.

(** C1, as amended. Whenever [dpll] returns with first component [True],
    its second component is the empty formula, not an assignment; the
    verdict is nevertheless sound: some truth assignment makes at least
    one literal true in every clause of the input formula. *)
Theorem dpll_sat_is_sound formula (second : option (list (list Z))) :
  result (Dpll.dpll formula) = Return (true, second) →
  second = Some [] ∧
  ∃ v : Z → bool, ∀ clause, clause ∈ formula →
    ∃ literal, literal ∈ clause ∧ literal_true v literal = true.
Proof.
  intros Hres. split.
  - by eapply DpllFacts.dpll_run_sat.
  - by eapply DpllFacts.dpll_run_sound.
Qed.

(** C9. On a formula whose literals are nonzero, [dpll] returns without
    raising, and every formula on which it calls [choose_literal] has
    clauses of at least two literals only, so that every denominator
    [4 ** k - 2 ** (k + 1)] is at least 8. *)
Theorem choose_literal_never_divides_by_zero formula :
  0 ∉ mjoin formula →
  (∃ r, result (Dpll.dpll formula) = Return r) ∧
  Forall (λ called : list (list Z),
            Forall (λ clause, (2 ≤ length clause)%nat ∧
                              8 ≤ Dpll.denominator (Z.of_nat (length clause)))
                   called)
         (calls (Dpll.dpll formula)).
Proof.
  intros Hnz.
  destruct (DpllFacts.dpll_run_safe (S (length (mjoin formula))) formula)
    as [Hret Hcalls]; [unfold formula_size; lia|done|].
  split; [done|].
  eapply Forall_impl; [exact Hcalls|]. intros called Hready.
  eapply Forall_impl; [exact Hready|]. intros clause Hlen. simpl in Hlen.
  split; [done|]. apply DpllFacts.denominator_ge. lia.
Qed.

End dpll_claims.

(** C1, as stated, fails. On [[1, 2, 3]] the first literal is pure, the
    formula empties and [dpll] returns [(True, [])]: read as an
    assignment, the second component mentions no literal at all. *)
Lemma dpll_returns_no_assignment :
  ∃ second, result (Dpll.dpll (H := fixed_point_scores) [[1; 2; 3]]) = Return (true, second) ∧
    ¬ (∀ clause, clause ∈ [[1; 2; 3]] →
         ∃ literal, literal ∈ clause ∧
           ∃ held, second = Some held ∧ literal ∈ mjoin held).
Proof.
  exists (Some []). split; [by vm_compute|].
  intros Hall. destruct (Hall [1; 2; 3]) as (l & _ & held & Hheld & Hin).
  { by left. }
  inversion Hheld; subst held. by apply elem_of_nil in Hin.
Qed.

Lemma dpll_sat_is_sound_witness :
  let formula := [[1; -2]; [2; -3]; [3; -1]; [1; 2; 3]] in
  result (Dpll.dpll (H := fixed_point_scores) formula) = Return (true, Some []) ∧
  ((Some [] : option (list (list Z))) = Some [] ∧
   ∃ v : Z → bool, ∀ clause, clause ∈ formula →
     ∃ literal, literal ∈ clause ∧ literal_true v literal = true).
Proof.
  split; [by vm_compute|].
  apply (dpll_sat_is_sound (H := fixed_point_scores)). by vm_compute.
Defined.

Lemma dpll_sat_returns_empty_formula_witness :
  result (Dpll.dpll (H := fixed_point_scores) [[1; 2; 3]]) = Return (true, Some []) ∧
  (Some [] : option (list (list Z))) = Some [].
Proof.
  split; [by vm_compute|].
  apply (dpll_sat_returns_empty_formula (H := fixed_point_scores) [[1; 2; 3]]).
  by vm_compute.
Defined.

Lemma choose_literal_never_divides_by_zero_witness :
  let formula := [[1; -2]; [2; -3]; [3; -1]; [1; 2; 3]] in
  (0 ∉ mjoin formula) ∧
  ((∃ r, result (Dpll.dpll (H := fixed_point_scores) formula) = Return r) ∧
   Forall (λ called : list (list Z),
             Forall (λ clause, (2 ≤ length clause)%nat ∧
                               8 ≤ Dpll.denominator (Z.of_nat (length clause)))
                    called)
          (calls (Dpll.dpll (H := fixed_point_scores) formula))).
Proof.
  assert (0 ∉ mjoin [[1; -2]; [2; -3]; [3; -1]; [1; 2; 3]]) as Hnz.
  { compute_done. }
  split; [exact Hnz|].
  apply (choose_literal_never_divides_by_zero (H := fixed_point_scores)). exact Hnz.
Defined.

(** ** resolution.py and dp.py: the claims *)

Section resolution_claims.
Context `{SetOrder}.

(** C2, at the failing input. [resolution] has no test for an empty
    clause in its input: the empty clause has no literal to resolve on,
    so on [[[]]] the first round produces nothing new and the engine
    answers 1 (SAT), where [dpll] answers UNSAT at once
    ([dpll_rejects_empty_clause]). *)
Theorem resolution_accepts_the_empty_clause (fuel : nat) :
  Resolution.resolution (S fuel) [[]] = Return SAT.
Proof. by vm_compute. Qed.

(** C3, at the failing input. On two complementary unit clauses the
    generator of resolution.py produces the empty resolvent, the one of
    dp.py drops it, so that the test for an empty resolvent in
    [davis_putnam] never succeeds. *)
Theorem dp_find_resolvents_drops_the_empty_resolvent (literal : Z) :
  Resolution.find_resolvents [literal] [- literal] = [[]] ∧
  Dp.find_resolvents [literal] [- literal] = [] ∧
  (∀ c1 c2, [] ∉ Dp.find_resolvents c1 c2).
Proof.
  split; [apply ResolutionFacts.find_resolvents_units|].
  split; [apply DavisPutnamFacts.dp_find_resolvents_units|].
  apply DavisPutnamFacts.dp_find_resolvents_not_empty.
Qed.

(** C6, as amended. The generator of resolution.py returns exactly the
    candidates [(c1 ∪ c2) - {l, -l}], for [l] in [c1] with [-l] in [c2],
    that are not tautologous, each one once; the generator of dp.py
    returns the same clauses as far as they are not empty. A pair never
    yields more than one resolvent. *)
Theorem find_resolvents_characterisation (c1 c2 r : list Z) :
  (∀ literal x, x ∈ resolve c1 c2 literal ↔
                (x ∈ c1 ∨ x ∈ c2) ∧ x ≠ literal ∧ x ≠ - literal) ∧
  (r ∈ Resolution.find_resolvents c1 c2 ↔
   ∃ literal, literal ∈ c1 ∧ - literal ∈ c2 ∧
              r = resolve c1 c2 literal ∧ is_redundant_clause r = false) ∧
  NoDup (Resolution.find_resolvents c1 c2) ∧
  (length (Resolution.find_resolvents c1 c2) ≤ 1)%nat ∧
  (r ≠ [] →
   r ∈ Dp.find_resolvents c1 c2 ↔
   ∃ literal, literal ∈ c1 ∧ - literal ∈ c2 ∧
              r = resolve c1 c2 literal ∧ is_redundant_clause r = false) ∧
  NoDup (Dp.find_resolvents c1 c2) ∧
  (length (Dp.find_resolvents c1 c2) ≤ 1)%nat.
Proof.
  split; [intros literal x; apply ResolventFacts.elem_of_resolve|].
  split; [apply ResolutionFacts.elem_of_find_resolvents|].
  split; [apply ResolutionFacts.NoDup_find_resolvents|].
  split; [apply ResolutionFacts.find_resolvents_length|].
  split; [|split].
  - intros Hr. rewrite DavisPutnamFacts.dp_elem_of_find_resolvents. split.
    + intros (l & ? & ? & ? & _ & ?). by exists l.
    + intros (l & ? & ? & ? & ?). by exists l.
  - apply DavisPutnamFacts.dp_NoDup_find_resolvents.
  - apply DavisPutnamFacts.dp_find_resolvents_length.
Qed.

End resolution_claims.

(** C6, as stated, fails: no pair of clauses yields several resolvents.
    The pair [[1, 2]], [[-1, -2]] shares two complementary pairs and
    yields none, both candidates being tautologous. *)
Lemma no_pair_yields_several_resolvents :
  Resolution.find_resolvents (H := elements_order) [1; 2] [-1; -2] = [] ∧
  ¬ ∃ (order : SetOrder) (c1 c2 : list Z),
      (1 < length (Resolution.find_resolvents c1 c2))%nat ∨
      (1 < length (Dp.find_resolvents c1 c2))%nat.
Proof.
  split; [by vm_compute|].
  intros (order & c1 & c2 & [Hlen|Hlen]).
  - pose proof (ResolutionFacts.find_resolvents_length c1 c2). lia.
  - pose proof (DavisPutnamFacts.dp_find_resolvents_length c1 c2). lia.
Qed.

(** C4, as stated, fails for dp.py. On [[1], [-1], [2]] the propagation
    of 1 empties the clause [[-1]], and [unit_propagation] goes on: it
    propagates -1 and 2 as well. *)
Lemma dp_unit_propagation_goes_on :
  let after_first := Dp.propagate ([[1]; [-1]; [2]], ∅) [1] in
  after_first.1 = [[]; [2]] ∧
  after_first.2 !! 2 = None ∧
  ∃ clauses assignment,
    Dp.unit_propagation [[1]; [-1]; [2]] = Return (clauses, assignment) ∧
    clauses = [[]] ∧
    assignment !! (-1) = Some true ∧ assignment !! 2 = Some true.
Proof.
  split; [by vm_compute|]. split; [by vm_compute|].
  eexists _, _. split; [by vm_compute|]. by vm_compute.
Qed.

(** C4, as amended. In dpll.py, when the removal of the negated literal
    empties a clause, [apply_literal] returns [None] and
    [unit_propagation] returns at once with the contradiction; in dp.py
    unit propagation does not stop, and the emptied clause stays in the
    clause list through the later steps, up to the result. *)
Theorem unit_propagation_on_an_emptied_clause (formula : list (list Z))
    (clause : list Z) (literal : Z) (assignment : gmap Z bool) (fuel : nat) :
  clause ∈ formula → literal ∉ clause → - literal ∈ clause →
  filter (λ l, l ≠ - literal) clause = [] →
  Dpll.apply_literal formula literal = None ∧
  (Dpll.find_unit_clause formula = Some literal → literal ≠ 0 →
   Dpll.unit_propagation_loop (S fuel) formula assignment =
     Return (None, <[literal := true]> assignment)) ∧
  (Dp.remove_first (- literal) clause = [] →
   [] ∈ (Dp.propagate (formula, assignment) [literal]).1) ∧
  (∀ (state : list (list Z) * gmap Z bool) (units : list (list Z)) fuel' clauses' assignment',
     [] ∈ state.1 →
     [] ∈ (foldl Dp.propagate state units).1 ∧
     (Dp.unit_propagation_loop fuel' state.1 state.2 = Return (clauses', assignment') →
      [] ∈ clauses')).
Proof.
  intros Hin Hlit Hneg Hempty.
  assert (Dpll.apply_literal formula literal = None) as Hnone.
  { apply DpllFacts.apply_literal_None. by exists clause. }
  split; [done|]. split; [|split].
  - intros Hfind Hnz. simpl. rewrite Hfind, bool_decide_false by done.
    by rewrite Hnone.
  - intros Hrm. unfold Dp.propagate. simpl.
    apply list_elem_of_fmap. exists clause. split; [done|].
    by apply list_elem_of_filter.
  - intros state units fuel' clauses' assignment' Hstate. split.
    + by apply DpFacts.foldl_propagate_keeps_empty.
    + by apply DpFacts.unit_propagation_loop_keeps_empty.
Qed.

Lemma unit_propagation_on_an_emptied_clause_witness :
  let formula := [[1]; [-1]; [2]] in
  [-1] ∈ formula ∧ (1 ∉ [-1]) ∧ - 1 ∈ [-1] ∧ filter (λ l, l ≠ - 1) [-1] = [] ∧
  (Dpll.apply_literal formula 1 = None ∧
   (Dpll.find_unit_clause formula = Some 1 → 1 ≠ 0 →
    Dpll.unit_propagation_loop 3 formula ∅ = Return (None, <[1 := true]> ∅)) ∧
   (Dp.remove_first (- 1) [-1] = [] →
    [] ∈ (Dp.propagate (formula, ∅) [1]).1) ∧
   (∀ (state : list (list Z) * gmap Z bool) (units : list (list Z)) fuel' clauses' assignment',
      [] ∈ state.1 →
      [] ∈ (foldl Dp.propagate state units).1 ∧
      (Dp.unit_propagation_loop fuel' state.1 state.2 = Return (clauses', assignment') →
       [] ∈ clauses'))).
Proof.
  assert ([-1] ∈ [[1]; [-1]; [2]]) as H1 by compute_done.
  assert (1 ∉ [-1]) as H2 by compute_done.
  assert (- 1 ∈ [-1]) as H3 by compute_done.
  assert (filter (λ l, l ≠ - 1) [-1] = []) as H4 by reflexivity.
  split; [exact H1|]. split; [exact H2|]. split; [exact H3|]. split; [exact H4|].
  exact (unit_propagation_on_an_emptied_clause [[1]; [-1]; [2]] [-1] 1 ∅ 2 H1 H2 H3 H4).
Defined.

(** ** The formula [[1, 2], [-1, 2], [1, -2], [-1, -2]] *)

Section xor.
Context `{SetOrder} `{FloatOps}.

Lemma resolve_singleton (c1 c2 : list Z) (literal x : Z) :
  list_to_set (c1 ++ c2) ∖ {[literal; - literal]} = ({[x]} : gset Z) →
  resolve c1 c2 literal = [x].
Proof. intros Heq. unfold resolve. rewrite Heq. apply ResolventFacts.set_list_Z_singleton. Qed.

(** The first round of resolution on the formula derives the unit
    clauses [[1]] and [[-1]], among others. *)
Lemma xor_resolvent_pos : [1] ∈ Resolution.find_resolvents [1; 2] [1; -2].
Proof.
  apply ResolutionFacts.elem_of_find_resolvents. exists 2.
  rewrite (resolve_singleton _ _ _ 1) by compute_done.
  split; [compute_done|]. split; [compute_done|]. done.
Qed.

Lemma xor_resolvent_neg : [-1] ∈ Resolution.find_resolvents [-1; 2] [-1; -2].
Proof.
  apply ResolutionFacts.elem_of_find_resolvents. exists 2.
  rewrite (resolve_singleton _ _ _ (-1)) by compute_done.
  split; [compute_done|]. split; [compute_done|]. done.
Qed.

Lemma xor_resolution (fuel : nat) :
  Resolution.resolution (2 + fuel) xor_formula = Return UNSAT.
Proof.
  unfold Resolution.resolution. change (2 + fuel)%nat with (S (S fuel)).
  remember (S fuel) as fuel1 eqn:Hfuel. cbn [Resolution.resolution_loop].
  destruct (Resolution.resolve_pairs _ (combinations xor_formula) ∅)
    as [new|] eqn:Hround; [|done].
  assert ([1] ∈ new ∧ [-1] ∈ new) as [Hpos Hneg].
  { split; apply (ResolutionFacts.resolve_pairs_Some _ _ _ _ _ Hround); right.
    - exists [1; 2], [1; -2], [1].
      split; [compute_done|]. split; [apply xor_resolvent_pos|].
      split; [done|compute_done].
    - exists [-1; 2], [-1; -2], [-1].
      split; [compute_done|]. split; [apply xor_resolvent_neg|].
      split; [done|compute_done]. }
  rewrite bool_decide_false by (intros ->; by apply elem_of_empty in Hpos).
  subst fuel1.
  apply (ResolutionFacts.resolution_loop_complementary_units _ _ _ 1); [done| |].
  - apply elem_of_app. right. by apply ResolventFacts.elem_of_set_list_clause.
  - apply elem_of_app. right. by apply ResolventFacts.elem_of_set_list_clause.
Qed.

Lemma xor_dp_resolvent_pos : [1] ∈ Dp.find_resolvents [1; 2] [1; -2].
Proof.
  apply DavisPutnamFacts.dp_elem_of_find_resolvents. exists 2.
  rewrite (resolve_singleton _ _ _ 1) by compute_done.
  split; [compute_done|]. split; [compute_done|]. done.
Qed.

Lemma xor_dp_resolvent_neg : [-1] ∈ Dp.find_resolvents [-1; 2] [-1; -2].
Proof.
  apply DavisPutnamFacts.dp_elem_of_find_resolvents. exists 2.
  rewrite (resolve_singleton _ _ _ (-1)) by compute_done.
  split; [compute_done|]. split; [compute_done|]. done.
Qed.

Lemma xor_davis_putnam (fuel : nat) :
  Dp.davis_putnam (2 + fuel) xor_formula = Return (UNSAT, ∅).
Proof.
  unfold Dp.davis_putnam, xor_formula. change (2 + fuel)%nat with (S (S fuel)).
  remember (S fuel) as fuel1 eqn:Hfuel. cbn [Dp.davis_putnam_loop].
  change (Dp.unit_propagation [[1; 2]; [-1; 2]; [1; -2]; [-1; -2]])
    with (Return ([[1; 2]; [-1; 2]; [1; -2]; [-1; -2]], (∅ : gmap Z bool))).
  cbn [mbind outcome_bind].
  change (Dp.monotone_literal_fixing [[1; 2]; [-1; 2]; [1; -2]; [-1; -2]])
    with ([[1; 2]; [-1; 2]; [1; -2]; [-1; -2]], (∅ : gmap Z bool)).
  cbv iota beta.
  rewrite bool_decide_false by compute_done.
  destruct (Dp.resolve_pairs (combinations _) ∅) as [new|] eqn:Hround; [|done].
  assert ([1] ∈ new ∧ [-1] ∈ new) as [Hpos Hneg].
  { split; apply (DavisPutnamFacts.dp_resolve_pairs_Some _ _ _ _ Hround); right.
    - exists [1; 2], [1; -2], [1].
      split; [compute_done|]. split; [apply xor_dp_resolvent_pos|done].
    - exists [-1; 2], [-1; -2], [-1].
      split; [compute_done|]. split; [apply xor_dp_resolvent_neg|done]. }
  rewrite bool_decide_false by (intros ->; by apply elem_of_empty in Hpos).
  set (clauses := filter _ _).
  assert ([1] ∈ clauses ∧ [-1] ∈ clauses) as [Hc1 Hc2].
  { split; apply list_elem_of_filter; (split; [done|]);
      apply ResolventFacts.elem_of_set_list_clause, elem_of_list_to_set, elem_of_app;
      right; by apply ResolventFacts.elem_of_set_list_clause. }
  destruct (DpFacts.dp_unit_propagation_returns clauses) as [[clauses1 ua] Hup].
  rewrite Hup. cbn [mbind outcome_bind].
  apply (DpFacts.unit_propagation_conflict _ 1) in Hup; [|done..].
  apply DpFacts.monotone_literal_fixing_keeps_empty in Hup.
  destruct (Dp.monotone_literal_fixing clauses1) as [clauses2 ma]. simpl in Hup.
  destruct clauses2 as [|c clauses2]; [by apply elem_of_nil in Hup|].
  subst fuel1. by apply DavisPutnamFacts.davis_putnam_loop_empty_clause.
Qed.

(** Whichever literal the heuristic picks, the branch on it reaches two
    complementary unit clauses. *)
Lemma xor_choose_literal :
  Dpll.choose_literal xor_formula = Return (Some 1) ∨
  Dpll.choose_literal xor_formula = Return (Some (-2)).
Proof.
  vm_compute.
  repeat match goal with
         | |- context [match ?b with true => _ | false => _ end] => destruct b
         end; auto.
Qed.

Lemma xor_try_literal (rec : list (list Z) → run (bool * option (list (list Z))))
    (unit_assignments : gmap Z bool) (literal : Z) :
  literal = 1 ∨ literal = -2 →
  Dpll.try_literal rec xor_formula unit_assignments literal
  = Run [] (Return (Some (false, None))).
Proof. intros [-> | ->]; reflexivity. Qed.

Lemma xor_dpll : result (Dpll.dpll xor_formula) = Return (false, None).
Proof.
  unfold Dpll.dpll. cbn [Dpll.dpll_run].
  change (Dpll.unit_propagation xor_formula)
    with (Return (Some xor_formula, (∅ : gmap Z bool))).
  rewrite lift_bind. cbv beta iota.
  rewrite bool_decide_false by compute_done.
  change (Dpll.unit_subsumption (Some xor_formula) ∅) with (Some xor_formula).
  cbv beta iota. rewrite bool_decide_false by compute_done.
  change (Dpll.monotone_literal_fixing xor_formula)
    with (xor_formula, (∅ : gmap Z bool)).
  unfold xor_formula at 1. cbv beta iota. fold xor_formula.
  rewrite bool_decide_false by compute_done.
  rewrite run_bind_result. unfold Dpll.call_choose_literal. cbn [result].
  destruct xor_choose_literal as [-> | ->].
  - rewrite bool_decide_false by done.
    rewrite run_bind_result, xor_try_literal by auto. done.
  - rewrite bool_decide_false by done.
    rewrite run_bind_result, xor_try_literal by auto. done.
Qed.

(** C5. On [[1, 2], [-1, 2], [1, -2], [-1, -2]] the resolution engine,
    the Davis-Putnam variant and the DPLL engine all answer UNSAT,
    whatever the iteration order of sets and the float arithmetic. *)
Theorem xor_formula_is_unsat (fuel : nat) :
  Resolution.resolution (2 + fuel) [[1; 2]; [-1; 2]; [1; -2]; [-1; -2]] = Return UNSAT ∧
  Dp.davis_putnam (2 + fuel) [[1; 2]; [-1; 2]; [1; -2]; [-1; -2]] = Return (UNSAT, ∅) ∧
  result (Dpll.dpll [[1; 2]; [-1; 2]; [1; -2]; [-1; -2]]) = Return (false, None).
Proof.
  split; [apply xor_resolution|]. split; [apply xor_davis_putnam|apply xor_dpll].
Qed.

End xor.

(** ** dpll.py: the branching heuristic *)

Module HeuristicFacts.
Import Dpll.

Section scores.
Context `{FloatOps}.
Implicit Types (formula : list (list Z)) (clause : list Z) (literal : Z).
Implicit Types (scores : list (Z * float)).









Context `{!FloatOrder}.





End scores.

End HeuristicFacts.

(** Fixed-point scores are compared by a strict order. *)
#[global] Instance fixed_point_scores_order : FloatOrder (H := fixed_point_scores).
Proof.
  split.
  - intros x. simpl. rewrite Z.gtb_ltb. apply Z.ltb_irrefl.
  - intros x y z. simpl. rewrite !Z.gtb_ltb, !Z.ltb_lt. lia.
Qed.



(** The Davis-Putnam variant misses the contradiction of
    [[1, 1], [-1, -1]]: the only candidate resolvent is empty, the
    generator drops it, nothing new is produced and the answer is SAT. *)
Lemma davis_putnam_misses_the_empty_resolvent `{SetOrder} (fuel : nat) :
  Dp.davis_putnam (S fuel) [[1; 1]; [-1; -1]] = Return (SAT, ∅) ∧
  Resolution.resolution (S fuel) [[1; 1]; [-1; -1]] = Return UNSAT.
Proof.
  assert (resolve [1; 1] [-1; -1] 1 = []) as Hnil.
  { apply ResolventFacts.resolve_eq_nil. intros x [Hx|Hx].
    - left. apply elem_of_cons in Hx as [->|Hx]; [done|].
      by apply list_elem_of_singleton in Hx.
    - right. apply elem_of_cons in Hx as [->|Hx]; [done|].
      by apply list_elem_of_singleton in Hx. }
  split.
  - assert (Dp.find_resolvents [1; 1] [-1; -1] = []) as Hfind.
    { rewrite DavisPutnamFacts.dp_find_resolvents_foldl. cbn [foldl].
      unfold Dp.find_resolvents_step.
      rewrite !(bool_decide_true (- 1 ∈ [-1; -1])) by (by left).
      cbv zeta. rewrite Hnil.
      by rewrite !(bool_decide_false ([] ≠ [])) by (by intros ?). }
    unfold Dp.davis_putnam. cbn [Dp.davis_putnam_loop].
    change (Dp.unit_propagation [[1; 1]; [-1; -1]])
      with (Return ([[1; 1]; [-1; -1]], (∅ : gmap Z bool))).
    cbn [mbind outcome_bind].
    change (Dp.monotone_literal_fixing [[1; 1]; [-1; -1]])
      with ([[1; 1]; [-1; -1]], (∅ : gmap Z bool)).
    cbv iota beta. rewrite bool_decide_false by compute_done.
    cbn [combinations fmap list_fmap app Dp.resolve_pairs].
    rewrite Hfind. cbn [Dp.add_resolvents].
    rewrite bool_decide_true by done. done.
  - unfold Resolution.resolution. cbn [Resolution.resolution_loop].
    assert (Resolution.resolve_pairs (list_to_set [[1; 1]; [-1; -1]])
              (combinations [[1; 1]; [-1; -1]]) ∅ = None) as ->; [|done].
    apply (ResolutionFacts.resolve_pairs_None _ _ _ [1; 1] [-1; -1]); [by left|].
    apply ResolutionFacts.elem_of_find_resolvents. exists 1.
    split; [by left|]. split; [by left|]. by rewrite Hnil.
Qed.

(** [dpll] never runs out of the fuel it starts with. *)
Lemma dpll_has_enough_fuel `{FloatOps} (formula : list (list Z)) :
  result (Dpll.dpll formula) ≠ OutOfFuel.
Proof. apply DpllFacts.dpll_run_fuel. unfold formula_size. lia. Qed.

(** The literal 0, which the data model excludes, is the one case in
    which a unit clause survives unit propagation: [if unit_clause:] takes
    it for the absence of a unit clause, and [choose_literal] then divides
    by [4 ** 1 - 2 ** 2]. *)
Lemma zero_literal_divides_by_zero :
  Dpll.dpll (H := fixed_point_scores) [[0]] = Run [[[0]]] (Raise ZeroDivisionError).
Proof. by vm_compute. Qed.

(** * Further properties of the engines *)

(** ** dpll.py: what the simplifications mean *)

Module DpllSemantics.
Import Dpll DpllFacts.

Implicit Types (formula : list (list Z)) (clause : list Z) (literal : Z).
Implicit Types (assignment : gmap Z bool) (v : Z → bool).

Lemma literal_true_opp v literal :
  literal ≠ 0 → literal_true v (- literal) = negb (literal_true v literal).
Proof.
  intros Hnz. unfold literal_true. rewrite Z.abs_opp.
  destruct (decide (0 < literal)).
  - rewrite (bool_decide_true (0 < literal)) by done.
    by rewrite bool_decide_false by lia.
  - rewrite (bool_decide_false (0 < literal)) by done.
    rewrite bool_decide_true by lia. by rewrite negb_involutive.
Qed.

Lemma elem_of_reduct formula literal clause' :
  clause' ∈ reduct formula literal ↔
  ∃ clause, clause ∈ formula ∧ (literal ∉ clause) ∧
            clause' = filter (λ l, l ≠ negate literal) clause.
Proof.
  unfold reduct. rewrite list_elem_of_fmap. split.
  - intros (c & -> & [? ?]%list_elem_of_filter). by exists c.
  - intros (c & ? & ? & ->). exists c. split; [done|].
    by apply list_elem_of_filter.
Qed.

(** A truth assignment that makes the literal true satisfies the formula
    exactly when it satisfies what [apply_literal] leaves of it. *)
Lemma satisfies_reduct v formula literal :
  literal ≠ 0 → literal_true v literal = true →
  satisfies v formula ↔ satisfies v (reduct formula literal).
Proof.
  intros Hnz Htrue. split.
  - intros Hsat c' (c & Hc & Hnin & ->)%elem_of_reduct.
    destruct (Hsat c Hc) as (m & Hm & Hmtrue). exists m. split; [|done].
    apply list_elem_of_filter. split; [|done]. intros ->.
    unfold negate in Hmtrue. rewrite literal_true_opp, Htrue in Hmtrue by done.
    done.
  - intros Hsat c Hc. destruct (decide (literal ∈ c)) as [Hin|Hnin].
    { by exists literal. }
    destruct (Hsat (filter (λ l, l ≠ negate literal) c)) as (m & Hm & Hmtrue).
    { apply elem_of_reduct. by exists c. }
    apply list_elem_of_filter in Hm as [_ Hm]. by exists m.
Qed.

Lemma apply_literal_is_Some v formula literal :
  literal ≠ 0 → literal_true v literal = true → satisfies v formula →
  apply_literal formula literal = Some (reduct formula literal).
Proof.
  intros Hnz Htrue Hsat.
  destruct (apply_literal formula literal) as [formula'|] eqn:Hap.
  { by rewrite (apply_literal_Some _ _ _ Hap). }
  exfalso. apply apply_literal_None in Hap as (c & Hc & Hnin & Hneg & Hempty).
  destruct (Hsat c Hc) as (m & Hm & Hmtrue).
  assert (m = negate literal) as ->.
  { destruct (decide (m = negate literal)) as [|Hne]; [done|].
    assert (m ∈ filter (λ l, l ≠ negate literal) c) as Hin
      by (by apply list_elem_of_filter).
    rewrite Hempty in Hin. by apply elem_of_nil in Hin. }
  unfold negate in Hmtrue. rewrite literal_true_opp, Htrue in Hmtrue by done. done.
Qed.

Lemma unit_clause_true v formula literal :
  satisfies v formula → find_unit_clause formula = Some literal →
  literal_true v literal = true.
Proof.
  intros Hsat Hfind%find_unit_clause_Some.
  destruct (Hsat _ Hfind) as (m & Hm & Htrue).
  by apply list_elem_of_singleton in Hm as ->.
Qed.

(** A truth assignment that satisfies the formula makes every literal
    true that unit propagation assigns, and satisfies the formula that
    unit propagation returns: unit propagation cannot fail on it. *)
Lemma unit_propagation_loop_forward v fuel formula assignment result assignment' :
  satisfies v formula →
  (∀ k, is_Some (assignment !! k) → literal_true v k = true) →
  unit_propagation_loop fuel formula assignment = Return (result, assignment') →
  (∃ formula', result = Some formula' ∧ satisfies v formula') ∧
  (∀ k, is_Some (assignment' !! k) → literal_true v k = true).
Proof.
  revert formula assignment.
  induction fuel as [|fuel IH]; intros formula assignment Hsat Hass; simpl.
  - destruct (find_unit_clause formula) as [u|].
    + case_bool_decide; [|done]. intros [= <- <-]. by eauto.
    + intros [= <- <-]. by eauto.
  - destruct (find_unit_clause formula) as [u|] eqn:Hfind.
    + case_bool_decide as Hu; [intros [= <- <-]; by eauto|].
      pose proof (unit_clause_true v formula u Hsat Hfind) as Htrue.
      rewrite (apply_literal_is_Some v) by done.
      apply IH.
      * by apply satisfies_reduct.
      * intros k [x Hx]. destruct (decide (u = k)) as [<-|Hne]; [done|].
        rewrite lookup_insert_ne in Hx by done. apply Hass. by eauto.
    + intros [= <- <-]. by eauto.
Qed.

(** The keys of the assignment of unit propagation: nonzero literals that
    have left the formula in both polarities. *)
Lemma unit_propagation_loop_keys fuel formula assignment formula' assignment' :
  unit_propagation_loop fuel formula assignment = Return (Some formula', assignment') →
  (∀ k, is_Some (assignment !! k) →
        k ≠ 0 ∧ (k ∉ mjoin formula) ∧ (- k ∉ mjoin formula)) →
  ∀ k, is_Some (assignment' !! k) →
       k ≠ 0 ∧ (k ∉ mjoin formula') ∧ (- k ∉ mjoin formula').
Proof.
  revert formula assignment.
  induction fuel as [|fuel IH]; intros formula assignment; simpl.
  - destruct (find_unit_clause formula) as [u|].
    + case_bool_decide; [|done]. by intros [= <- <-].
    + by intros [= <- <-].
  - destruct (find_unit_clause formula) as [u|].
    + case_bool_decide as Hu; [by intros [= <- <-]|].
      destruct (apply_literal formula u) as [next|] eqn:Hap; [|done].
      apply apply_literal_Some in Hap. subst next.
      intros Hloop Hinit. apply (IH _ _ Hloop). intros k [x Hx].
      destruct (decide (u = k)) as [<-|Hne].
      { split; [done|]. split; [apply reduct_not_elem_of|].
        apply reduct_negate_not_elem_of. }
      rewrite lookup_insert_ne in Hx by done.
      destruct (Hinit k) as (? & Hk & Hnk); [by eauto|].
      split; [done|]. split.
      * intros Hin. by apply join_reduct_subseteq in Hin.
      * intros Hin. by apply join_reduct_subseteq in Hin.
    + by intros [= <- <-].
Qed.

Lemma fixes_forward v state state' :
  fixes state state' → satisfies v state.1 → satisfies v state'.1.
Proof.
  intros Hfix%fixes_inv Hsat c Hc. apply Hsat. by apply Hfix.
Qed.

Lemma fixes_sublist state state' : fixes state state' → state'.1 `sublist_of` state.1.
Proof.
  induction 1 as [state|state l state' Hpure Hfix IH]; [done|].
  etrans; [exact IH|]. simpl. apply sublist_filter.
Qed.

End DpllSemantics.

(** X1. [apply_literal] returns [None] exactly when some clause that does
    not hold the literal consists of its negation only; otherwise its
    result is made of the clauses that do not hold the literal, with the
    negation filtered out: neither the literal nor its negation occurs in
    it, and it has no more clauses than the formula. *)
Theorem apply_literal_result (formula : list (list Z)) (literal : Z) :
  (Dpll.apply_literal formula literal = None ↔
   ∃ clause, clause ∈ formula ∧ (literal ∉ clause) ∧ - literal ∈ clause ∧
             ∀ l, l ∈ clause → l = - literal) ∧
  (∀ formula', Dpll.apply_literal formula literal = Some formula' →
     (∀ clause', clause' ∈ formula' ↔
        ∃ clause, clause ∈ formula ∧ (literal ∉ clause) ∧
                  clause' = filter (λ l, l ≠ - literal) clause) ∧
     (literal ∉ mjoin formula') ∧ (- literal ∉ mjoin formula') ∧
     mjoin formula' ⊆ mjoin formula ∧
     (length formula' ≤ length formula)%nat).
Proof.
  split.
  - rewrite DpllFacts.apply_literal_None. unfold Dpll.negate. split.
    + intros (c & Hc & Hnin & Hneg & Hempty). exists c.
      split; [done|]. split; [done|]. split; [done|]. intros l Hl.
      destruct (decide (l = - literal)) as [|Hne]; [done|].
      assert (l ∈ filter (λ l, l ≠ - literal) c) as Hin
        by (by apply list_elem_of_filter).
      rewrite Hempty in Hin. by apply elem_of_nil in Hin.
    + intros (c & Hc & Hnin & Hneg & Hall). exists c.
      split; [done|]. split; [done|]. split; [done|].
      destruct (filter (λ l, l ≠ - literal) c) as [|l rest] eqn:Hf; [done|].
      assert (l ∈ filter (λ l, l ≠ - literal) c) as Hin by (rewrite Hf; by left).
      apply list_elem_of_filter in Hin as [Hne Hin]. by apply Hall in Hin.
  - intros formula' Hap. apply DpllFacts.apply_literal_Some in Hap. subst formula'.
    split; [intros c'; apply DpllSemantics.elem_of_reduct|].
    split; [apply DpllFacts.reduct_not_elem_of|].
    split; [apply DpllFacts.reduct_negate_not_elem_of|].
    split; [apply DpllFacts.join_reduct_subseteq|apply DpllFacts.reduct_length].
Qed.

(** X2. Under a truth assignment that makes a nonzero literal true, the
    formula is satisfied exactly when [apply_literal] succeeds and its
    result is satisfied. *)
Theorem apply_literal_conditions (v : Z → bool) (formula : list (list Z)) (literal : Z) :
  literal ≠ 0 → literal_true v literal = true →
  satisfies v formula ↔
  ∃ formula', Dpll.apply_literal formula literal = Some formula' ∧ satisfies v formula'.
Proof.
  intros Hnz Htrue. split.
  - intros Hsat. exists (reduct formula literal).
    split; [by apply (DpllSemantics.apply_literal_is_Some v)|].
    by apply DpllSemantics.satisfies_reduct.
  - intros (formula' & Hap & Hsat). apply DpllFacts.apply_literal_Some in Hap.
    subst formula'. by apply (DpllSemantics.satisfies_reduct v formula literal).
Qed.

Lemma apply_literal_conditions_witness :
  let v := λ x : Z, bool_decide (x = 1) in
  let formula := [[1; 2]; [-1; 3]; [-3; -2]] in
  1 ≠ 0 ∧ literal_true v 1 = true ∧
  (satisfies v formula ↔
   ∃ formula', Dpll.apply_literal formula 1 = Some formula' ∧ satisfies v formula').
Proof.
  assert (1 ≠ 0) as H1 by lia.
  assert (literal_true (λ x : Z, bool_decide (x = 1)) 1 = true) as H2 by reflexivity.
  split; [exact H1|]. split; [exact H2|].
  exact (apply_literal_conditions (λ x : Z, bool_decide (x = 1))
           [[1; 2]; [-1; 3]; [-3; -2]] 1 H1 H2).
Defined.

(** X3. Unit propagation keeps the satisfying truth assignments: when it
    returns a formula, every truth assignment that satisfies the input
    satisfies the result and makes the assigned literals true, and the
    input is satisfiable as soon as the result is; when it reports a
    contradiction, the input is unsatisfiable. *)
Theorem unit_propagation_is_sound (formula : list (list Z))
    (result : option (list (list Z))) (assignment : gmap Z bool) :
  Dpll.unit_propagation formula = Return (result, assignment) →
  match result with
  | Some formula' =>
      (∀ v, satisfies v formula →
            satisfies v formula' ∧
            ∀ k, is_Some (assignment !! k) → literal_true v k = true) ∧
      (satisfiable formula' → satisfiable formula)
  | None => ¬ satisfiable formula
  end.
Proof.
  intros Hup. destruct result as [formula'|].
  - split.
    + intros v Hsat.
      destruct (DpllSemantics.unit_propagation_loop_forward v _ _ _ _ _ Hsat
                  ltac:(intros k [x Hx]; by rewrite lookup_empty in Hx) Hup)
        as [(f & [= <-] & Hsat') Hass].
      done.
    + by eapply DpllFacts.unit_propagation_loop_satisfiable.
  - intros [v Hsat].
    destruct (DpllSemantics.unit_propagation_loop_forward v _ _ _ _ _ Hsat
                ltac:(intros k [x Hx]; by rewrite lookup_empty in Hx) Hup)
      as [(f & [=] & _) _].
Qed.

Lemma unit_propagation_is_sound_witness :
  Dpll.unit_propagation [[1]; [-1; 2]; [-2; 3; 4]]
  = Return (Some [[3; 4]], <[2 := true]> (<[1 := true]> ∅)) ∧
  ((∀ v, satisfies v [[1]; [-1; 2]; [-2; 3; 4]] →
         satisfies v [[3; 4]] ∧
         ∀ k, is_Some ((<[2 := true]> (<[1 := true]> ∅) : gmap Z bool) !! k) →
              literal_true v k = true) ∧
   (satisfiable [[3; 4]] → satisfiable [[1]; [-1; 2]; [-2; 3; 4]])).
Proof.
  assert (Dpll.unit_propagation [[1]; [-1; 2]; [-2; 3; 4]]
          = Return (Some [[3; 4]], <[2 := true]> (<[1 := true]> ∅))) as H1
    by (by vm_compute).
  split; [exact H1|].
  exact (unit_propagation_is_sound _ _ _ H1).
Defined.

(** X4. When unit propagation returns a formula, the literals it has
    assigned are nonzero and occur in the result in neither polarity, the
    result has no literal and no more literal occurrences than the input,
    and, the input being free of the literal 0, no unit clause is left. *)
Theorem unit_propagation_postcondition (formula formula' : list (list Z))
    (assignment : gmap Z bool) :
  Dpll.unit_propagation formula = Return (Some formula', assignment) →
  (∀ k, is_Some (assignment !! k) →
        k ≠ 0 ∧ (k ∉ mjoin formula') ∧ (- k ∉ mjoin formula')) ∧
  (0 ∉ mjoin formula → Forall (λ clause, length clause ≠ 1%nat) formula') ∧
  mjoin formula' ⊆ mjoin formula ∧
  (length (mjoin formula') ≤ length (mjoin formula))%nat.
Proof.
  intros Hup. split; [|split].
  - apply (DpllSemantics.unit_propagation_loop_keys _ _ _ _ _ Hup).
    intros k [x Hx]. by rewrite lookup_empty in Hx.
  - apply DpllFacts.unit_propagation_inv in Hup as (Hsub & _ & _ & Hunit & _).
    intros Hnz. apply DpllFacts.find_unit_clause_None.
    destruct Hunit as [Hnone|Hzero]; [done|].
    exfalso. apply DpllFacts.find_unit_clause_Some in Hzero.
    apply Hnz, Hsub. apply list_elem_of_join. exists [0]. split; [by left|done].
  - apply DpllFacts.unit_propagation_inv in Hup as (? & ? & _). done.
Qed.

Lemma unit_propagation_postcondition_witness :
  let formula := [[1]; [-1; 2]; [-2; 3; 4]] in
  let formula' := [[3; 4]] in
  let assignment : gmap Z bool := <[2 := true]> (<[1 := true]> ∅) in
  Dpll.unit_propagation formula = Return (Some formula', assignment) ∧
  ((∀ k, is_Some (assignment !! k) →
         k ≠ 0 ∧ (k ∉ mjoin formula') ∧ (- k ∉ mjoin formula')) ∧
   (0 ∉ mjoin formula → Forall (λ clause : list Z, length clause ≠ 1%nat) formula') ∧
   mjoin formula' ⊆ mjoin formula ∧
   (length (mjoin formula') ≤ length (mjoin formula))%nat).
Proof.
  assert (Dpll.unit_propagation [[1]; [-1; 2]; [-2; 3; 4]]
          = Return (Some [[3; 4]], <[2 := true]> (<[1 := true]> ∅))) as H1
    by (by vm_compute).
  split; [exact H1|].
  exact (unit_propagation_postcondition _ _ _ H1).
Defined.

(** ** dpll.py: pure literals and the errors of the heuristic *)

Module DpllOutcomes.
Import Dpll DpllFacts.

Implicit Types (formula : list (list Z)) (clause : list Z) (literal : Z).
Implicit Types (assignment : gmap Z bool) (v : Z → bool).

(** A pass of [monotone_literal_fixing] only adds keys to the assignment,
    and every clause it removes holds one of them. *)
Lemma fixes_keys state state' k :
  fixes state state' → is_Some (state.2 !! k) → is_Some (state'.2 !! k).
Proof.
  induction 1 as [state|state l state' Hpure Hfix IH]; [done|].
  intros Hk. apply IH. simpl. destruct (decide (l = k)) as [->|Hne].
  - rewrite lookup_insert_eq. eauto.
  - by rewrite lookup_insert_ne.
Qed.

Lemma fixes_removed state state' clause :
  fixes state state' → clause ∈ state.1 →
  clause ∈ state'.1 ∨ ∃ k, k ∈ clause ∧ is_Some (state'.2 !! k).
Proof.
  induction 1 as [state|state l state' Hpure Hfix IH]; [by left|].
  intros Hc. destruct (decide (l ∈ clause)) as [Hin|Hnin].
  - right. exists l. split; [done|]. apply (fixes_keys _ _ _ Hfix). simpl.
    rewrite lookup_insert_eq. eauto.
  - apply IH. simpl. by apply list_elem_of_filter.
Qed.

Lemma satisfies_Forall v formula :
  satisfies v formula ↔
  Forall (λ clause, Exists (λ l, literal_true v l = true) clause) formula.
Proof.
  unfold satisfies. rewrite Forall_forall. split.
  - intros Hsat c Hc. apply Exists_exists. by apply Hsat.
  - intros Hall c Hc. apply Exists_exists. by apply Hall.
Qed.

Section errors.
Context `{FloatOps}.

Lemma denominator_eq_0 (k : Z) : 1 ≤ k → denominator k = 0 ↔ k = 1.
Proof.
  intros Hk. split; [|by intros ->].
  intros Hd. destruct (decide (k = 1)) as [|Hne]; [done|].
  pose proof (denominator_ge k). lia.
Qed.

Lemma score_clauses_Raise formula (scores : list (Z * float)) e :
  score_clauses formula scores = Raise e →
  e = ZeroDivisionError ∧ ∃ clause, clause ∈ formula ∧ length clause = 1%nat.
Proof.
  revert scores. induction formula as [|clause formula IH]; intros scores; simpl.
  { done. }
  destruct clause as [|l clause].
  { intros (? & c & Hc & ?)%IH. split; [done|]. exists c. split; [by right|done]. }
  unfold weight. case_bool_decide as Hd; simpl.
  - intros [= <-]. split; [done|]. exists (l :: clause). split; [by left|].
    apply denominator_eq_0 in Hd; [|simpl; lia]. simpl in *. lia.
  - intros (? & c & Hc & ?)%IH. split; [done|]. exists c. split; [by right|done].
Qed.

Lemma score_clauses_unit formula (scores : list (Z * float)) clause :
  clause ∈ formula → length clause = 1%nat →
  score_clauses formula scores = Raise ZeroDivisionError.
Proof.
  revert scores. induction formula as [|c formula IH]; intros scores.
  { by intros ?%elem_of_nil. }
  intros Hin Hlen. simpl. destruct c as [|l c].
  { apply elem_of_cons in Hin as [->|Hin]; [done|]. by apply IH. }
  unfold weight. case_bool_decide as Hd; simpl; [done|].
  apply elem_of_cons in Hin as [->|Hin]; [|by apply IH].
  exfalso. apply Hd. rewrite Hlen. reflexivity.
Qed.

Lemma max_key_None (scores : list (Z * float)) : max_key scores = None ↔ scores = [].
Proof. by destruct scores as [|[k s] scores]. Qed.

End errors.

End DpllOutcomes.

(** X5. Right after unit propagation, subsumption against the assignment
    that unit propagation returns leaves the formula as it is: the
    assigned literals have left the formula. *)
Theorem unit_subsumption_after_unit_propagation (formula formula' : list (list Z))
    (assignment : gmap Z bool) :
  Dpll.unit_propagation formula = Return (Some formula', assignment) →
  [] ∉ formula' →
  Dpll.unit_subsumption (Some formula') assignment = Some formula'.
Proof.
  intros Hup Hempty. apply DpllFacts.unit_subsumption_untouched; [done|].
  by apply DpllFacts.unit_propagation_inv in Hup as (_ & _ & ? & _).
Qed.

Lemma unit_subsumption_after_unit_propagation_witness :
  let formula := [[1]; [-1; 2]; [-2; 3; 4]] in
  let formula' := [[3; 4]] in
  let assignment : gmap Z bool := <[2 := true]> (<[1 := true]> ∅) in
  Dpll.unit_propagation formula = Return (Some formula', assignment) ∧
  ([] ∉ formula') ∧
  Dpll.unit_subsumption (Some formula') assignment = Some formula'.
Proof.
  assert (Dpll.unit_propagation [[1]; [-1; 2]; [-2; 3; 4]]
          = Return (Some [[3; 4]], <[2 := true]> (<[1 := true]> ∅))) as H1
    by (by vm_compute).
  assert ([] ∉ [[3; 4]]) as H2 by compute_done.
  split; [exact H1|]. split; [exact H2|].
  exact (unit_subsumption_after_unit_propagation _ _ _ H1 H2).
Defined.

(** X6. [monotone_literal_fixing] of dpll.py returns a sublist of the
    formula; every clause it removes holds a literal it has assigned, and
    no assigned literal occurs in the result; the truth assignments that
    satisfy the formula satisfy the result, and the formula is satisfiable
    as soon as the result is. *)
Theorem monotone_literal_fixing_is_sound (formula : list (list Z)) :
  (Dpll.monotone_literal_fixing formula).1 `sublist_of` formula ∧
  (∀ clause, clause ∈ formula →
     clause ∈ (Dpll.monotone_literal_fixing formula).1 ∨
     ∃ k, k ∈ clause ∧ is_Some ((Dpll.monotone_literal_fixing formula).2 !! k)) ∧
  (∀ k, is_Some ((Dpll.monotone_literal_fixing formula).2 !! k) →
        k ∉ mjoin (Dpll.monotone_literal_fixing formula).1) ∧
  (∀ v, satisfies v formula → satisfies v (Dpll.monotone_literal_fixing formula).1) ∧
  (satisfiable (Dpll.monotone_literal_fixing formula).1 → satisfiable formula).
Proof.
  pose proof (DpllFacts.monotone_literal_fixing_fixes formula) as Hfix.
  split; [apply (DpllSemantics.fixes_sublist _ _ Hfix)|].
  split; [intros c; apply (DpllOutcomes.fixes_removed _ _ _ Hfix)|].
  split; [by apply DpllFacts.monotone_literal_fixing_inv|].
  split; [intros v; apply (DpllSemantics.fixes_forward _ _ _ Hfix)|].
  apply DpllFacts.monotone_literal_fixing_satisfiable.
Qed.

(** X7. [choose_literal] raises [ZeroDivisionError] exactly when the
    formula has a unit clause, and it raises nothing else. Without a unit
    clause it returns a literal of the formula, or [None] when the formula
    has no literal at all. *)
Theorem choose_literal_outcome `{FloatOps} (formula : list (list Z)) :
  (Dpll.choose_literal formula = Raise ZeroDivisionError ↔
   ∃ clause, clause ∈ formula ∧ length clause = 1%nat) ∧
  Dpll.choose_literal formula ≠ Raise TypeError ∧
  Dpll.choose_literal formula ≠ OutOfFuel ∧
  (∀ chosen, Dpll.choose_literal formula = Return chosen →
     (chosen = None ↔ mjoin formula = []) ∧
     (∀ literal, chosen = Some literal → literal ∈ mjoin formula)).
Proof.
  unfold Dpll.choose_literal.
  destruct (Dpll.score_clauses formula []) as [scores|e|] eqn:Hs; simpl.
  - split; [|split; [done|split; [done|]]].
    + split; [done|]. intros (c & Hc & Hlen).
      by rewrite (DpllOutcomes.score_clauses_unit formula [] c) in Hs.
    + intros chosen [= <-]. split.
      * rewrite DpllOutcomes.max_key_None. split.
        -- intros ->. destruct (mjoin formula) as [|l rest] eqn:Hj; [done|].
           assert (l ∈ ([] : list (Z * float)).*1) as Hin.
           { apply (DpllFacts.score_clauses_keys _ _ _ _ Hs). left. rewrite Hj. by left. }
           by apply elem_of_nil in Hin.
        -- intros Hj. destruct scores as [|[k s] scores]; [done|].
           assert (k ∈ mjoin formula ∨ k ∈ ([] : list (Z * float)).*1) as [Hin|Hin].
           { apply (DpllFacts.score_clauses_keys _ _ _ _ Hs). by left. }
           ++ rewrite Hj in Hin. by apply elem_of_nil in Hin.
           ++ by apply elem_of_nil in Hin.
      * intros literal Hmax. apply DpllFacts.max_key_elem in Hmax.
        apply (DpllFacts.score_clauses_keys _ _ _ _ Hs) in Hmax as [?|?%elem_of_nil];
          done.
  - apply DpllOutcomes.score_clauses_Raise in Hs as [-> Hunit].
    split; [done|]. split; [done|]. split; [done|]. by intros chosen [=].
  - by apply DpllFacts.score_clauses_fuel in Hs.
Qed.

(** ** dpll.py: termination *)

Module DpllTermination.
Import Dpll DpllFacts.

#[local] Arguments unit_subsumption : simpl never.
#[local] Arguments unit_propagation : simpl never.
#[local] Arguments monotone_literal_fixing : simpl never.
#[local] Arguments choose_literal : simpl never.
#[local] Arguments try_literal : simpl never.

Implicit Types (formula : list (list Z)) (clause : list Z) (literal : Z).
Implicit Types (assignment : gmap Z bool).

Lemma run_bind_ext {A B : Type} (m : run A) (f f' : A → run B) :
  (∀ a, result m = Return a → f' a = f a) → m ≫= f' = m ≫= f.
Proof.
  intros Hext. unfold mbind, run_bind.
  destruct (result m) as [a| |] eqn:Hm; [|done..]. by rewrite Hext.
Qed.

Lemma run_bind_fuel {A B : Type} (m : run A) (f : A → run B) :
  result (m ≫= f) ≠ OutOfFuel →
  result m ≠ OutOfFuel ∧ ∀ a, result m = Return a → result (f a) ≠ OutOfFuel.
Proof.
  rewrite run_bind_result. destruct (result m) as [a| |]; [|done..].
  intros Hf. split; [done|]. by intros ? [= <-].
Qed.

Section termination.
Context `{FloatOps}.

(** A branch that ends is the same whatever the recursive calls do where
    they are not needed to end. *)
Lemma try_literal_ext (rec rec' : list (list Z) → run (bool * option (list (list Z))))
    formula unit_assignments literal :
  (∀ g, result (rec g) ≠ OutOfFuel → rec' g = rec g) →
  result (try_literal rec formula unit_assignments literal) ≠ OutOfFuel →
  try_literal rec' formula unit_assignments literal
  = try_literal rec formula unit_assignments literal.
Proof.
  intros Hrec. unfold try_literal.
  destruct (apply_literal formula literal) as [g|]; [|done].
  destruct (unit_propagation g) as [[[g1|] a1]| |]; [|done..].
  rewrite !lift_bind. case_bool_decide; [done|].
  destruct (unit_subsumption (Some g1) unit_assignments) as [g2|]; [|done].
  intros [Hfuel _]%run_bind_fuel. by rewrite Hrec.
Qed.

Lemma dpll_run_S fuel formula :
  result (dpll_run fuel formula) ≠ OutOfFuel →
  dpll_run (S fuel) formula = dpll_run fuel formula.
Proof.
  revert formula. induction fuel as [|fuel IH]; intros formula; [done|].
  remember (S fuel) as fuel' eqn:Hfuel'.
  assert (∀ g, result (dpll_run fuel g) ≠ OutOfFuel → dpll_run fuel' g = dpll_run fuel g)
    as Hrec by (subst fuel'; exact IH).
  clear IH. rewrite Hfuel' at 1 3. clear Hfuel'. cbn [dpll_run].
  destruct (unit_propagation formula) as [[[f1|] ua]| |]; [|done..].
  rewrite !lift_bind. case_bool_decide; [done|].
  destruct (unit_subsumption (Some f1) ua) as [f2|]; [|done].
  case_bool_decide; [done|].
  destruct (monotone_literal_fixing f2) as [f3 ma].
  destruct f3 as [|c f3]; [done|].
  case_bool_decide; [done|].
  intros [_ Hchosen]%run_bind_fuel. apply run_bind_ext. intros chosen Hchoose.
  specialize (Hchosen chosen Hchoose). revert Hchosen.
  destruct chosen as [l|]; [|done]. case_bool_decide; [done|].
  intros [Hpos Hneg]%run_bind_fuel.
  rewrite (try_literal_ext _ _ _ _ _ Hrec Hpos).
  apply run_bind_ext. intros positive Hpositive.
  specialize (Hneg positive Hpositive). revert Hneg.
  destruct positive as [r|]; [done|].
  intros [Hneg _]%run_bind_fuel.
  by rewrite (try_literal_ext _ _ _ _ _ Hrec Hneg).
Qed.

Lemma dpll_run_le fuel fuel' formula :
  (fuel ≤ fuel')%nat → result (dpll_run fuel formula) ≠ OutOfFuel →
  dpll_run fuel' formula = dpll_run fuel formula.
Proof.
  intros Hle Hfuel. induction Hle as [|fuel' Hle IH]; [done|].
  rewrite <- IH. apply dpll_run_S. by rewrite IH.
Qed.

Lemma choose_literal_no_type_error formula : choose_literal formula ≠ Raise TypeError.
Proof.
  unfold choose_literal.
  destruct (score_clauses formula []) as [scores|e|] eqn:Hs; simpl; [done| |done].
  by apply DpllOutcomes.score_clauses_Raise in Hs as [-> _].
Qed.

Lemma try_literal_no_type_error
    (rec : list (list Z) → run (bool * option (list (list Z))))
    formula unit_assignments literal :
  (∀ g, result (rec g) ≠ Raise TypeError) →
  result (try_literal rec formula unit_assignments literal) ≠ Raise TypeError.
Proof.
  intros Hrec. unfold try_literal.
  destruct (apply_literal formula literal) as [g|]; [|by simpl].
  destruct (unit_propagation_returns g) as [[g1 a1] Hup].
  rewrite Hup, lift_bind. destruct g1 as [g1|]; [|by simpl].
  case_bool_decide as Hempty; [by simpl|].
  destruct (unit_subsumption_is_Some g1 unit_assignments Hempty) as [g2 ->].
  rewrite run_bind_result.
  specialize (Hrec (monotone_literal_fixing g2).1).
  destruct (result (rec (monotone_literal_fixing g2).1)) as [[[] ff]|e|]; simpl;
    [done|done|congruence|done].
Qed.

Lemma dpll_run_no_type_error fuel formula :
  result (dpll_run fuel formula) ≠ Raise TypeError.
Proof.
  revert formula. induction fuel as [|fuel IH]; intros formula; [done|].
  cbn [dpll_run].
  destruct (unit_propagation_returns formula) as [[f1 ua] Hup].
  rewrite Hup, lift_bind. destruct f1 as [f1|]; [|by simpl].
  case_bool_decide; [by simpl|].
  destruct (unit_subsumption (Some f1) ua) as [f2|]; [|by simpl].
  case_bool_decide; [by simpl|].
  destruct (monotone_literal_fixing f2) as [f3 ma].
  destruct f3 as [|c f3]; [by simpl|].
  case_bool_decide; [by simpl|].
  rewrite run_bind_result. simpl.
  pose proof (choose_literal_no_type_error (c :: f3)) as Hchoose.
  destruct (choose_literal (c :: f3)) as [[l|]|e|]; simpl; [|done|congruence|done].
  case_bool_decide; [by simpl|].
  pose proof (try_literal_no_type_error (dpll_run fuel) (c :: f3) (ma ∪ ua) l IH) as Hpos.
  pose proof (try_literal_no_type_error (dpll_run fuel) (c :: f3) (ma ∪ ua) (negate l) IH)
    as Hneg.
  rewrite run_bind_result.
  destruct (result (try_literal _ _ _ l)) as [[r1|]|e1|]; simpl;
    [done| |congruence|done].
  rewrite run_bind_result.
  destruct (result (try_literal _ _ _ (negate l))) as [[r2|]|e2|]; simpl;
    [done|done|congruence|done].
Qed.

End termination.

End DpllTermination.

(** X8. [dpll] terminates on every formula: each recursive call is on a
    formula with fewer literal occurrences, so the recursion is at most
    one deeper than the number of literal occurrences of the input, and a
    larger bound gives the same run. It never reaches
    [monotone_literal_fixing(None)], the [TypeError] of the branches. *)
Theorem dpll_terminates `{FloatOps} (formula : list (list Z)) :
  result (Dpll.dpll formula) ≠ OutOfFuel ∧
  result (Dpll.dpll formula) ≠ Raise TypeError ∧
  ∀ fuel, (length (mjoin formula) < fuel)%nat →
          Dpll.dpll_run fuel formula = Dpll.dpll formula.
Proof.
  assert (result (Dpll.dpll formula) ≠ OutOfFuel) as Hfuel.
  { apply DpllFacts.dpll_run_fuel. unfold formula_size. lia. }
  split; [done|]. split; [apply DpllTermination.dpll_run_no_type_error|].
  intros fuel Hlt. apply DpllTermination.dpll_run_le; [lia|done].
Qed.

Lemma dpll_terminates_witness :
  let formula := [[1; 2]; [-1; 2]; [1; -2]; [-1; -2]] in
  result (Dpll.dpll (H := fixed_point_scores) formula) ≠ OutOfFuel ∧
  result (Dpll.dpll (H := fixed_point_scores) formula) ≠ Raise TypeError ∧
  Dpll.dpll_run (H := fixed_point_scores) 20 formula
  = Dpll.dpll (H := fixed_point_scores) formula.
Proof.
  pose proof (dpll_terminates (H := fixed_point_scores)
                [[1; 2]; [-1; 2]; [1; -2]; [-1; -2]]) as (H1 & H2 & H3).
  split; [exact H1|]. split; [exact H2|]. apply H3. simpl. lia.
Defined.

(** X9. A formula that contains the empty clause is answered [False]
    before any branching: [choose_literal] is not called, and the answer
    is right, such a formula has no model. *)
Theorem dpll_on_an_empty_clause `{FloatOps} (formula : list (list Z)) :
  [] ∈ formula →
  (∃ second, Dpll.dpll formula = Run [] (Return (false, second))) ∧
  ¬ satisfiable formula.
Proof.
  intros Hin. split.
  - unfold Dpll.dpll. cbn [Dpll.dpll_run].
    destruct (DpllFacts.unit_propagation_returns formula) as [[f1 ua] Hup].
    rewrite Hup, lift_bind. destruct f1 as [f1|]; [|by eexists].
    apply DpllFacts.unit_propagation_inv in Hup as (_ & _ & _ & _ & Hempty).
    rewrite bool_decide_true by auto. by eexists.
  - intros [v Hv]. destruct (Hv [] Hin) as (l & Hl & _). by apply elem_of_nil in Hl.
Qed.

Lemma dpll_on_an_empty_clause_witness :
  let formula := [[1; 2]; []; [-1]] in
  ([] ∈ formula) ∧
  (∃ second, Dpll.dpll (H := fixed_point_scores) formula
             = Run [] (Return (false, second))) ∧
  ¬ satisfiable formula.
Proof.
  assert ([] ∈ [[1; 2]; []; [-1]]) as Hin by compute_done.
  split; [exact Hin|].
  exact (dpll_on_an_empty_clause (H := fixed_point_scores) [[1; 2]; []; [-1]] Hin).
Defined.

(** ** dpll.py: the branches *)

Module DpllBranching.
Import Dpll DpllFacts.

#[local] Arguments unit_subsumption : simpl never.
#[local] Arguments unit_propagation : simpl never.
#[local] Arguments monotone_literal_fixing : simpl never.
#[local] Arguments choose_literal : simpl never.

Implicit Types (formula : list (list Z)) (clause : list Z) (literal : Z).
Implicit Types (assignment : gmap Z bool).

Lemma run_bind_Return {A B : Type} (log : list (list (list Z))) (a : A)
    (f : A → run B) :
  Run log (Return a) ≫= f = Run (log ++ calls (f a)) (result (f a)).
Proof. reflexivity. Qed.

Section branching.
Context `{FloatOps}.

(** The [return False, new_formula] of the positive branch leaves [dpll]
    before the negative branch is looked at. *)
Lemma dpll_refuted_branch formula formula' unit_assignments simplified
    mono_assignments literal new_formula assignment :
  unit_propagation formula = Return (Some formula', unit_assignments) →
  [] ∉ formula' →
  monotone_literal_fixing formula' = (simplified, mono_assignments) →
  simplified ≠ [] →
  choose_literal simplified = Return (Some literal) →
  literal ≠ 0 →
  apply_literal simplified literal = Some new_formula →
  unit_propagation new_formula = Return (None, assignment) →
  dpll formula = Run [simplified] (Return (false, None)).
Proof.
  intros Hup Hempty Hmono Hne Hchoose Hnz Hap Hup'.
  unfold dpll. cbn [dpll_run]. rewrite Hup, lift_bind.
  rewrite bool_decide_false by done.
  rewrite unit_subsumption_untouched;
    [|done|by apply unit_propagation_inv in Hup as (_ & _ & ? & _)].
  rewrite bool_decide_false by done.
  pose proof (monotone_literal_fixing_inv formula') as (Hsub & _).
  rewrite Hmono in *. simpl in Hsub.
  destruct simplified as [|c simplified]; [done|].
  rewrite bool_decide_false by (intros Hin; by apply Hempty, Hsub).
  unfold call_choose_literal. rewrite Hchoose, run_bind_Return.
  rewrite bool_decide_false by done.
  unfold try_literal. rewrite Hap, Hup', lift_bind. reflexivity.
Qed.

Lemma balanced_formula_choose_literal `{!FloatOrder} :
  choose_literal balanced_formula = Return (Some 3).
Proof.
  unfold choose_literal.
  cbv -[float_gt float_add float_zero float_log int_add_float int_truediv].
  by rewrite !float_gt_irrefl.
Qed.

Lemma balanced_formula_dpll `{!FloatOrder} :
  dpll balanced_formula = Run [balanced_formula] (Return (false, None)).
Proof.
  apply (dpll_refuted_branch balanced_formula balanced_formula ∅ balanced_formula ∅ 3
           [[1; -2]; [2]; [-1; -2]; [1; 2]] (<[1 := true]> (<[2 := true]> ∅))).
  - by vm_compute.
  - compute_done.
  - by vm_compute.
  - done.
  - apply balanced_formula_choose_literal.
  - done.
  - by vm_compute.
  - by vm_compute.
Qed.

End branching.

Lemma balanced_formula_satisfiable : satisfiable balanced_formula.
Proof.
  exists (λ _, false). apply DpllOutcomes.satisfies_Forall. compute_done.
Qed.

End DpllBranching.

(** X10. When unit propagation refutes the positive branch of the chosen
    literal, [dpll] returns [(False, None)] at once: [choose_literal] has
    been called once, and the negated literal is not tried. *)
Theorem dpll_stops_at_a_refuted_positive_branch `{FloatOps}
    (formula formula' simplified new_formula : list (list Z))
    (unit_assignments mono_assignments assignment : gmap Z bool) (literal : Z) :
  Dpll.unit_propagation formula = Return (Some formula', unit_assignments) →
  [] ∉ formula' →
  Dpll.monotone_literal_fixing formula' = (simplified, mono_assignments) →
  simplified ≠ [] →
  Dpll.choose_literal simplified = Return (Some literal) →
  literal ≠ 0 →
  Dpll.apply_literal simplified literal = Some new_formula →
  Dpll.unit_propagation new_formula = Return (None, assignment) →
  Dpll.dpll formula = Run [simplified] (Return (false, None)).
Proof. apply DpllBranching.dpll_refuted_branch. Qed.

Lemma dpll_stops_at_a_refuted_positive_branch_witness :
  let formula := [[4]; [-4; 1; 2]; [1; -2]; [-1; 3]; [-1; -3]; [5; 6]] in
  let formula' := [[1; 2]; [1; -2]; [-1; 3]; [-1; -3]; [5; 6]] in
  let simplified := [[1; 2]; [1; -2]; [-1; 3]; [-1; -3]] in
  Dpll.unit_propagation formula = Return (Some formula', {[4 := true]}) ∧
  ([] ∉ formula') ∧
  Dpll.monotone_literal_fixing formula' = (simplified, {[5 := true]}) ∧
  simplified ≠ [] ∧
  Dpll.choose_literal (H := fixed_point_scores) simplified = Return (Some 1) ∧
  1 ≠ 0 ∧
  Dpll.apply_literal simplified 1 = Some [[3]; [-3]] ∧
  Dpll.unit_propagation [[3]; [-3]] = Return (None, {[3 := true]}) ∧
  Dpll.dpll (H := fixed_point_scores) formula = Run [simplified] (Return (false, None)).
Proof.
  assert (Dpll.unit_propagation [[4]; [-4; 1; 2]; [1; -2]; [-1; 3]; [-1; -3]; [5; 6]]
          = Return (Some [[1; 2]; [1; -2]; [-1; 3]; [-1; -3]; [5; 6]], {[4 := true]}))
    as H1 by (by vm_compute).
  assert ([] ∉ [[1; 2]; [1; -2]; [-1; 3]; [-1; -3]; [5; 6]]) as H2 by compute_done.
  assert (Dpll.monotone_literal_fixing [[1; 2]; [1; -2]; [-1; 3]; [-1; -3]; [5; 6]]
          = ([[1; 2]; [1; -2]; [-1; 3]; [-1; -3]], {[5 := true]}))
    as H3 by (by vm_compute).
  assert ([[1; 2]; [1; -2]; [-1; 3]; [-1; -3]] ≠ []) as H4 by done.
  assert (Dpll.choose_literal (H := fixed_point_scores)
            [[1; 2]; [1; -2]; [-1; 3]; [-1; -3]] = Return (Some 1))
    as H5 by (by vm_compute).
  assert (1 ≠ 0) as H6 by done.
  assert (Dpll.apply_literal [[1; 2]; [1; -2]; [-1; 3]; [-1; -3]] 1 = Some [[3]; [-3]])
    as H7 by (by vm_compute).
  assert (Dpll.unit_propagation [[3]; [-3]] = Return (None, {[3 := true]}))
    as H8 by (by vm_compute).
  repeat (split; [assumption|]).
  exact (dpll_stops_at_a_refuted_positive_branch (H := fixed_point_scores)
           _ _ _ _ _ _ _ _ H1 H2 H3 H4 H5 H6 H7 H8).
Defined.

(** X11. The answer [False] of [dpll] is no proof of unsatisfiability:
    there is a satisfiable formula without the literal 0, without repeated
    or complementary literals in a clause, on which it returns
    [(False, None)], whatever the floats are, as long as no score exceeds
    itself. *)
Theorem dpll_false_is_not_a_refutation `{FloatOps} `{!FloatOrder} :
  ∃ formula : list (list Z),
    (0 ∉ mjoin formula) ∧ Forall NoDup formula ∧
    Forall (λ clause, is_redundant_clause clause = false) formula ∧
    satisfiable formula ∧
    result (Dpll.dpll formula) = Return (false, None).
Proof.
  exists balanced_formula.
  split; [compute_done|]. split; [repeat constructor; compute_done|].
  split; [repeat constructor|].
  split; [apply DpllBranching.balanced_formula_satisfiable|].
  by rewrite DpllBranching.balanced_formula_dpll.
Qed.

Lemma dpll_false_is_not_a_refutation_witness :
  ∃ formula : list (list Z),
    (0 ∉ mjoin formula) ∧ Forall NoDup formula ∧
    Forall (λ clause, is_redundant_clause clause = false) formula ∧
    satisfiable formula ∧
    result (Dpll.dpll (H := fixed_point_scores) formula) = Return (false, None).
Proof.
  exact (dpll_false_is_not_a_refutation (H := fixed_point_scores)
           (H0 := fixed_point_scores_order)).
Defined.

(** ** resolution.py: what the verdicts mean *)

Module ResolutionSemantics.
Import Resolution ResolventFacts ResolutionFacts.

Implicit Types (clauses : list (list Z)) (clause c r : list Z) (literal : Z).
Implicit Types (clause_set new : gset (list Z)) (v : Z → bool).

Lemma combinations_elem_of_inv clauses c1 c2 :
  (c1, c2) ∈ combinations clauses → c1 ∈ clauses ∧ c2 ∈ clauses.
Proof.
  induction clauses as [|c clauses IH]; [by intros ?%elem_of_nil|].
  simpl. rewrite elem_of_app, list_elem_of_fmap.
  intros [(c' & [= -> ->] & Hc')|Hin].
  - split; [by left|by right].
  - destruct (IH Hin). split; by right.
Qed.

Lemma is_redundant_clause_Permutation c c' :
  c ≡ₚ c' → is_redundant_clause c = is_redundant_clause c'.
Proof.
  intros Hperm. destruct (is_redundant_clause c') eqn:Hc'.
  - apply is_redundant_clause_true in Hc' as (l & Hl & Hneg).
    apply is_redundant_clause_true. exists l. by rewrite Hperm.
  - apply is_redundant_clause_false. intros l Hl Hneg.
    rewrite is_redundant_clause_false in Hc'. apply (Hc' l); by rewrite <- Hperm.
Qed.

Lemma sorted_perm c : sorted c ≡ₚ c.
Proof. apply merge_sort_Permutation. Qed.

Lemma not_redundant_nonzero c literal :
  is_redundant_clause c = false → literal ∈ c → literal ≠ 0.
Proof.
  rewrite is_redundant_clause_false. intros Hc Hin ->. by apply (Hc 0).
Qed.

Section order.
Context `{SetOrder}.

(** A truth assignment that makes two clauses without complementary
    literals true makes their resolvent true. *)
Lemma resolve_true v c1 c2 literal :
  is_redundant_clause c1 = false → is_redundant_clause c2 = false →
  literal ∈ c1 → - literal ∈ c2 →
  (∃ l, l ∈ c1 ∧ literal_true v l = true) →
  (∃ l, l ∈ c2 ∧ literal_true v l = true) →
  ∃ l, l ∈ resolve c1 c2 literal ∧ literal_true v l = true.
Proof.
  intros Hc1 Hc2 Hin1 Hin2 (m1 & Hm1 & Htrue1) (m2 & Hm2 & Htrue2).
  pose proof (not_redundant_nonzero _ _ Hc1 Hin1) as Hnz.
  rewrite is_redundant_clause_false in Hc1, Hc2.
  destruct (literal_true v literal) eqn:Hlit.
  - exists m2. split; [|done]. apply elem_of_resolve. split; [by right|]. split.
    + intros ->. apply (Hc2 _ Hin2). by rewrite Z.opp_involutive.
    + intros ->. rewrite DpllSemantics.literal_true_opp, Hlit in Htrue2; done.
  - exists m1. split; [|done]. apply elem_of_resolve. split; [by left|]. split.
    + intros ->. congruence.
    + intros ->. by apply (Hc1 _ Hin1).
Qed.

Lemma add_resolvents_is_None clause_set (resolvents : list (list Z)) new :
  add_resolvents clause_set resolvents new = None → [] ∈ resolvents.
Proof.
  revert new. induction resolvents as [|r resolvents IH]; intros new; [done|].
  simpl. destruct r as [|l r]; [by left|].
  case_bool_decide; intros ?%IH; by right.
Qed.

Lemma resolve_pairs_is_None clause_set (pairs : list (list Z * list Z)) new :
  resolve_pairs clause_set pairs new = None →
  ∃ c1 c2, (c1, c2) ∈ pairs ∧ [] ∈ find_resolvents c1 c2.
Proof.
  revert new. induction pairs as [|[a b] pairs IH]; intros new; [done|].
  simpl.
  destruct (add_resolvents clause_set (find_resolvents a b) new) as [new'|] eqn:Hadd.
  - intros (c1 & c2 & ? & ?)%IH. exists c1, c2. split; [by right|done].
  - intros _. exists a, b. split; [by left|]. by apply add_resolvents_is_None in Hadd.
Qed.

(** The resolvents of two clauses of a list without complementary
    literals are true wherever the list is. *)
Lemma find_resolvents_true v clauses c1 c2 r :
  Forall (λ c, is_redundant_clause c = false) clauses →
  satisfies v clauses → (c1, c2) ∈ combinations clauses →
  r ∈ find_resolvents c1 c2 →
  is_redundant_clause r = false ∧ ∃ l, l ∈ r ∧ literal_true v l = true.
Proof.
  rewrite Forall_forall. intros Hall Hsat [Hc1 Hc2]%combinations_elem_of_inv.
  intros (literal & Hl1 & Hl2 & -> & Hr)%elem_of_find_resolvents.
  split; [done|]. apply resolve_true; auto.
Qed.

Lemma resolution_loop_unsat fuel clauses clause_set :
  Forall (λ c, is_redundant_clause c = false) clauses →
  resolution_loop fuel clauses clause_set = Return UNSAT → ¬ satisfiable clauses.
Proof.
  revert clauses clause_set.
  induction fuel as [|fuel IH]; intros clauses clause_set Hall; [done|].
  simpl.
  destruct (resolve_pairs clause_set (combinations clauses) ∅) as [new|] eqn:Hpairs.
  - case_bool_decide as Hnew; [done|]. intros Hloop [v Hv].
    apply IH in Hloop.
    + apply Hloop. exists v. intros c [Hc|Hc]%elem_of_app; [by apply Hv|].
      apply elem_of_set_list_clause in Hc.
      apply (resolve_pairs_Some _ _ _ _ c Hpairs) in Hc
        as [?%elem_of_empty|(c1 & c2 & r & Hin & Hr & -> & _)]; [done|].
      destruct (find_resolvents_true v clauses c1 c2 r) as (_ & l & Hl & Htrue);
        [done..|].
      exists l. split; [|done]. by rewrite sorted_perm.
    + apply Forall_app. split; [done|]. apply Forall_forall. intros c Hc.
      apply elem_of_set_list_clause in Hc.
      apply (resolve_pairs_Some _ _ _ _ c Hpairs) in Hc
        as [?%elem_of_empty|(c1 & c2 & r & Hin & Hr & -> & _)]; [done|].
      rewrite (is_redundant_clause_Permutation _ r) by apply sorted_perm.
      apply elem_of_find_resolvents in Hr as (? & ? & ? & ? & ?). done.
  - intros _ [v Hv].
    apply resolve_pairs_is_None in Hpairs as (c1 & c2 & Hin & Hr).
    destruct (find_resolvents_true v clauses c1 c2 []) as (_ & l & Hl & _);
      [done..|].
    by apply elem_of_nil in Hl.
Qed.

End order.

End ResolutionSemantics.

(** X13. The answer UNSAT of [resolution] is right on clause lists in
    which no clause holds a literal and its negation: such a list has no
    model when [resolution] returns 0. *)
Theorem resolution_unsat_is_sound `{SetOrder} (fuel : nat) (clauses : list (list Z)) :
  Forall (λ clause, is_redundant_clause clause = false) clauses →
  Resolution.resolution fuel clauses = Return UNSAT →
  ¬ satisfiable clauses.
Proof. apply ResolutionSemantics.resolution_loop_unsat. Qed.

Lemma resolution_unsat_is_sound_witness :
  let clauses := [[1; 2]; [-1; 2]; [-2; 3]; [-3]] in
  Forall (λ clause, is_redundant_clause clause = false) clauses ∧
  Resolution.resolution (H := elements_order) 3 clauses = Return UNSAT ∧
  ¬ satisfiable clauses.
Proof.
  assert (Forall (λ clause, is_redundant_clause clause = false)
            [[1; 2]; [-1; 2]; [-2; 3]; [-3]]) as H1 by (repeat constructor).
  assert (Resolution.resolution (H := elements_order) 3 [[1; 2]; [-1; 2]; [-2; 3]; [-3]]
          = Return UNSAT) as H2 by (by vm_compute).
  split; [exact H1|]. split; [exact H2|].
  exact (resolution_unsat_is_sound (H := elements_order) 3 _ H1 H2).
Defined.

(** ** Saturated clause lists have a model *)

Module Saturation.
Import ResolventFacts.

Implicit Types (clauses : list (list Z)) (clause c : list Z) (literal : Z).
Implicit Types (v : Z → bool) (vars : list Z).

Lemma in_resolvent_opp c1 c2 literal x :
  in_resolvent c2 c1 (- literal) x ↔ in_resolvent c1 c2 literal x.
Proof. unfold in_resolvent. rewrite Z.opp_involutive. tauto. Qed.

Lemma saturated_reduct clauses literal :
  saturated clauses → saturated (reduct clauses literal).
Proof.
  intros Hsat c1' c2' l.
  intros (c1 & Hc1 & Hn1 & ->)%DpllSemantics.elem_of_reduct.
  intros (c2 & Hc2 & Hn2 & ->)%DpllSemantics.elem_of_reduct.
  unfold Dpll.negate. intros Hr1 Hr2 [Hne1 Hl1]%list_elem_of_filter
    [Hne2 Hl2]%list_elem_of_filter.
  assert (∀ c, literal ∉ c →
            is_redundant_clause (filter (λ l, l ≠ - literal) c) = false →
            is_redundant_clause c = false) as Hback.
  { intros c Hn. rewrite !is_redundant_clause_false. intros Hc m Hm Hneg.
    apply (Hc m).
    - apply list_elem_of_filter. split; [|done]. intros ->.
      apply Hn. by rewrite Z.opp_involutive in Hneg.
    - apply list_elem_of_filter. split; [|done].
      intros Heq. apply Hn. by replace literal with m by lia. }
  assert (∀ x, in_resolvent c1 c2 l x →
               in_resolvent (filter (λ l, l ≠ - literal) c1)
                            (filter (λ l, l ≠ - literal) c2) l x ∨ x = - literal)
    as Hkeep.
  { intros x (Hx & ? & ?). destruct (decide (x = - literal)) as [|Hne]; [by right|].
    left. split; [|done]. destruct Hx; [left|right]; by apply list_elem_of_filter. }
  assert (∀ x, in_resolvent c1 c2 l x → x ≠ literal) as Hnot.
  { intros x ([?|?] & _) ->; done. }
  destruct (Hsat c1 c2 l) as [(m & Hm & Hneg)|(c & Hc & Hsub)]; auto.
  - left. exists m.
    destruct (Hkeep _ Hm) as [?| ->]; [|by rewrite Z.opp_involutive in Hneg;
                                        apply Hnot in Hneg].
    split; [done|]. destruct (Hkeep _ Hneg) as [?|Heq]; [done|].
    apply Hnot in Hm. lia.
  - right. exists (filter (λ l, l ≠ - literal) c). split.
    + apply DpllSemantics.elem_of_reduct. exists c. split; [done|]. split; [|done].
      intros Hin. by apply Hsub, Hnot in Hin.
    + intros x [Hne Hx]%list_elem_of_filter.
      destruct (Hkeep _ (Hsub x Hx)); done.
Qed.

(** Of the two reducts on a variable of a saturated list without the
    empty clause, one at least has no empty clause. *)
Lemma saturated_reduct_nonempty clauses literal :
  saturated clauses → [] ∉ clauses → 0 ∉ mjoin clauses →
  [] ∈ reduct clauses literal → [] ∉ reduct clauses (- literal).
Proof.
  intros Hsat Hempty Hzero.
  intros (c1 & Hc1 & Hn1 & Hf1)%DpllSemantics.elem_of_reduct.
  intros (c2 & Hc2 & Hn2 & Hf2)%DpllSemantics.elem_of_reduct.
  unfold Dpll.negate in *. rewrite Z.opp_involutive in Hf2.
  symmetry in Hf1, Hf2.
  assert (∀ m, m ∈ c1 → m = - literal) as Hall1.
  { intros m Hm. destruct (decide (m = - literal)) as [|Hne]; [done|].
    assert (m ∈ filter (λ l, l ≠ - literal) c1) as Hin
      by (by apply list_elem_of_filter).
    rewrite Hf1 in Hin. by apply elem_of_nil in Hin. }
  assert (∀ m, m ∈ c2 → m = literal) as Hall2.
  { intros m Hm. destruct (decide (m = literal)) as [|Hne]; [done|].
    assert (m ∈ filter (λ l, l ≠ literal) c2) as Hin
      by (by apply list_elem_of_filter).
    rewrite Hf2 in Hin. by apply elem_of_nil in Hin. }
  assert (- literal ∈ c1) as Hin1.
  { destruct c1 as [|m c1]; [done|]. rewrite <- (Hall1 m) by (by left). by left. }
  assert (literal ∈ c2) as Hin2.
  { destruct c2 as [|m c2]; [done|]. rewrite <- (Hall2 m) by (by left). by left. }
  assert (literal ≠ 0) as Hnz.
  { intros ->. apply Hzero, list_elem_of_join. by exists c2. }
  destruct (Hsat c2 c1 literal) as [(m & (Hm & ? & ?) & _)|(c & Hc & Hsub)]; auto.
  - apply is_redundant_clause_false. intros m Hm%Hall2 Hneg%Hall2. lia.
  - apply is_redundant_clause_false. intros m Hm%Hall1 Hneg%Hall1. lia.
  - destruct Hm as [?%Hall2|?%Hall1]; done.
  - destruct c as [|m c]; [done|].
    destruct (Hsub m) as ([?%Hall2|?%Hall1] & ? & ?); [by left|done..].
Qed.

(** A saturated clause list without the empty clause has a model: one
    variable after the other is given the value whose reduct has no empty
    clause. *)
Lemma saturated_satisfiable vars clauses :
  (∀ c x, c ∈ clauses → x ∈ c → Z.abs x ∈ vars) →
  0 ∉ mjoin clauses → [] ∉ clauses → saturated clauses → satisfiable clauses.
Proof.
  revert clauses. induction vars as [|var vars IH]; intros clauses Hvars Hzero Hempty Hsat.
  { exists (λ _, false). intros c Hc. destruct c as [|x c]; [done|].
    assert (x ∈ x :: c) as Hx by (by left).
    specialize (Hvars (x :: c) x Hc Hx). by apply elem_of_nil in Hvars. }
  assert (∀ literal, Z.abs literal = Z.abs var → [] ∉ reduct clauses literal →
                     satisfiable clauses) as Hbranch.
  { intros literal Habs Hne. apply (DpllFacts.satisfiable_reduct _ literal).
    apply IH; [| |done|by apply saturated_reduct].
    - intros c' x (c & Hc & Hn & ->)%DpllSemantics.elem_of_reduct
        [Hneg Hx]%list_elem_of_filter.
      unfold Dpll.negate in Hneg.
      pose proof (Hvars c x Hc Hx) as Hvar.
      apply elem_of_cons in Hvar as [Heq|?]; [|done].
      exfalso. assert (x = literal) as -> by lia. done.
    - intros (c' & Hx & Hc')%list_elem_of_join.
      apply DpllSemantics.elem_of_reduct in Hc' as (c & Hc & Hn & ->).
      apply list_elem_of_filter in Hx as [_ Hx].
      apply Hzero, list_elem_of_join. by exists c. }
  destruct (decide ([] ∈ reduct clauses var)) as [Hin|Hnin].
  - apply (Hbranch (- var)); [lia|]. by apply saturated_reduct_nonempty.
  - by apply (Hbranch var).
Qed.

End Saturation.

(** ** resolution.py: the answer SAT *)

Module ResolutionCompleteness.
Import Resolution ResolventFacts ResolutionFacts ResolutionSemantics.

Implicit Types (clauses : list (list Z)) (clause c r : list Z) (literal : Z).
Implicit Types (clause_set new : gset (list Z)) (v : Z → bool).

Section order.
Context `{SetOrder}.

(** What a round adds: sorted resolvents of pairs of the list, none of
    them empty, none of them in the clause set. *)
Lemma resolve_pairs_new clause_set clauses new t :
  resolve_pairs clause_set (combinations clauses) ∅ = Some new → t ∈ new →
  (t ∉ clause_set) ∧ t ≠ [] ∧
  ∃ c1 c2 literal, c1 ∈ clauses ∧ c2 ∈ clauses ∧ literal ∈ c1 ∧ - literal ∈ c2 ∧
                   t = sorted (resolve c1 c2 literal).
Proof.
  intros Hpairs Ht.
  apply (resolve_pairs_Some _ _ _ _ t Hpairs) in Ht
    as [?%elem_of_empty|(c1 & c2 & r & Hin & Hr & -> & Hfresh)]; [done|].
  split; [done|]. split.
  - intros Hnil. assert (r = []) as ->.
    { apply Permutation_nil_r. by rewrite <- (sorted_perm r), Hnil. }
    by rewrite (resolve_pairs_None _ _ _ _ _ Hin Hr) in Hpairs.
  - apply combinations_elem_of_inv in Hin as [Hc1 Hc2].
    apply elem_of_find_resolvents in Hr as (l & ? & ? & -> & _).
    by exists c1, c2, l.
Qed.

Lemma resolve_pairs_saturated clauses :
  resolve_pairs (list_to_set clauses) (combinations clauses) ∅ = Some ∅ →
  saturated clauses.
Proof.
  intros Hpairs c1 c2 l Hc1 Hc2 Hr1 Hr2 Hl1 Hl2.
  assert (c1 ≠ c2) as Hne.
  { intros ->. rewrite is_redundant_clause_false in Hr2. by apply (Hr2 l). }
  assert (∀ a b m, (a, b) ∈ combinations clauses → m ∈ a → - m ∈ b →
            (∃ x, in_resolvent a b m x ∧ in_resolvent a b m (- x)) ∨
            (∃ c, c ∈ clauses ∧ ∀ x, x ∈ c → in_resolvent a b m x)) as Hone.
  { intros a b m Hin Hma Hmb.
    destruct (is_redundant_clause (resolve a b m)) eqn:Hred.
    - left. apply is_redundant_clause_true in Hred as (x & Hx & Hneg).
      exists x. unfold in_resolvent. by rewrite <- !elem_of_resolve.
    - right. exists (sorted (resolve a b m)). split.
      + destruct (decide (sorted (resolve a b m) ∈ (list_to_set clauses : gset (list Z))))
          as [Hin'|Hnin]; [by apply elem_of_list_to_set in Hin'|].
        exfalso. apply (not_elem_of_empty (C := gset (list Z)) (sorted (resolve a b m))).
        apply (resolve_pairs_Some _ _ _ _ _ Hpairs). right.
        exists a, b, (resolve a b m). split; [done|]. split; [|done].
        apply elem_of_find_resolvents. by exists m.
      + intros x Hx. rewrite sorted_perm in Hx. by apply elem_of_resolve in Hx. }
  destruct (combinations_elem_of clauses c1 c2 Hc1 Hc2 Hne) as [Hin|Hin].
  - by apply Hone.
  - destruct (Hone c2 c1 (- l) Hin Hl2) as [(x & Hx & Hneg)|(c & Hc & Hsub)].
    + by rewrite Z.opp_involutive.
    + left. exists x. by rewrite <- !(Saturation.in_resolvent_opp c1 c2).
    + right. exists c. split; [done|]. intros x Hx.
      by apply Saturation.in_resolvent_opp, Hsub.
Qed.

Lemma resolution_loop_sat fuel clauses :
  [] ∉ clauses → 0 ∉ mjoin clauses →
  resolution_loop fuel clauses (list_to_set clauses) = Return SAT →
  satisfiable clauses.
Proof.
  revert clauses. induction fuel as [|fuel IH]; intros clauses Hempty Hzero; [done|].
  simpl.
  destruct (resolve_pairs (list_to_set clauses) (combinations clauses) ∅)
    as [new|] eqn:Hpairs; [|done].
  case_bool_decide as Hnew.
  - intros _. subst new.
    apply (Saturation.saturated_satisfiable (Z.abs <$> mjoin clauses));
      [|done|done|by apply resolve_pairs_saturated].
    intros c x Hc Hx. apply list_elem_of_fmap. exists x. split; [done|].
    apply list_elem_of_join. by exists c.
  - replace (list_to_set clauses ∪ new)
      with (list_to_set (clauses ++ set_list_clause new) : gset (list Z)).
    2:{ apply set_eq. intros t.
        rewrite elem_of_union, !elem_of_list_to_set, elem_of_app.
        by rewrite elem_of_set_list_clause. }
    intros Hloop. apply IH in Hloop.
    + destruct Hloop as [v Hv]. exists v. intros c Hc. apply Hv.
      apply elem_of_app. by left.
    + intros [?|Hin]%elem_of_app; [done|].
      apply elem_of_set_list_clause in Hin.
      by destruct (resolve_pairs_new _ _ _ _ Hpairs Hin) as (_ & ? & _).
    + rewrite join_app, elem_of_app. intros [?|Hin]; [done|].
      apply list_elem_of_join in Hin as (t & Hx & Ht).
      apply elem_of_set_list_clause in Ht.
      destruct (resolve_pairs_new _ _ _ _ Hpairs Ht)
        as (_ & _ & c1 & c2 & l & Hc1 & Hc2 & _ & _ & ->).
      rewrite sorted_perm in Hx. apply elem_of_resolve in Hx as ([Hx|Hx] & _).
      * apply Hzero, list_elem_of_join. by exists c1.
      * apply Hzero, list_elem_of_join. by exists c2.
Qed.

End order.

End ResolutionCompleteness.

(** X14. The answer SAT of [resolution] is right on clause lists without
    the empty clause and without the literal 0: when [resolution] returns
    1, no round has added a clause, the list is closed under resolution,
    and it has a model. *)
Theorem resolution_sat_is_sound `{SetOrder} (fuel : nat) (clauses : list (list Z)) :
  [] ∉ clauses → 0 ∉ mjoin clauses →
  Resolution.resolution fuel clauses = Return SAT →
  satisfiable clauses.
Proof. apply ResolutionCompleteness.resolution_loop_sat. Qed.

Lemma resolution_sat_is_sound_witness :
  let clauses := [[1; 2]; [-1; 3]; [-2; -3]] in
  ([] ∉ clauses) ∧ (0 ∉ mjoin clauses) ∧
  Resolution.resolution (H := elements_order) 4 clauses = Return SAT ∧
  satisfiable clauses.
Proof.
  assert ([] ∉ [[1; 2]; [-1; 3]; [-2; -3]]) as H1 by compute_done.
  assert (0 ∉ mjoin [[1; 2]; [-1; 3]; [-2; -3]]) as H2 by compute_done.
  assert (Resolution.resolution (H := elements_order) 4 [[1; 2]; [-1; 3]; [-2; -3]]
          = Return SAT) as H3 by (by vm_compute).
  split; [exact H1|]. split; [exact H2|]. split; [exact H3|].
  exact (resolution_sat_is_sound (H := elements_order) 4 _ H1 H2 H3).
Defined.

(** ** resolution.py: termination *)

Module ResolutionTermination.
Import Resolution ResolventFacts ResolutionFacts ResolutionSemantics.
Import ResolutionCompleteness.

Implicit Types (clauses : list (list Z)) (clause c r : list Z) (literal : Z).
Implicit Types (clause_set new : gset (list Z)) (literals : gset Z).

Lemma length_sublists (l : list Z) : length (sublists l) = (2 ^ length l)%nat.
Proof.
  induction l as [|x l IH]; [done|].
  simpl. rewrite length_app, length_fmap, IH. lia.
Qed.

Lemma elem_of_sublists (l k : list Z) : k `sublist_of` l → k ∈ sublists l.
Proof.
  induction 1 as [|x k l Hsub IH|x k l Hsub IH]; simpl.
  - by left.
  - apply elem_of_app. right. by apply list_elem_of_fmap_2.
  - apply elem_of_app. by left.
Qed.

(** A sorted list without repetition whose elements are in a sorted list
    is one of its sublists. *)
Lemma sorted_sublist (k l : list Z) :
  StronglySorted Z.le k → NoDup k → StronglySorted Z.le l → k ⊆ l → k `sublist_of` l.
Proof.
  intros Hk Hnd Hl. revert k Hk Hnd.
  induction Hl as [|y l Hl IH Hy]; intros k Hk Hnd Hsub.
  { destruct k as [|x k]; [done|].
    assert (x ∈ []) as ?%elem_of_nil by (apply Hsub; by left). done. }
  destruct k as [|x k]; [apply sublist_nil_l|].
  apply StronglySorted_inv in Hk as [Hk Hx]. apply NoDup_cons in Hnd as [Hxk Hnd].
  rewrite Forall_forall in Hx, Hy.
  destruct (decide (x = y)) as [->|Hne].
  - apply sublist_skip. apply IH; [done..|].
    intros z Hz. assert (z ∈ y :: l) as [->|?]%elem_of_cons; [|done..].
    apply Hsub. by right.
  - apply sublist_cons.
    assert (x ∈ l) as Hxl.
    { assert (x ∈ y :: l) as [?|?]%elem_of_cons by (apply Hsub; by left); done. }
    apply IH; [by constructor; [|apply Forall_forall]|by constructor|].
    intros z Hz. assert (z ∈ y :: l) as [->|?]%elem_of_cons by (by apply Hsub); [|done].
    exfalso. apply elem_of_cons in Hz as [->|Hz]; [done|].
    pose proof (Hy x Hxl). pose proof (Hx y Hz). lia.
Qed.

Lemma sorted_StronglySorted (l : list Z) : StronglySorted Z.le (sorted l).
Proof.
  apply Sorted_StronglySorted; [intros x y z; lia|].
  apply (Sorted_merge_sort Z.le).
Qed.

Lemma elem_of_candidates literals r :
  NoDup r → (∀ x, x ∈ r → x ∈ literals) → sorted r ∈ candidates literals.
Proof.
  intros Hnd Hsub. unfold candidates. apply elem_of_list_to_set, elem_of_sublists.
  apply sorted_sublist.
  - apply sorted_StronglySorted.
  - by rewrite sorted_perm.
  - apply sorted_StronglySorted.
  - intros x. rewrite !sorted_perm, elem_of_elements. apply Hsub.
Qed.

Lemma size_list_to_set_length (l : list (list Z)) :
  (size (list_to_set l : gset (list Z)) ≤ length l)%nat.
Proof.
  induction l as [|x l IH].
  - done.
  - change (list_to_set (x :: l) : gset (list Z)) with ({[x]} ∪ list_to_set l : gset (list Z)).
    rewrite size_union_alt, size_singleton. simpl.
    assert (list_to_set l ∖ {[x]} ⊆ (list_to_set l : gset (list Z))) as Hle%subseteq_size
      by (by intros t [? _]%elem_of_difference).
    lia.
Qed.

Lemma size_candidates literals : (size (candidates literals) ≤ 2 ^ size literals)%nat.
Proof.
  unfold candidates. etrans; [apply size_list_to_set_length|].
  rewrite length_sublists. apply Nat.eq_le_incl. f_equal.
  unfold size, set_size. simpl. by rewrite sorted_perm.
Qed.

Section order.
Context `{SetOrder}.

Lemma resolution_loop_returns (n : nat) literals clauses clause_set :
  (∀ c x, c ∈ clauses → x ∈ c → x ∈ literals) →
  (size (candidates literals ∖ clause_set) < n)%nat →
  ∃ verdict, (verdict = SAT ∨ verdict = UNSAT) ∧
    ∀ fuel, (n ≤ fuel)%nat → resolution_loop fuel clauses clause_set = Return verdict.
Proof.
  revert clauses clause_set.
  induction n as [|n IH]; intros clauses clause_set Hlits Hsize; [lia|].
  destruct (resolve_pairs clause_set (combinations clauses) ∅) as [new|] eqn:Hpairs.
  2:{ exists UNSAT. split; [by right|]. intros [|fuel] Hle; [lia|].
      simpl. by rewrite Hpairs. }
  destruct (decide (new = ∅)) as [->|Hnew].
  { exists SAT. split; [by left|]. intros [|fuel] Hle; [lia|].
    simpl. rewrite Hpairs. by rewrite bool_decide_true. }
  assert (∀ t, t ∈ new → t ∈ candidates literals ∧ t ∉ clause_set) as Hcand.
  { intros t Ht.
    destruct (resolve_pairs_new _ _ _ _ Hpairs Ht)
      as (Hfresh & _ & c1 & c2 & l & Hc1 & Hc2 & _ & _ & ->).
    split; [|done]. apply elem_of_candidates; [apply NoDup_set_list_Z|].
    intros x ([Hx|Hx] & _)%elem_of_resolve; eauto. }
  destruct (IH (clauses ++ set_list_clause new) (clause_set ∪ new))
    as (verdict & Hverdict & Hloop).
  - intros c x [Hc|Hc]%elem_of_app; [by apply Hlits|].
    apply elem_of_set_list_clause in Hc. destruct (Hcand c Hc) as [Hin _].
    unfold candidates in Hin. apply elem_of_list_to_set in Hin.
    intros Hx.
    destruct (resolve_pairs_new _ _ _ _ Hpairs Hc)
      as (_ & _ & c1 & c2 & l & Hc1 & Hc2 & _ & _ & ->).
    rewrite sorted_perm in Hx. apply elem_of_resolve in Hx as ([Hx|Hx] & _); eauto.
  - apply set_choose_L in Hnew as [t Ht]. destruct (Hcand t Ht) as [Hin Hfresh].
    assert (candidates literals ∖ (clause_set ∪ new) ⊂ candidates literals ∖ clause_set)
      as Hsub%subset_size; [|lia].
    split.
    + intros t' [Hc Hn]%elem_of_difference. apply elem_of_difference.
      split; [done|]. intros Hin'. apply Hn, elem_of_union. by left.
    + intros Hall.
      assert (t ∈ candidates literals ∖ (clause_set ∪ new))
        as [_ Hbad]%elem_of_difference by (by apply Hall, elem_of_difference).
      apply Hbad, elem_of_union. by right.
  - exists verdict. split; [done|]. intros [|fuel] Hle; [lia|].
    simpl. rewrite Hpairs, bool_decide_false by done. apply Hloop. lia.
Qed.

End order.

End ResolutionTermination.

(** X15. [resolution] terminates on every clause list: a round that does
    not return adds a sorted list without repetition over the literals of
    the input that was not there, so that with [n] distinct literals in
    the input there are at most [2 ^ n] such rounds; with more rounds than
    that allowed, the verdict is 0 or 1 and always the same. *)
Theorem resolution_terminates `{SetOrder} (clauses : list (list Z)) :
  ∃ verdict, (verdict = SAT ∨ verdict = UNSAT) ∧
    ∀ fuel, (2 ^ size (list_to_set (mjoin clauses) : gset Z) < fuel)%nat →
            Resolution.resolution fuel clauses = Return verdict.
Proof.
  set (literals := list_to_set (mjoin clauses) : gset Z).
  destruct (ResolutionTermination.resolution_loop_returns
              (S (size (candidates literals ∖ list_to_set clauses)))
              literals clauses (list_to_set clauses))
    as (verdict & Hverdict & Hloop).
  - intros c x Hc Hx. apply elem_of_list_to_set, list_elem_of_join. by exists c.
  - lia.
  - exists verdict. split; [done|]. intros fuel Hfuel. apply Hloop.
    pose proof (ResolutionTermination.size_candidates literals) as Hsize.
    assert (candidates literals ∖ list_to_set clauses ⊆ candidates literals)
      as Hle%subseteq_size by (by intros t [? _]%elem_of_difference).
    lia.
Qed.

Lemma resolution_terminates_witness :
  let clauses := [[1; 2]; [-1; 2]; [-2]] in
  ∃ verdict, (verdict = SAT ∨ verdict = UNSAT) ∧
    Resolution.resolution (H := elements_order) 17 clauses = Return verdict.
Proof.
  destruct (resolution_terminates (H := elements_order) [[1; 2]; [-1; 2]; [-2]])
    as (verdict & Hverdict & Hloop).
  exists verdict. split; [exact Hverdict|]. apply Hloop. vm_compute. lia.
Defined.

(** ** resolution.py: the first round *)

Module ResolutionRounds.
Import Resolution ResolventFacts ResolutionFacts.

Implicit Types (clauses : list (list Z)) (clause c r : list Z) (literal : Z).

Lemma combinations_lookup clauses (i j : nat) c1 c2 :
  (i < j)%nat → clauses !! i = Some c1 → clauses !! j = Some c2 →
  (c1, c2) ∈ combinations clauses.
Proof.
  revert i j. induction clauses as [|c clauses IH]; intros i j Hlt Hi Hj; [done|].
  simpl. apply elem_of_app. destruct j as [|j]; [lia|]. simpl in Hj.
  destruct i as [|i]; simpl in Hi.
  - injection Hi as ->. left. apply list_elem_of_fmap_2.
    by apply list_elem_of_lookup_2 in Hj.
  - right. apply (IH i j); [lia|done..].
Qed.

Section order.
Context `{SetOrder}.

Lemma resolution_empty_resolvent fuel clauses (i j : nat) c1 c2 literal :
  (i < j)%nat → clauses !! i = Some c1 → clauses !! j = Some c2 →
  literal ∈ c1 → - literal ∈ c2 →
  (∀ x, x ∈ c1 ∨ x ∈ c2 → x = literal ∨ x = - literal) →
  resolution (S fuel) clauses = Return UNSAT.
Proof.
  intros Hlt Hi Hj Hl1 Hl2 Hall. unfold resolution. simpl.
  rewrite (resolve_pairs_None _ _ _ c1 c2); [done|by apply (combinations_lookup _ i j)|].
  apply elem_of_find_resolvents. exists literal.
  split; [done|]. split; [done|]. split; [|done].
  symmetry. by apply resolve_eq_nil.
Qed.

End order.

End ResolutionRounds.

(** X12. When two clauses of the list, the first one holding [literal],
    the later one its negation, hold nothing but this literal and its
    negation, the resolvent is empty and [resolution] returns 0 in its
    first round. *)
Theorem resolution_stops_at_an_empty_resolvent `{SetOrder} (fuel : nat)
    (clauses : list (list Z)) (i j : nat) (c1 c2 : list Z) (literal : Z) :
  (i < j)%nat → clauses !! i = Some c1 → clauses !! j = Some c2 →
  literal ∈ c1 → - literal ∈ c2 →
  (∀ x, x ∈ c1 ∨ x ∈ c2 → x = literal ∨ x = - literal) →
  Resolution.resolution (S fuel) clauses = Return UNSAT.
Proof. apply ResolutionRounds.resolution_empty_resolvent. Qed.

Lemma resolution_stops_at_an_empty_resolvent_witness :
  let clauses := [[1; 2]; [-3]; [2; -1]; [3; 3]] in
  (1 < 3)%nat ∧ clauses !! 1%nat = Some [-3] ∧ clauses !! 3%nat = Some [3; 3] ∧
  (-3 ∈ [-3]) ∧ (- -3 ∈ [3; 3]) ∧
  (∀ x, x ∈ [-3] ∨ x ∈ [3; 3] → x = -3 ∨ x = - -3) ∧
  Resolution.resolution (H := elements_order) 1 clauses = Return UNSAT.
Proof.
  assert (1 < 3)%nat as H1 by lia.
  assert ([[1; 2]; [-3]; [2; -1]; [3; 3]] !! 1%nat = Some [-3]) as H2 by reflexivity.
  assert ([[1; 2]; [-3]; [2; -1]; [3; 3]] !! 3%nat = Some [3; 3]) as H3 by reflexivity.
  assert (-3 ∈ [-3]) as H4 by compute_done.
  assert (- -3 ∈ [3; 3]) as H5 by compute_done.
  assert (∀ x, x ∈ [-3] ∨ x ∈ [3; 3] → x = -3 ∨ x = - -3) as H6.
  { intros x [Hx|Hx].
    - apply list_elem_of_singleton in Hx. by left.
    - right. apply elem_of_cons in Hx as [->|Hx]; [done|].
      by apply list_elem_of_singleton in Hx as ->. }
  repeat (split; [assumption|]).
  exact (resolution_stops_at_an_empty_resolvent (H := elements_order) 0
           _ 1 3 _ _ (-3) H1 H2 H3 H4 H5 H6).
Defined.

(** X16. On a clause list that holds twice the clause of a literal and
    its negation, a list every truth assignment satisfies, [resolution]
    returns 0: the resolvent of the two copies is empty, since [resolve]
    removes the literal and its negation from both clauses. *)
Theorem resolution_refutes_a_repeated_tautology `{SetOrder} (fuel : nat) (literal : Z) :
  literal ≠ 0 →
  Resolution.resolution (S fuel) [[literal; - literal]; [literal; - literal]]
  = Return UNSAT ∧
  ∀ v, satisfies v [[literal; - literal]; [literal; - literal]].
Proof.
  intros Hnz. split.
  - apply (ResolutionRounds.resolution_empty_resolvent fuel _ 0 1
             [literal; - literal] [literal; - literal] literal);
      [lia|done|done|by left|by right; left|].
    intros x [Hx|Hx]; apply elem_of_cons in Hx as [->|Hx]; auto;
      apply list_elem_of_singleton in Hx as ->; auto.
  - intros v c Hc.
    assert (c = [literal; - literal]) as ->.
    { apply elem_of_cons in Hc as [->|Hc]; [done|].
      by apply list_elem_of_singleton in Hc. }
    destruct (literal_true v literal) eqn:Htrue.
    + exists literal. split; [by left|done].
    + exists (- literal). split; [by right; left|].
      by rewrite DpllSemantics.literal_true_opp, Htrue.
Qed.

Lemma resolution_refutes_a_repeated_tautology_witness :
  1 ≠ 0 ∧
  Resolution.resolution (H := elements_order) 1 [[1; - 1]; [1; - 1]] = Return UNSAT ∧
  ∀ v, satisfies v [[1; - 1]; [1; - 1]].
Proof.
  assert (1 ≠ 0) as H1 by lia.
  split; [exact H1|].
  exact (resolution_refutes_a_repeated_tautology (H := elements_order) 0 1 H1).
Defined.

(** ** dp.py: what the simplifications mean *)

Module DpSemantics.
Import Dp DpFacts ResolventFacts.

Implicit Types (clauses : list (list Z)) (clause c : list Z) (literal : Z).
Implicit Types (assignment : gmap Z bool) (v : Z → bool).
Implicit Types (state : list (list Z) * gmap Z bool).

Lemma elem_of_remove_first x clause y : y ∈ remove_first x clause → y ∈ clause.
Proof.
  induction clause as [|z clause IH]; [done|].
  simpl. case_bool_decide; [by right|].
  intros [->|?]%elem_of_cons; [by left|]. right. by apply IH.
Qed.

Lemma elem_of_remove_first_ne x clause y :
  y ∈ clause → y ≠ x → y ∈ remove_first x clause.
Proof.
  intros Hin Hne. induction clause as [|z clause IH]; [done|].
  simpl. apply elem_of_cons in Hin as [->|Hin].
  - rewrite bool_decide_false by done. by left.
  - case_bool_decide; [done|]. right. by apply IH.
Qed.

(** *** Unit propagation *)

Lemma shortened_refl clauses : shortened clauses clauses.
Proof. intros c Hc. by exists c. Qed.

Lemma shortened_trans clauses clauses' clauses'' :
  shortened clauses clauses' → shortened clauses' clauses'' →
  shortened clauses clauses''.
Proof.
  intros H1 H2 c'' Hc''. destruct (H2 c'' Hc'') as (c' & Hc' & Hsub').
  destruct (H1 c' Hc') as (c & Hc & Hsub). exists c. split; [done|]. by etrans.
Qed.

Lemma propagate_shortened state unit : shortened state.1 (propagate state unit).1.
Proof.
  intros c'. unfold propagate. simpl.
  intros (c & -> & [_ Hc]%list_elem_of_filter)%list_elem_of_fmap.
  exists c. split; [done|]. intros x. apply elem_of_remove_first.
Qed.

Lemma foldl_propagate_shortened (unit_clauses : list (list Z)) state :
  shortened state.1 (foldl propagate state unit_clauses).1.
Proof.
  revert state. induction unit_clauses as [|unit unit_clauses IH]; intros state.
  - apply shortened_refl.
  - simpl. eapply shortened_trans; [apply propagate_shortened|apply IH].
Qed.

Lemma propagate_true v state unit :
  satisfies v state.1 → literal_true v (hd 0 unit) = true →
  satisfies v (propagate state unit).1.
Proof.
  intros Hsat Htrue c'. unfold propagate. simpl.
  intros (c & -> & [Hnin Hc]%list_elem_of_filter)%list_elem_of_fmap.
  destruct (Hsat c Hc) as (m & Hm & Hmtrue). exists m. split; [|done].
  apply elem_of_remove_first_ne; [done|]. intros ->.
  destruct (decide (hd 0 unit = 0)) as [Hz|Hnz].
  - apply Hnin. by rewrite Hz in *.
  - rewrite DpllSemantics.literal_true_opp, Htrue in Hmtrue; done.
Qed.

Lemma foldl_propagate_true v (unit_clauses : list (list Z)) state :
  Forall (λ unit, literal_true v (hd 0 unit) = true) unit_clauses →
  satisfies v state.1 →
  (∀ k, is_Some (state.2 !! k) → literal_true v k = true) →
  satisfies v (foldl propagate state unit_clauses).1 ∧
  (∀ k, is_Some ((foldl propagate state unit_clauses).2 !! k) → literal_true v k = true).
Proof.
  revert state.
  induction unit_clauses as [|unit unit_clauses IH]; intros state Hunits Hsat Hkeys.
  { done. }
  apply Forall_cons in Hunits as [Hunit Hunits]. simpl.
  apply IH; [done|by apply propagate_true|].
  intros k. unfold propagate. simpl.
  destruct (decide (hd 0 unit = k)) as [<-|Hne]; [done|].
  rewrite lookup_insert_ne by done. apply Hkeys.
Qed.

Lemma unit_clauses_true v clauses :
  satisfies v clauses →
  Forall (λ unit, literal_true v (hd 0 unit) = true)
         (filter (λ c, length c = 1%nat) clauses).
Proof.
  intros Hsat. apply Forall_forall. intros unit [Hlen Hin]%list_elem_of_filter.
  destruct (Hsat unit Hin) as (m & Hm & Htrue).
  destruct unit as [|l [|??]]; try done.
  by apply list_elem_of_singleton in Hm as ->.
Qed.

Lemma unit_propagation_loop_sound fuel clauses assignment clauses' assignment' :
  unit_propagation_loop fuel clauses assignment = Return (clauses', assignment') →
  Forall (λ c, length c ≠ 1%nat) clauses' ∧
  shortened clauses clauses' ∧
  (∀ v, satisfies v clauses →
        (∀ k, is_Some (assignment !! k) → literal_true v k = true) →
        satisfies v clauses' ∧
        (∀ k, is_Some (assignment' !! k) → literal_true v k = true)).
Proof.
  revert clauses assignment.
  induction fuel as [|fuel IH]; intros clauses assignment; cbn [unit_propagation_loop].
  - destruct (filter (λ c, length c = 1%nat) clauses) as [|unit units] eqn:Hunits;
      [|done].
    intros [= <- <-]. split; [|split; [apply shortened_refl|done]].
    apply Forall_forall. intros c Hc Hlen.
    assert (c ∈ filter (λ c, length c = 1%nat) clauses) as Hin
      by (by apply list_elem_of_filter).
    rewrite Hunits in Hin. by apply elem_of_nil in Hin.
  - destruct (filter (λ c, length c = 1%nat) clauses) as [|unit units] eqn:Hunits.
    + intros [= <- <-]. split; [|split; [apply shortened_refl|done]].
      apply Forall_forall. intros c Hc Hlen.
      assert (c ∈ filter (λ c, length c = 1%nat) clauses) as Hin
        by (by apply list_elem_of_filter).
      rewrite Hunits in Hin. by apply elem_of_nil in Hin.
    + rewrite <- Hunits. intros (Hpost & Hshort & Hsound)%IH.
      split; [done|]. split.
      * eapply shortened_trans; [|exact Hshort].
        apply (foldl_propagate_shortened _ (clauses, assignment)).
      * intros v Hsat Hkeys.
        destruct (foldl_propagate_true v (filter (λ c, length c = 1%nat) clauses)
                    (clauses, assignment)) as [Hsat' Hkeys'];
          [by apply unit_clauses_true|done|done|].
        by apply Hsound.
Qed.

(** *** Pure literals *)

Lemma elem_of_foldl_counter (all_literals keys : list Z) x :
  x ∈ foldl (λ keys literal,
               if bool_decide (literal ∈ keys) then keys else keys ++ [literal])
            keys all_literals ↔ x ∈ keys ∨ x ∈ all_literals.
Proof.
  revert keys. induction all_literals as [|l all_literals IH]; intros keys; simpl.
  { split; [by left|]. by intros [?|?%elem_of_nil]. }
  rewrite IH, elem_of_cons. case_bool_decide as Hl.
  - split; [tauto|]. intros [?|[->|?]]; auto.
  - rewrite elem_of_app, list_elem_of_singleton. tauto.
Qed.

Lemma elem_of_counter_keys (all_literals : list Z) x :
  x ∈ counter_keys all_literals ↔ x ∈ all_literals.
Proof.
  unfold counter_keys. rewrite elem_of_foldl_counter. split; [|by right].
  by intros [?%elem_of_nil|?].
Qed.

Lemma NoDup_foldl_counter (all_literals keys : list Z) :
  NoDup keys →
  NoDup (foldl (λ keys literal,
                  if bool_decide (literal ∈ keys) then keys else keys ++ [literal])
               keys all_literals).
Proof.
  revert keys. induction all_literals as [|l all_literals IH]; intros keys Hnd; [done|].
  simpl. apply IH. case_bool_decide as Hl; [done|].
  apply NoDup_app. split; [done|]. split; [|apply NoDup_singleton].
  intros x Hx ->%list_elem_of_singleton. done.
Qed.

Lemma fix_keys_cons (counter keys : list Z) l state :
  fix_keys counter (l :: keys) state
  = fix_keys counter keys
      (if bool_decide (- l ∉ counter)
       then (filter (λ c, l ∉ c) state.1, <[l := true]> state.2) else state).
Proof. reflexivity. Qed.

Lemma fix_keys_fixes (counter keys : list Z) state :
  (∀ x, x ∈ mjoin state.1 → x ∈ counter) → fixes state (fix_keys counter keys state).
Proof.
  revert state. induction keys as [|l keys IH]; intros state Hsub; [constructor|].
  rewrite fix_keys_cons. case_bool_decide as Hpure.
  - apply (fixes_step _ l).
    + intros Hin. by apply Hpure, Hsub.
    + apply IH. simpl. intros x (c & Hx & [_ Hc]%list_elem_of_filter)%list_elem_of_join.
      apply Hsub, list_elem_of_join. by exists c.
  - by apply IH.
Qed.

Lemma fix_keys_clauses (counter keys : list Z) state :
  (fix_keys counter keys state).1
  = filter (λ c, Forall (λ l, - l ∈ counter ∨ l ∉ c) keys) state.1.
Proof.
  revert state. induction keys as [|l keys IH]; intros state.
  { simpl. symmetry. apply DpllFacts.filter_Forall_id. apply Forall_forall. by intros. }
  rewrite fix_keys_cons, IH. case_bool_decide as Hpure; simpl.
  - rewrite list_filter_filter. apply list_filter_iff. intros c.
    rewrite Forall_cons. split; [intros []; by auto|].
    intros [[?|?] ?]; done.
  - apply list_filter_iff. intros c. rewrite Forall_cons. split; [|by intros []].
    intros ?. split; [|done]. left. by destruct (decide (- l ∈ counter)).
Qed.

Lemma fix_keys_assignment (counter keys : list Z) state k :
  (fix_keys counter keys state).2 !! k
  = if bool_decide (k ∈ keys ∧ - k ∉ counter) then Some true else state.2 !! k.
Proof.
  revert state. induction keys as [|l keys IH]; intros state.
  { change (fix_keys counter [] state) with state.
    case_bool_decide as Hk; [|done]. by destruct Hk as [?%elem_of_nil _]. }
  rewrite fix_keys_cons, IH. clear IH.
  destruct (decide (k ∈ keys ∧ - k ∉ counter)) as [[Hk Hp]|Hkeys].
  { rewrite (bool_decide_true (k ∈ keys ∧ - k ∉ counter)) by done.
    rewrite bool_decide_true; [done|]. split; [by right|done]. }
  rewrite (bool_decide_false (k ∈ keys ∧ - k ∉ counter)) by done.
  destruct (decide (l = k)) as [->|Hne].
  - destruct (decide (- k ∉ counter)) as [Hpure|Hpure].
    + rewrite (bool_decide_true (- k ∉ counter)) by done. simpl.
      rewrite lookup_insert_eq. rewrite bool_decide_true; [done|]. split; [by left|done].
    + rewrite (bool_decide_false (- k ∉ counter)) by done.
      rewrite bool_decide_false; [done|]. by intros [_ ?].
  - rewrite (bool_decide_false (k ∈ l :: keys ∧ - k ∉ counter)).
    2:{ intros [[?|?]%elem_of_cons ?]; [done|]. by apply Hkeys. }
    case_bool_decide; [|done]. simpl. by rewrite lookup_insert_ne.
Qed.

Lemma filter_ext_elem_of (P Q : list Z → Prop) `{!∀ c, Decision (P c)}
    `{!∀ c, Decision (Q c)} clauses :
  (∀ c, c ∈ clauses → P c ↔ Q c) → filter P clauses = filter Q clauses.
Proof.
  induction clauses as [|c clauses IH]; intros Hext; [done|].
  rewrite !filter_cons. rewrite IH by (intros; apply Hext; by right).
  destruct (decide (P c)) as [HP|HP], (decide (Q c)) as [HQ|HQ]; try done.
  - exfalso. apply HQ, Hext; [by left|done].
  - exfalso. apply HP, Hext; [by left|done].
Qed.

End DpSemantics.

(** X17. [unit_propagation] of dp.py returns clauses none of which is a
    unit clause, each of them a clause of the input that has lost
    literals; a truth assignment that satisfies the input satisfies the
    result and makes every literal of the returned assignment true. *)
Theorem dp_unit_propagation_is_sound (clauses clauses' : list (list Z))
    (assignment : gmap Z bool) :
  Dp.unit_propagation clauses = Return (clauses', assignment) →
  Forall (λ c, length c ≠ 1%nat) clauses' ∧
  (∀ c', c' ∈ clauses' → ∃ c, c ∈ clauses ∧ c' ⊆ c) ∧
  (∀ v, satisfies v clauses →
        satisfies v clauses' ∧
        (∀ k, is_Some (assignment !! k) → literal_true v k = true)).
Proof.
  intros (Hpost & Hshort & Hsound)%DpSemantics.unit_propagation_loop_sound.
  split; [done|]. split; [done|]. intros v Hsat. apply Hsound; [done|].
  intros k [? Hk]. by rewrite lookup_empty in Hk.
Qed.

Lemma dp_unit_propagation_is_sound_witness :
  let clauses := [[1]; [-1; 2]; [-2; 3; 4]; [1; 5]] in
  let clauses' := [[3; 4]] in
  let assignment : gmap Z bool := <[2 := true]> {[1 := true]} in
  Dp.unit_propagation clauses = Return (clauses', assignment) ∧
  Forall (λ c, length c ≠ 1%nat) clauses' ∧
  (∀ c', c' ∈ clauses' → ∃ c, c ∈ clauses ∧ c' ⊆ c) ∧
  (∀ v, satisfies v clauses →
        satisfies v clauses' ∧
        (∀ k, is_Some (assignment !! k) → literal_true v k = true)).
Proof.
  assert (Dp.unit_propagation [[1]; [-1; 2]; [-2; 3; 4]; [1; 5]]
          = Return ([[3; 4]], <[2 := true]> {[1 := true]})) as H1 by (by vm_compute).
  split; [exact H1|].
  exact (dp_unit_propagation_is_sound _ _ _ H1).
Defined.

(** X18. [monotone_literal_fixing] of dp.py decides purity once, on the
    clause list it is called with: it assigns the literals of the list
    whose negation does not occur in it, and keeps, in order, the clauses
    all of whose literals have their negation in the list. The result is
    satisfiable exactly when the list is. *)
Theorem dp_monotone_literal_fixing_result (clauses : list (list Z)) :
  (Dp.monotone_literal_fixing clauses).1
  = filter (λ c, Forall (λ l, - l ∈ mjoin clauses) c) clauses ∧
  (∀ k, (Dp.monotone_literal_fixing clauses).2 !! k
        = if bool_decide (k ∈ mjoin clauses ∧ - k ∉ mjoin clauses)
          then Some true else None) ∧
  (satisfiable (Dp.monotone_literal_fixing clauses).1 ↔ satisfiable clauses).
Proof.
  change (Dp.monotone_literal_fixing clauses)
    with (fix_keys (Dp.counter_keys (mjoin clauses))
            (Dp.counter_keys (mjoin clauses)) (clauses, ∅)).
  split; [|split].
  - rewrite DpSemantics.fix_keys_clauses. simpl.
    apply DpSemantics.filter_ext_elem_of. intros c Hc.
    rewrite !Forall_forall. split.
    + intros Hall l Hl.
      destruct (Hall l) as [Hneg|Hnin]; [|by apply DpSemantics.elem_of_counter_keys|done].
      apply DpSemantics.elem_of_counter_keys, list_elem_of_join. by exists c.
    + intros Hall l _. destruct (decide (l ∈ c)) as [Hl|Hl]; [|by right].
      left. by apply DpSemantics.elem_of_counter_keys, Hall.
  - intros k. rewrite DpSemantics.fix_keys_assignment. simpl.
    rewrite lookup_empty.
    rewrite (bool_decide_ext _ (k ∈ mjoin clauses ∧ - k ∉ mjoin clauses)); [done|].
    by rewrite !DpSemantics.elem_of_counter_keys.
  - assert (fixes (clauses, ∅)
              (fix_keys (Dp.counter_keys (mjoin clauses))
                 (Dp.counter_keys (mjoin clauses)) (clauses, ∅))) as Hfix.
    { apply DpSemantics.fix_keys_fixes. simpl. intros x Hx.
      by apply DpSemantics.elem_of_counter_keys. }
    split; [apply (DpllFacts.fixes_satisfiable _ _ Hfix)|].
    intros [v Hv]. exists v. by apply (DpllSemantics.fixes_forward _ _ _ Hfix).
Qed.

(** ** dp.py: the answer UNSAT *)

Module DavisPutnamSemantics.
Import Dp DpFacts ResolventFacts DavisPutnamFacts DpSemantics.

Implicit Types (clauses : list (list Z)) (clause c r : list Z) (literal : Z).
Implicit Types (new_clauses previous_clauses : gset (list Z)) (v : Z → bool).

#[local] Arguments unit_propagation : simpl never.
#[local] Arguments monotone_literal_fixing : simpl never.

Lemma not_redundant_subseteq c c' :
  c' ⊆ c → is_redundant_clause c = false → is_redundant_clause c' = false.
Proof.
  rewrite !is_redundant_clause_false. intros Hsub Hc l Hl Hneg.
  apply (Hc l); by apply Hsub.
Qed.

Lemma shortened_not_redundant clauses clauses' :
  shortened clauses clauses' →
  Forall (λ c, is_redundant_clause c = false) clauses →
  Forall (λ c, is_redundant_clause c = false) clauses'.
Proof.
  rewrite !Forall_forall. intros Hshort Hall c' Hc'.
  destruct (Hshort c' Hc') as (c & Hc & Hsub).
  apply (not_redundant_subseteq c); auto.
Qed.

Lemma monotone_literal_fixing_subseteq clauses :
  (monotone_literal_fixing clauses).1 ⊆ clauses.
Proof.
  change (monotone_literal_fixing clauses)
    with (fix_keys (counter_keys (mjoin clauses)) (counter_keys (mjoin clauses))
            (clauses, ∅)).
  rewrite fix_keys_clauses. intros c [_ Hc]%list_elem_of_filter. done.
Qed.

(** One pass of simplification, as [davis_putnam] runs it. *)
Lemma simplification_sound clauses clauses1 ua :
  unit_propagation clauses = Return (clauses1, ua) →
  (Forall (λ c, is_redundant_clause c = false) clauses →
   Forall (λ c, is_redundant_clause c = false) (monotone_literal_fixing clauses1).1) ∧
  (∀ v, satisfies v clauses → satisfies v (monotone_literal_fixing clauses1).1).
Proof.
  intros (_ & Hshort & Hsound)%unit_propagation_loop_sound.
  pose proof (monotone_literal_fixing_subseteq clauses1) as Hsub. split.
  - intros Hall%(shortened_not_redundant _ _ Hshort).
    rewrite Forall_forall in *. intros c Hc. by apply Hall, Hsub.
  - intros v Hsat c Hc. apply Hsound; [done| |by apply Hsub].
    intros k [? Hk]. by rewrite lookup_empty in Hk.
Qed.

Section order.
Context `{SetOrder}.

Lemma dp_add_resolvents_is_None (resolvents : list (list Z)) new_clauses :
  add_resolvents resolvents new_clauses = None → [] ∈ resolvents.
Proof.
  revert new_clauses. induction resolvents as [|r resolvents IH]; intros new_clauses.
  { done. }
  simpl. destruct r as [|l r]; [by left|]. intros ?%IH. by right.
Qed.

(** The [return 0, {}] inside the loop over the resolvents is never
    reached: [find_resolvents] yields no empty resolvent. *)
Lemma dp_resolve_pairs_is_Some (pairs : list (list Z * list Z)) new_clauses :
  resolve_pairs pairs new_clauses ≠ None.
Proof.
  revert new_clauses. induction pairs as [|[a b] pairs IH]; intros new_clauses; [done|].
  simpl. destruct (add_resolvents (find_resolvents a b) new_clauses) as [new'|] eqn:Hadd.
  - apply IH.
  - apply dp_add_resolvents_is_None in Hadd.
    by apply dp_find_resolvents_not_empty in Hadd.
Qed.

Lemma dp_resolvents_sound v clauses new_clauses :
  Forall (λ c, is_redundant_clause c = false) clauses →
  resolve_pairs (combinations clauses) ∅ = Some new_clauses →
  let clauses' :=
    filter (λ clause, is_redundant_clause clause = false)
           (set_list_clause (list_to_set (clauses ++ set_list_clause new_clauses))) in
  Forall (λ c, is_redundant_clause c = false) clauses' ∧
  (satisfies v clauses → satisfies v clauses').
Proof.
  intros Hall Hpairs clauses'. split.
  - apply Forall_forall. by intros c [? _]%list_elem_of_filter.
  - intros Hsat c [_ Hc]%list_elem_of_filter.
    apply elem_of_set_list_clause, elem_of_list_to_set, elem_of_app in Hc
      as [Hc|Hc]; [by apply Hsat|].
    apply elem_of_set_list_clause in Hc.
    apply (dp_resolve_pairs_Some _ _ _ c Hpairs) in Hc
      as [?%elem_of_empty|(c1 & c2 & r & Hin & Hr & ->)]; [done|].
    apply ResolutionSemantics.combinations_elem_of_inv in Hin as [Hc1 Hc2].
    apply dp_elem_of_find_resolvents in Hr as (l & Hl1 & Hl2 & -> & _ & _).
    rewrite Forall_forall in Hall.
    destruct (ResolutionSemantics.resolve_true v c1 c2 l) as (m & Hm & Htrue); auto.
    exists m. split; [|done]. by rewrite ResolutionSemantics.sorted_perm.
Qed.

Lemma davis_putnam_loop_unsat fuel clauses final_assignment previous_clauses
    (assignment : gmap Z bool) :
  Forall (λ c, is_redundant_clause c = false) clauses →
  davis_putnam_loop fuel clauses final_assignment previous_clauses
  = Return (UNSAT, assignment) →
  ¬ satisfiable clauses.
Proof.
  revert clauses final_assignment previous_clauses.
  induction fuel as [|fuel IH]; intros clauses final_assignment previous_clauses Hall.
  { by destruct clauses. }
  destruct clauses as [|c0 clauses0]; [done|].
  cbn [davis_putnam_loop].
  destruct (dp_unit_propagation_returns (c0 :: clauses0)) as [[clauses1 ua] Hup].
  rewrite Hup. cbn [mbind outcome_bind].
  destruct (simplification_sound _ _ _ Hup) as [Hall2 Hsound2].
  specialize (Hall2 Hall).
  destruct (monotone_literal_fixing clauses1) as [clauses2 ma]. simpl in Hall2, Hsound2.
  destruct clauses2 as [|c2 clauses2]; [done|].
  case_bool_decide as Hempty.
  { intros _ [v Hv]. destruct (Hsound2 v Hv [] Hempty) as (l & Hl & _).
    by apply elem_of_nil in Hl. }
  destruct (resolve_pairs (combinations (c2 :: clauses2)) ∅) as [new_clauses|] eqn:Hpairs;
    [|by apply dp_resolve_pairs_is_Some in Hpairs].
  case_bool_decide; [done|].
  pose proof (dp_resolvents_sound) as Hres.
  set (clauses3 := filter _ _) in *.
  destruct (dp_unit_propagation_returns clauses3) as [[clauses4 ua'] Hup'].
  rewrite Hup'. cbn [mbind outcome_bind].
  destruct (simplification_sound _ _ _ Hup') as [Hall5 Hsound5].
  destruct (monotone_literal_fixing clauses4) as [clauses5 ma']. simpl in Hall5, Hsound5.
  destruct clauses5 as [|c5 clauses5]; [done|].
  intros Hloop [v Hv].
  destruct (Hres v (c2 :: clauses2) new_clauses Hall2 Hpairs) as [Hall3 Hsound3].
  apply IH in Hloop; [|by apply Hall5].
  apply Hloop. exists v. apply Hsound5, Hsound3, Hsound2, Hv.
Qed.

End order.

End DavisPutnamSemantics.

(** X19. The answer UNSAT of [davis_putnam] is right on clause lists in
    which no clause holds a literal and its negation: such a list has no
    model when [davis_putnam] returns [(0, {})]. *)
Theorem davis_putnam_unsat_is_sound `{SetOrder} (fuel : nat) (clauses : list (list Z))
    (assignment : gmap Z bool) :
  Forall (λ clause, is_redundant_clause clause = false) clauses →
  Dp.davis_putnam fuel clauses = Return (UNSAT, assignment) →
  ¬ satisfiable clauses.
Proof. apply DavisPutnamSemantics.davis_putnam_loop_unsat. Qed.

Lemma davis_putnam_unsat_is_sound_witness :
  let clauses := [[1; 2]; [-1; 2]; [1; -2]; [-1; -2]] in
  Forall (λ clause, is_redundant_clause clause = false) clauses ∧
  Dp.davis_putnam (H := elements_order) 3 clauses = Return (UNSAT, ∅) ∧
  ¬ satisfiable clauses.
Proof.
  assert (Forall (λ clause, is_redundant_clause clause = false)
            [[1; 2]; [-1; 2]; [1; -2]; [-1; -2]]) as H1 by (repeat constructor).
  assert (Dp.davis_putnam (H := elements_order) 3 [[1; 2]; [-1; 2]; [1; -2]; [-1; -2]]
          = Return (UNSAT, ∅)) as H2 by (by vm_compute).
  split; [exact H1|]. split; [exact H2|].
  exact (davis_putnam_unsat_is_sound (H := elements_order) 3 _ _ H1 H2).
Defined.

(** X20. [davis_putnam] answers [(0, {})] in its first iteration on a
    clause list that holds the empty clause, or two complementary unit
    clauses: the empty clause stays through unit propagation and pure
    literal fixing, and unit propagation turns one of the two unit clauses
    into it. Such a list has no model. *)
Theorem davis_putnam_rejects_conflicts `{SetOrder} (fuel : nat) (clauses : list (list Z)) :
  [] ∈ clauses ∨ (∃ literal, literal ≠ 0 ∧ [literal] ∈ clauses ∧ [- literal] ∈ clauses) →
  Dp.davis_putnam (S fuel) clauses = Return (UNSAT, ∅) ∧ ¬ satisfiable clauses.
Proof.
  intros [Hempty|(literal & Hnz & Hpos & Hneg)]; split.
  - by apply DavisPutnamFacts.davis_putnam_loop_empty_clause.
  - intros [v Hv]. destruct (Hv [] Hempty) as (l & Hl & _). by apply elem_of_nil in Hl.
  - by apply (DavisPutnamFacts.davis_putnam_loop_complementary_units _ _ _ _ literal).
  - intros [v Hv].
    destruct (Hv _ Hpos) as (l & ->%list_elem_of_singleton & Htrue).
    destruct (Hv _ Hneg) as (l' & ->%list_elem_of_singleton & Htrue').
    rewrite DpllSemantics.literal_true_opp, Htrue in Htrue'; done.
Qed.

Lemma davis_putnam_rejects_conflicts_witness :
  let clauses := [[1; 2]; [-2]; [3; 1]; [2]] in
  ([] ∈ clauses ∨ (∃ literal, literal ≠ 0 ∧ [literal] ∈ clauses ∧ [- literal] ∈ clauses)) ∧
  Dp.davis_putnam (H := elements_order) 1 clauses = Return (UNSAT, ∅) ∧
  ¬ satisfiable clauses.
Proof.
  assert ([] ∈ [[1; 2]; [-2]; [3; 1]; [2]] ∨
          (∃ literal, literal ≠ 0 ∧ [literal] ∈ [[1; 2]; [-2]; [3; 1]; [2]] ∧
                      [- literal] ∈ [[1; 2]; [-2]; [3; 1]; [2]])) as H1.
  { right. exists 2. split; [lia|]. split; compute_done. }
  split; [exact H1|].
  exact (davis_putnam_rejects_conflicts (H := elements_order) 0 _ H1).
Defined.

(** X21. [resolve] is sound on two clauses neither of which holds a
    literal and its negation: the resolvent on a literal of the first
    whose negation is in the second is true under every truth assignment
    that makes both clauses true, and it has no repeated literal. *)
Theorem resolve_is_sound `{SetOrder} (v : Z → bool) (clause1 clause2 : list Z)
    (literal : Z) :
  is_redundant_clause clause1 = false → is_redundant_clause clause2 = false →
  literal ∈ clause1 → - literal ∈ clause2 →
  (∃ l, l ∈ clause1 ∧ literal_true v l = true) →
  (∃ l, l ∈ clause2 ∧ literal_true v l = true) →
  NoDup (resolve clause1 clause2 literal) ∧
  ∃ l, l ∈ resolve clause1 clause2 literal ∧ literal_true v l = true.
Proof.
  intros. split; [apply ResolventFacts.NoDup_set_list_Z|].
  by apply ResolutionSemantics.resolve_true.
Qed.

Lemma resolve_is_sound_witness :
  let v : Z → bool := λ x, bool_decide (x = 2) in
  is_redundant_clause [1; 2] = false ∧ is_redundant_clause [-1; 3; 2] = false ∧
  (1 ∈ [1; 2]) ∧ (- 1 ∈ [-1; 3; 2]) ∧
  (∃ l, l ∈ [1; 2] ∧ literal_true v l = true) ∧
  (∃ l, l ∈ [-1; 3; 2] ∧ literal_true v l = true) ∧
  NoDup (resolve (H := elements_order) [1; 2] [-1; 3; 2] 1) ∧
  ∃ l, l ∈ resolve (H := elements_order) [1; 2] [-1; 3; 2] 1 ∧ literal_true v l = true.
Proof.
  intros v.
  assert (is_redundant_clause [1; 2] = false) as H1 by reflexivity.
  assert (is_redundant_clause [-1; 3; 2] = false) as H2 by reflexivity.
  assert (1 ∈ [1; 2]) as H3 by compute_done.
  assert (- 1 ∈ [-1; 3; 2]) as H4 by compute_done.
  assert (∃ l, l ∈ [1; 2] ∧ literal_true v l = true) as H5.
  { exists 2. split; [compute_done|reflexivity]. }
  assert (∃ l, l ∈ [-1; 3; 2] ∧ literal_true v l = true) as H6.
  { exists 2. split; [compute_done|reflexivity]. }
  repeat (split; [assumption|]).
  exact (resolve_is_sound (H := elements_order) v _ _ 1 H1 H2 H3 H4 H5 H6).
Defined.

(** ** The engines together *)

Module Agreement.
Import ResolventFacts.

Implicit Types (clauses : list (list Z)) (clause c : list Z) (literal : Z).

Lemma not_redundant_no_zero clauses :
  Forall (λ clause, is_redundant_clause clause = false) clauses → 0 ∉ mjoin clauses.
Proof.
  rewrite Forall_forall. intros Hall (c & Hz & Hc)%list_elem_of_join.
  by apply (ResolutionSemantics.not_redundant_nonzero c 0 (Hall c Hc)).
Qed.

Section order.
Context `{SetOrder}.

Lemma resolution_returns clauses :
  ∃ verdict, (verdict = SAT ∨ verdict = UNSAT) ∧
    ∀ fuel, (2 ^ size (list_to_set (mjoin clauses) : gset Z) < fuel)%nat →
            Resolution.resolution fuel clauses = Return verdict.
Proof.
  set (literals := list_to_set (mjoin clauses) : gset Z).
  destruct (ResolutionTermination.resolution_loop_returns
              (S (size (candidates literals ∖ list_to_set clauses)))
              literals clauses (list_to_set clauses))
    as (verdict & Hverdict & Hloop).
  - intros c x Hc Hx. apply elem_of_list_to_set, list_elem_of_join. by exists c.
  - lia.
  - exists verdict. split; [done|]. intros fuel Hfuel. apply Hloop.
    pose proof (ResolutionTermination.size_candidates literals) as Hsize.
    assert (candidates literals ∖ list_to_set clauses ⊆ candidates literals)
      as Hle%subseteq_size by (by intros t [? _]%elem_of_difference).
    lia.
Qed.

Lemma resolution_decides clauses fuel :
  Forall (λ clause, is_redundant_clause clause = false) clauses → [] ∉ clauses →
  (2 ^ size (list_to_set (mjoin clauses) : gset Z) < fuel)%nat →
  (Resolution.resolution fuel clauses = Return SAT ↔ satisfiable clauses) ∧
  (Resolution.resolution fuel clauses = Return UNSAT ↔ ¬ satisfiable clauses).
Proof.
  intros Hall Hempty Hfuel.
  destruct (resolution_returns clauses) as (verdict & Hverdict & Hloop).
  specialize (Hloop fuel Hfuel).
  assert (Resolution.resolution fuel clauses = Return SAT → satisfiable clauses) as Hsat.
  { apply ResolutionCompleteness.resolution_loop_sat; [done|].
    by apply not_redundant_no_zero. }
  assert (Resolution.resolution fuel clauses = Return UNSAT → ¬ satisfiable clauses)
    as Hunsat by (by apply ResolutionSemantics.resolution_loop_unsat).
  rewrite Hloop in *. destruct Hverdict as [-> | ->].
  - split; [by split; auto|]. split; [done|]. intros Hn. by destruct Hn; auto.
  - split; [|by split; auto]. split; [done|]. intros Hs. by destruct Hunsat.
Qed.

End order.

End Agreement.

(** X22. On a clause list without the empty clause in which no clause
    holds a literal and its negation, [resolution] decides satisfiability:
    allowed more than [2 ^ n] rounds, [n] the number of distinct literals,
    it returns 1 exactly when the list has a model and 0 exactly when it
    has none. *)
Theorem resolution_decides_satisfiability `{SetOrder} (clauses : list (list Z))
    (fuel : nat) :
  Forall (λ clause, is_redundant_clause clause = false) clauses → [] ∉ clauses →
  (2 ^ size (list_to_set (mjoin clauses) : gset Z) < fuel)%nat →
  (Resolution.resolution fuel clauses = Return SAT ↔ satisfiable clauses) ∧
  (Resolution.resolution fuel clauses = Return UNSAT ↔ ¬ satisfiable clauses).
Proof. apply Agreement.resolution_decides. Qed.

Lemma resolution_decides_satisfiability_witness :
  let clauses := [[1; 2]; [-1; 2]; [-2]] in
  Forall (λ clause, is_redundant_clause clause = false) clauses ∧ ([] ∉ clauses) ∧
  (2 ^ size (list_to_set (mjoin clauses) : gset Z) < 17)%nat ∧
  (Resolution.resolution (H := elements_order) 17 clauses = Return SAT
   ↔ satisfiable clauses) ∧
  (Resolution.resolution (H := elements_order) 17 clauses = Return UNSAT
   ↔ ¬ satisfiable clauses).
Proof.
  intros clauses.
  assert (Forall (λ clause, is_redundant_clause clause = false) clauses)
    as H1 by (repeat constructor).
  assert ([] ∉ clauses) as H2 by compute_done.
  assert (2 ^ size (list_to_set (mjoin clauses) : gset Z) < 17)%nat
    as H3 by (vm_compute; lia).
  split; [exact H1|]. split; [exact H2|]. split; [exact H3|].
  exact (resolution_decides_satisfiability (H := elements_order) clauses 17 H1 H2 H3).
Defined.

(** X23. The engines do not contradict each other on a [True] of [dpll]:
    when [dpll] returns [True] on a clause list in which no clause holds a
    literal and its negation, [resolution] returns 1 as soon as it is
    allowed more than [2 ^ n] rounds, and [davis_putnam] does not return
    [(0, {})]. *)
Theorem dpll_true_is_confirmed `{FloatOps} `{SetOrder} (clauses : list (list Z))
    (second : option (list (list Z))) (fuel : nat) (assignment : gmap Z bool) :
  Forall (λ clause, is_redundant_clause clause = false) clauses →
  result (Dpll.dpll clauses) = Return (true, second) →
  ((2 ^ size (list_to_set (mjoin clauses) : gset Z) < fuel)%nat →
   Resolution.resolution fuel clauses = Return SAT) ∧
  Dp.davis_putnam fuel clauses ≠ Return (UNSAT, assignment).
Proof.
  intros Hall Hdpll%DpllFacts.dpll_run_sound. split.
  - intros Hfuel.
    destruct (Agreement.resolution_returns clauses) as (verdict & [-> | ->] & Hloop);
      [by apply Hloop|].
    specialize (Hloop fuel Hfuel).
    by apply ResolutionSemantics.resolution_loop_unsat in Hloop.
  - intros Hdp. by apply DavisPutnamSemantics.davis_putnam_loop_unsat in Hdp.
Qed.

Lemma dpll_true_is_confirmed_witness :
  let clauses := [[1; 2]; [-1; 3]; [-2; -3]] in
  Forall (λ clause, is_redundant_clause clause = false) clauses ∧
  result (Dpll.dpll (H := fixed_point_scores) clauses) = Return (true, Some []) ∧
  Resolution.resolution (H := elements_order) 65 clauses = Return SAT ∧
  Dp.davis_putnam (H := elements_order) 65 clauses ≠ Return (UNSAT, ∅).
Proof.
  assert (Forall (λ clause, is_redundant_clause clause = false)
            [[1; 2]; [-1; 3]; [-2; -3]]) as H1 by (repeat constructor).
  assert (result (Dpll.dpll (H := fixed_point_scores) [[1; 2]; [-1; 3]; [-2; -3]])
          = Return (true, Some [])) as H2 by (by vm_compute).
  pose proof (dpll_true_is_confirmed (H := fixed_point_scores) (H0 := elements_order)
                _ _ 65 ∅ H1 H2) as [H3 H4].
  split; [exact H1|]. split; [exact H2|]. split; [|exact H4].
  apply H3. vm_compute. lia.
Defined.

(** ** dp.py: the answer SAT *)

Module DavisPutnamCompleteness.
Import Dp DpFacts ResolventFacts DavisPutnamFacts DpSemantics DavisPutnamSemantics.

Implicit Types (clauses : list (list Z)) (clause c r t : list Z) (literal : Z).
Implicit Types (new_clauses previous_clauses : gset (list Z)) (v : Z → bool).
Implicit Types (state : list (list Z) * gmap Z bool).

#[local] Arguments unit_propagation : simpl never.
#[local] Arguments monotone_literal_fixing : simpl never.

Lemma shortened_join clauses clauses' x :
  shortened clauses clauses' → x ∈ mjoin clauses' → x ∈ mjoin clauses.
Proof.
  intros Hshort (c' & Hx & Hc')%list_elem_of_join.
  destruct (Hshort c' Hc') as (c & Hc & Hsub).
  apply list_elem_of_join. exists c. split; [by apply Hsub|done].
Qed.

Lemma simplifies_refl clauses : simplifies clauses clauses.
Proof.
  split; [apply shortened_refl|]. intros Hnd. split; [done|].
  split; [by intros t Ht _|done].
Qed.

Lemma simplifies_trans clauses clauses' clauses'' :
  simplifies clauses clauses' → simplifies clauses' clauses'' →
  simplifies clauses clauses''.
Proof.
  intros [Hs1 H1] [Hs2 H2]. split; [by eapply shortened_trans|].
  intros Hnd. destruct (H1 Hnd) as (Hnd' & Hsurv1 & Hsat1).
  destruct (H2 Hnd') as (Hnd'' & Hsurv2 & Hsat2).
  split; [done|]. split; [|by auto].
  intros t Ht Hlits. apply Hsurv2; [|done]. apply Hsurv1; [done|].
  intros x Hx. by apply (shortened_join _ _ _ Hs2), Hlits.
Qed.

(** *** Unit propagation *)

Lemma remove_first_not_elem_of x clause : x ∉ clause → remove_first x clause = clause.
Proof.
  induction clause as [|y clause IH]; [done|].
  intros Hn. simpl. rewrite bool_decide_false by (intros ->; apply Hn; by left).
  f_equal. apply IH. intros ?. apply Hn. by right.
Qed.

Lemma NoDup_remove_first x clause : NoDup clause → NoDup (remove_first x clause).
Proof.
  induction 1 as [|y clause Hy Hnd IH]; [constructor|].
  simpl. case_bool_decide; [done|]. constructor; [|done].
  intros ?%elem_of_remove_first. done.
Qed.

Lemma remove_first_removes x clause : NoDup clause → x ∉ remove_first x clause.
Proof.
  induction 1 as [|y clause Hy Hnd IH]; [by intros ?%elem_of_nil|].
  simpl. case_bool_decide as Heq; [by subst|].
  intros [->|?]%elem_of_cons; done.
Qed.

Lemma propagate_simplifies state unit :
  simplifies state.1 (propagate state unit).1.
Proof.
  split; [apply propagate_shortened|]. intros Hnd.
  rewrite Forall_forall in Hnd.
  set (l := hd 0 unit).
  assert (∀ c', c' ∈ (propagate state unit).1 →
                ∃ c, c ∈ state.1 ∧ (l ∉ c) ∧ c' = remove_first (- l) c) as Hinv.
  { intros c'. unfold propagate. simpl.
    intros (c & -> & [? ?]%list_elem_of_filter)%list_elem_of_fmap. by exists c. }
  assert (∀ x, x ∈ mjoin (propagate state unit).1 → x ≠ l ∧ x ≠ - l) as Habsent.
  { intros x (c' & Hx & Hc')%list_elem_of_join.
    destruct (Hinv c' Hc') as (c & Hc & Hn & ->). split.
    - intros ->. by apply elem_of_remove_first in Hx.
    - intros ->. by apply remove_first_removes in Hx; [|apply Hnd]. }
  split; [|split].
  - apply Forall_forall. intros c' (c & Hc & _ & ->)%Hinv.
    by apply NoDup_remove_first, Hnd.
  - intros t Ht Hlits. unfold propagate. simpl.
    apply list_elem_of_fmap. exists t.
    assert (l ∉ t) as Hl by (intros Hin; by destruct (Habsent l (Hlits l Hin))).
    assert (- l ∉ t) as Hneg by (intros Hin; by destruct (Habsent (- l) (Hlits _ Hin))).
    split; [by rewrite remove_first_not_elem_of|]. by apply list_elem_of_filter.
  - intros [v Hv]. exists (set_true v l). intros c Hc.
    destruct (decide (l ∈ c)) as [Hin|Hnin].
    { exists l. split; [done|]. apply DpllFacts.literal_true_set_true. }
    destruct (Hv (remove_first (- l) c)) as (m & Hm & Htrue).
    { unfold propagate. simpl. apply list_elem_of_fmap. exists c.
      split; [done|]. by apply list_elem_of_filter. }
    exists m. split; [by apply elem_of_remove_first in Hm|].
    rewrite DpllFacts.literal_true_set_true_ne; [done| |].
    + intros ->. by apply elem_of_remove_first in Hm.
    + intros ->. by apply remove_first_removes in Hm; [|apply Hnd].
Qed.

Lemma foldl_propagate_simplifies (unit_clauses : list (list Z)) state :
  simplifies state.1 (foldl propagate state unit_clauses).1.
Proof.
  revert state. induction unit_clauses as [|unit unit_clauses IH]; intros state.
  - apply simplifies_refl.
  - simpl. eapply simplifies_trans; [apply propagate_simplifies|apply IH].
Qed.

Lemma unit_propagation_loop_simplifies fuel clauses assignment clauses' assignment' :
  unit_propagation_loop fuel clauses assignment = Return (clauses', assignment') →
  simplifies clauses clauses'.
Proof.
  revert clauses assignment.
  induction fuel as [|fuel IH]; intros clauses assignment; cbn [unit_propagation_loop].
  - destruct (filter (λ c, length c = 1%nat) clauses) as [|unit units]; [|done].
    intros [= <- <-]. apply simplifies_refl.
  - destruct (filter (λ c, length c = 1%nat) clauses) as [|unit units] eqn:Hunits.
    + intros [= <- <-]. apply simplifies_refl.
    + intros Hloop%IH. eapply simplifies_trans; [|exact Hloop].
      apply (foldl_propagate_simplifies _ (clauses, assignment)).
Qed.

(** *** Pure literals *)

Lemma monotone_literal_fixing_clauses clauses :
  (monotone_literal_fixing clauses).1
  = filter (λ c, Forall (λ l, - l ∈ mjoin clauses) c) clauses.
Proof.
  change (monotone_literal_fixing clauses)
    with (fix_keys (counter_keys (mjoin clauses)) (counter_keys (mjoin clauses))
            (clauses, ∅)).
  rewrite fix_keys_clauses. simpl. apply filter_ext_elem_of. intros c Hc.
  rewrite !Forall_forall. split.
  - intros Hall l Hl.
    destruct (Hall l) as [Hneg|Hnin]; [|by apply elem_of_counter_keys|done].
    apply elem_of_counter_keys, list_elem_of_join. by exists c.
  - intros Hall l _. destruct (decide (l ∈ c)) as [Hl|Hl]; [|by right].
    left. by apply elem_of_counter_keys, Hall.
Qed.

Lemma monotone_literal_fixing_simplifies clauses :
  simplifies clauses (monotone_literal_fixing clauses).1.
Proof.
  pose proof (monotone_literal_fixing_subseteq clauses) as Hsub.
  split; [intros c Hc; exists c; by split; [apply Hsub|]|].
  intros Hnd. split; [|split].
  - rewrite Forall_forall in *. intros c Hc. by apply Hnd, Hsub.
  - intros t Ht Hlits. rewrite monotone_literal_fixing_clauses.
    apply list_elem_of_filter. split; [|done]. apply Forall_forall. intros l Hl.
    apply Hlits, list_elem_of_join in Hl as (c & Hl & Hc).
    rewrite monotone_literal_fixing_clauses in Hc.
    apply list_elem_of_filter in Hc as [Hall _]. rewrite Forall_forall in Hall. auto.
  - change (monotone_literal_fixing clauses)
      with (fix_keys (counter_keys (mjoin clauses)) (counter_keys (mjoin clauses))
              (clauses, ∅)).
    apply (DpllFacts.fixes_satisfiable (clauses, ∅)).
    apply fix_keys_fixes. simpl. intros x Hx. by apply elem_of_counter_keys.
Qed.

(** One pass of simplification, as [davis_putnam] runs it. *)
Lemma simplification_simplifies clauses clauses1 ua :
  unit_propagation clauses = Return (clauses1, ua) →
  simplifies clauses (monotone_literal_fixing clauses1).1 ∧
  Forall (λ c, length c ≠ 1%nat) (monotone_literal_fixing clauses1).1.
Proof.
  intros Hup. split.
  - eapply simplifies_trans; [|apply monotone_literal_fixing_simplifies].
    by apply unit_propagation_loop_simplifies in Hup.
  - apply unit_propagation_loop_sound in Hup as (Hpost & _).
    rewrite Forall_forall in *. intros c Hc.
    by apply Hpost, monotone_literal_fixing_subseteq.
Qed.

(** *** Resolution rounds *)

Lemma tautology_true v c :
  0 ∉ c → is_redundant_clause c = true → ∃ l, l ∈ c ∧ literal_true v l = true.
Proof.
  intros Hz (l & Hl & Hneg)%is_redundant_clause_true.
  destruct (literal_true v l) eqn:Htrue; [by exists l|].
  exists (- l). split; [done|].
  rewrite DpllSemantics.literal_true_opp, Htrue; [done|]. by intros ->.
Qed.

Lemma NoDup_constant c x : NoDup c → x ∈ c → (∀ y, y ∈ c → y = x) → length c = 1%nat.
Proof.
  intros Hnd Hx Hall. destruct c as [|y [|z c]]; [by apply elem_of_nil in Hx|done|].
  apply NoDup_cons in Hnd as [Hy _]. exfalso. apply Hy.
  rewrite (Hall y) by (by left). rewrite <- (Hall z) at 1 by (right; by left). by left.
Qed.

Section order.
Context `{SetOrder}.

Lemma dp_new_clause clauses new_clauses t :
  resolve_pairs (combinations clauses) ∅ = Some new_clauses → t ∈ new_clauses →
  is_redundant_clause t = false ∧ NoDup t ∧
  ∃ c1 c2 l, c1 ∈ clauses ∧ c2 ∈ clauses ∧ l ∈ c1 ∧ - l ∈ c2 ∧
             t = sorted (resolve c1 c2 l).
Proof.
  intros Hpairs Ht.
  apply (dp_resolve_pairs_Some _ _ _ t Hpairs) in Ht
    as [?%elem_of_empty|(c1 & c2 & r & Hin & Hr & ->)]; [done|].
  apply ResolutionSemantics.combinations_elem_of_inv in Hin as [Hc1 Hc2].
  apply dp_elem_of_find_resolvents in Hr as (l & Hl1 & Hl2 & -> & _ & Hred).
  split; [|split].
  - by rewrite (ResolutionSemantics.is_redundant_clause_Permutation _ (resolve c1 c2 l))
      by apply ResolutionSemantics.sorted_perm.
  - rewrite ResolutionSemantics.sorted_perm. apply NoDup_set_list_Z.
  - by exists c1, c2, l.
Qed.

Lemma dp_new_clause_literals clauses new_clauses t x :
  resolve_pairs (combinations clauses) ∅ = Some new_clauses → t ∈ new_clauses →
  x ∈ t → x ∈ mjoin clauses.
Proof.
  intros Hpairs Ht Hx.
  destruct (dp_new_clause _ _ _ Hpairs Ht) as (_ & _ & c1 & c2 & l & ? & ? & _ & _ & ->).
  rewrite ResolutionSemantics.sorted_perm in Hx.
  apply elem_of_resolve in Hx as ([Hx|Hx] & _); apply list_elem_of_join; eauto.
Qed.

(** The clause list after a round: the clauses and the new clauses,
    each one once, without those that hold complementary literals. *)
Lemma dp_extend clauses new_clauses :
  resolve_pairs (combinations clauses) ∅ = Some new_clauses →
  Forall NoDup clauses → 0 ∉ mjoin clauses →
  let clauses' :=
    filter (λ clause, is_redundant_clause clause = false)
           (set_list_clause (list_to_set (clauses ++ set_list_clause new_clauses))) in
  Forall NoDup clauses' ∧ (0 ∉ mjoin clauses') ∧
  (∀ t, t ∈ new_clauses → t ∈ clauses') ∧
  (satisfiable clauses' → satisfiable clauses).
Proof.
  intros Hpairs Hnd Hzero clauses'.
  assert (∀ c, c ∈ clauses' ↔
               is_redundant_clause c = false ∧ (c ∈ clauses ∨ c ∈ new_clauses)) as Hin.
  { intros c. unfold clauses'.
    rewrite list_elem_of_filter, elem_of_set_list_clause, elem_of_list_to_set.
    by rewrite elem_of_app, elem_of_set_list_clause. }
  rewrite Forall_forall in Hnd. split; [|split; [|split]].
  - apply Forall_forall. intros c [_ [Hc|Hc]]%Hin; [by apply Hnd|].
    by destruct (dp_new_clause _ _ _ Hpairs Hc) as (_ & ? & _).
  - intros (c & Hx & [_ [Hc|Hc]]%Hin)%list_elem_of_join.
    + apply Hzero, list_elem_of_join. by exists c.
    + by apply Hzero, (dp_new_clause_literals _ _ c 0 Hpairs).
  - intros t Ht. apply Hin. split; [|by right].
    by destruct (dp_new_clause _ _ _ Hpairs Ht) as (? & _).
  - intros [v Hv]. exists v. intros c Hc.
    destruct (is_redundant_clause c) eqn:Hred.
    + apply tautology_true; [|done]. intros Hz. apply Hzero, list_elem_of_join.
      by exists c.
    + apply Hv, Hin. split; [done|by left].
Qed.

(** When the new clauses of a round are clauses of the list already,
    the list is saturated. *)
Lemma dp_saturated clauses new_clauses :
  resolve_pairs (combinations clauses) ∅ = Some new_clauses →
  Forall NoDup clauses → Forall (λ c, length c ≠ 1%nat) clauses →
  (∀ t, t ∈ new_clauses → t ∈ clauses) →
  saturated clauses.
Proof.
  rewrite !Forall_forall. intros Hpairs Hnd Hunit Hnew c1 c2 l Hc1 Hc2 Hr1 Hr2 Hl1 Hl2.
  assert (c1 ≠ c2) as Hne.
  { intros ->. rewrite is_redundant_clause_false in Hr2. by apply (Hr2 l). }
  assert (∀ a b m, (a, b) ∈ combinations clauses → a ∈ clauses →
            is_redundant_clause a = false → m ∈ a → - m ∈ b →
            (∃ x, in_resolvent a b m x ∧ in_resolvent a b m (- x)) ∨
            (∃ c, c ∈ clauses ∧ ∀ x, x ∈ c → in_resolvent a b m x)) as Hone.
  { intros a b m Hin Ha Hra Hma Hmb.
    destruct (decide (resolve a b m = [])) as [Hnil|Hnil].
    { exfalso. apply (Hunit a Ha). apply (NoDup_constant a m); [by apply Hnd|done|].
      intros y Hy. rewrite resolve_eq_nil in Hnil.
      destruct (Hnil y) as [?| ->]; [by left|done|].
      rewrite is_redundant_clause_false in Hra. by apply Hra in Hma. }
    destruct (is_redundant_clause (resolve a b m)) eqn:Hred.
    - left. apply is_redundant_clause_true in Hred as (x & Hx & Hneg).
      exists x. unfold in_resolvent. by rewrite <- !elem_of_resolve.
    - right. exists (sorted (resolve a b m)). split.
      + apply Hnew. apply (dp_resolve_pairs_Some _ _ _ _ Hpairs). right.
        exists a, b, (resolve a b m). split; [done|]. split; [|done].
        apply dp_elem_of_find_resolvents. by exists m.
      + intros x Hx. rewrite ResolutionSemantics.sorted_perm in Hx.
        by apply elem_of_resolve in Hx. }
  destruct (combinations_elem_of clauses c1 c2 Hc1 Hc2 Hne) as [Hin|Hin].
  - by apply Hone.
  - destruct (Hone c2 c1 (- l) Hin Hc2 Hr2 Hl2) as [(x & Hx & Hneg)|(c & Hc & Hsub)].
    + by rewrite Z.opp_involutive.
    + left. exists x. by rewrite <- !(Saturation.in_resolvent_opp c1 c2).
    + right. exists c. split; [done|]. intros x Hx.
      by apply Saturation.in_resolvent_opp, Hsub.
Qed.

Lemma davis_putnam_loop_sat fuel clauses final_assignment previous_clauses
    (assignment : gmap Z bool) :
  Forall NoDup clauses → 0 ∉ mjoin clauses →
  (∀ t, t ∈ previous_clauses → (∀ x, x ∈ t → x ∈ mjoin clauses) → t ∈ clauses) →
  davis_putnam_loop fuel clauses final_assignment previous_clauses
  = Return (SAT, assignment) →
  satisfiable clauses.
Proof.
  revert clauses final_assignment previous_clauses.
  induction fuel as [|fuel IH];
    intros clauses final_assignment previous_clauses Hnd Hzero Hprev.
  { destruct clauses; [|done]. intros _. exists (λ _, false). by intros c ?%elem_of_nil. }
  destruct clauses as [|c0 clauses0].
  { intros _. exists (λ _, false). by intros c ?%elem_of_nil. }
  cbn [davis_putnam_loop].
  destruct (dp_unit_propagation_returns (c0 :: clauses0)) as [[clauses1 ua] Hup].
  rewrite Hup. cbn [mbind outcome_bind].
  destruct (simplification_simplifies _ _ _ Hup) as [[Hshort Hsimp] Hunit].
  destruct (Hsimp Hnd) as (Hnd2 & Hsurv2 & Hback2).
  assert (0 ∉ mjoin (monotone_literal_fixing clauses1).1) as Hzero2
    by (intros Hin; by apply Hzero, (shortened_join _ _ _ Hshort)).
  assert (∀ t, t ∈ previous_clauses →
               (∀ x, x ∈ t → x ∈ mjoin (monotone_literal_fixing clauses1).1) →
               t ∈ (monotone_literal_fixing clauses1).1) as Hprev2.
  { intros t Ht Hlits. apply Hsurv2; [|done]. apply Hprev; [done|].
    intros x Hx. by apply (shortened_join _ _ _ Hshort), Hlits. }
  destruct (monotone_literal_fixing clauses1) as [clauses2 ma].
  simpl in Hshort, Hunit, Hnd2, Hsurv2, Hback2, Hzero2, Hprev2. clear Hsimp.
  destruct clauses2 as [|c2 clauses2].
  { intros _. apply Hback2. exists (λ _, false). by intros c ?%elem_of_nil. }
  case_bool_decide as Hempty; [done|].
  destruct (resolve_pairs (combinations (c2 :: clauses2)) ∅) as [new_clauses|] eqn:Hpairs;
    [|done].
  case_bool_decide as Hsame.
  { intros _. apply Hback2. subst previous_clauses.
    apply (Saturation.saturated_satisfiable (Z.abs <$> mjoin (c2 :: clauses2)));
      [|done|done|].
    - intros c x Hc Hx. apply list_elem_of_fmap. exists x. split; [done|].
      apply list_elem_of_join. by exists c.
    - apply (dp_saturated _ new_clauses); [done..|].
      intros t Ht. apply Hprev2; [done|].
      intros x Hx. by apply (dp_new_clause_literals _ _ t x Hpairs). }
  destruct (dp_extend _ _ Hpairs Hnd2 Hzero2) as (Hnd3 & Hzero3 & Hnew3 & Hback3).
  set (clauses3 := filter _ _) in *.
  destruct (dp_unit_propagation_returns clauses3) as [[clauses4 ua'] Hup'].
  rewrite Hup'. cbn [mbind outcome_bind].
  destruct (simplification_simplifies _ _ _ Hup') as [[Hshort5 Hsimp5] _].
  destruct (Hsimp5 Hnd3) as (Hnd5 & Hsurv5 & Hback5).
  assert (0 ∉ mjoin (monotone_literal_fixing clauses4).1) as Hzero5
    by (intros Hin; by apply Hzero3, (shortened_join _ _ _ Hshort5)).
  destruct (monotone_literal_fixing clauses4) as [clauses5 ma'].
  simpl in Hshort5, Hnd5, Hsurv5, Hback5, Hzero5. clear Hsimp5.
  destruct clauses5 as [|c5 clauses5].
  { intros _. apply Hback2, Hback3, Hback5.
    exists (λ _, false). by intros c ?%elem_of_nil. }
  intros Hloop. apply Hback2, Hback3, Hback5.
  apply IH in Hloop; [done..|].
  intros t Ht Hlits. apply Hsurv5; [|done]. by apply Hnew3.
Qed.

End order.

End DavisPutnamCompleteness.

(** X24. The answer SAT of [davis_putnam] is right on clause lists
    without the literal 0 in which no clause repeats a literal: when
    [davis_putnam] returns 1 on such a list, the list has a model. *)
Theorem davis_putnam_sat_is_sound `{SetOrder} (fuel : nat) (clauses : list (list Z))
    (assignment : gmap Z bool) :
  Forall NoDup clauses → 0 ∉ mjoin clauses →
  Dp.davis_putnam fuel clauses = Return (SAT, assignment) →
  satisfiable clauses.
Proof.
  intros Hnd Hzero. apply DavisPutnamCompleteness.davis_putnam_loop_sat; [done..|].
  by intros t ?%elem_of_empty.
Qed.

Lemma davis_putnam_sat_is_sound_witness :
  let clauses := [[1; 2; 3]; [-1; 2]; [-2; 3]; [-3; -1]; [1; -2; -3]] in
  let assignment : gmap Z bool := <[3 := true]> (<[-1 := true]> {[-2 := true]}) in
  Forall NoDup clauses ∧ (0 ∉ mjoin clauses) ∧
  Dp.davis_putnam (H := elements_order) 5 clauses = Return (SAT, assignment) ∧
  satisfiable clauses.
Proof.
  intros clauses assignment.
  assert (Forall NoDup clauses) as H1 by (repeat constructor; compute_done).
  assert (0 ∉ mjoin clauses) as H2 by compute_done.
  assert (Dp.davis_putnam (H := elements_order) 5 clauses = Return (SAT, assignment))
    as H3 by (by vm_compute).
  split; [exact H1|]. split; [exact H2|]. split; [exact H3|].
  exact (davis_putnam_sat_is_sound (H := elements_order) 5 clauses assignment H1 H2 H3).
Defined.

(** ** dp.py: termination *)

Module DavisPutnamTermination.
Import Dp DpFacts ResolventFacts DavisPutnamFacts DpSemantics DavisPutnamSemantics.
Import DavisPutnamCompleteness.

Implicit Types (clauses : list (list Z)) (clause c t : list Z) (literal : Z).
Implicit Types (new_clauses previous_clauses : gset (list Z)) (literals : gset Z).
Implicit Types (state : list (list Z) * gmap Z bool).

#[local] Arguments unit_propagation : simpl never.
#[local] Arguments monotone_literal_fixing : simpl never.

Lemma literal_count_le clauses clauses' :
  (∀ x, x ∈ mjoin clauses' → x ∈ mjoin clauses) →
  (literal_count clauses' ≤ literal_count clauses)%nat.
Proof.
  intros Hsub. unfold literal_count. apply subseteq_size. intros x.
  rewrite !elem_of_list_to_set. apply Hsub.
Qed.

Lemma literal_count_lt clauses clauses' x :
  (∀ x, x ∈ mjoin clauses' → x ∈ mjoin clauses) →
  x ∈ mjoin clauses → x ∉ mjoin clauses' →
  (literal_count clauses' < literal_count clauses)%nat.
Proof.
  intros Hsub Hin Hnin. unfold literal_count. apply subset_size. split.
  - intros y. rewrite !elem_of_list_to_set. apply Hsub.
  - intros Hall. apply Hnin. apply (elem_of_list_to_set (C := gset Z)), Hall.
    by apply elem_of_list_to_set.
Qed.

(** *** A simplification that changes the list removes a literal *)

Lemma propagate_removes state unit : hd 0 unit ∉ mjoin (propagate state unit).1.
Proof.
  unfold propagate. simpl. intros (c' & Hx & Hc')%list_elem_of_join.
  apply list_elem_of_fmap in Hc' as (c & -> & [Hn _]%list_elem_of_filter).
  by apply elem_of_remove_first in Hx.
Qed.

Lemma unit_propagation_progress clauses clauses1 ua :
  unit_propagation clauses = Return (clauses1, ua) →
  clauses1 = clauses ∨ ∃ l, l ∈ mjoin clauses ∧ l ∉ mjoin clauses1.
Proof.
  unfold unit_propagation. generalize (length clauses) (∅ : gmap Z bool).
  intros fuel assignment. destruct fuel as [|fuel]; cbn [unit_propagation_loop].
  - destruct (filter (λ c, length c = 1%nat) clauses) as [|unit units]; [|done].
    intros [= <- <-]. by left.
  - destruct (filter (λ c, length c = 1%nat) clauses) as [|unit units] eqn:Hunits.
    { intros [= <- <-]. by left. }
    intros (_ & Hshort & _)%unit_propagation_loop_sound. right.
    assert (unit ∈ filter (λ c, length c = 1%nat) clauses) as [Hlen Hin]%list_elem_of_filter
      by (rewrite Hunits; by left).
    exists (hd 0 unit). split.
    + apply list_elem_of_join. exists unit. split; [|done].
      destruct unit as [|l [|??]]; try done. by left.
    + intros Hl. apply (shortened_join _ _ _ Hshort) in Hl. simpl in Hl.
      apply (shortened_join _ _ _
               (foldl_propagate_shortened units (propagate (clauses, assignment) unit)))
        in Hl.
      by apply propagate_removes in Hl.
Qed.

Lemma monotone_literal_fixing_progress clauses :
  (monotone_literal_fixing clauses).1 = clauses ∨
  ∃ l, l ∈ mjoin clauses ∧ l ∉ mjoin (monotone_literal_fixing clauses).1.
Proof.
  rewrite monotone_literal_fixing_clauses.
  destruct (decide (Forall (λ c, Forall (λ l, - l ∈ mjoin clauses) c) clauses))
    as [Hall|Hex].
  { left. by apply DpllFacts.filter_Forall_id. }
  right. apply not_Forall_Exists in Hex; [|apply _].
  apply Exists_exists in Hex as (c & Hc & Hex).
  apply not_Forall_Exists in Hex; [|apply _].
  apply Exists_exists in Hex as (l & Hl & Hpure). exists l. split.
  - apply list_elem_of_join. by exists c.
  - intros (c' & Hl' & [Hall _]%list_elem_of_filter)%list_elem_of_join.
    rewrite Forall_forall in Hall. by apply Hpure, Hall.
Qed.

(** One pass of simplification, as [davis_putnam] runs it. *)
Lemma simplification_progress clauses clauses1 ua :
  unit_propagation clauses = Return (clauses1, ua) →
  (∀ x, x ∈ mjoin (monotone_literal_fixing clauses1).1 → x ∈ mjoin clauses) ∧
  ((monotone_literal_fixing clauses1).1 = clauses ∨
   (literal_count (monotone_literal_fixing clauses1).1 < literal_count clauses)%nat).
Proof.
  intros Hup.
  assert (∀ x, x ∈ mjoin clauses1 → x ∈ mjoin clauses) as Hsub1.
  { intros x. apply shortened_join.
    by apply unit_propagation_loop_sound in Hup as (_ & ? & _). }
  assert (∀ x, x ∈ mjoin (monotone_literal_fixing clauses1).1 → x ∈ mjoin clauses1)
    as Hsub2.
  { intros x (c & Hx & Hc)%list_elem_of_join. apply list_elem_of_join. exists c.
    split; [done|]. by apply monotone_literal_fixing_subseteq. }
  split; [by auto|].
  destruct (unit_propagation_progress _ _ _ Hup) as [->|(l & Hl & Hnl)].
  - destruct (monotone_literal_fixing_progress clauses) as [?|(l & Hl & Hnl)];
      [by left|right].
    by apply (literal_count_lt _ _ l).
  - right. apply (literal_count_lt _ _ l); [by auto|done|]. by intros ?%Hsub2.
Qed.

Section order.
Context `{SetOrder}.

Lemma resolve_swap c1 c2 literal : resolve c2 c1 (- literal) = resolve c1 c2 literal.
Proof.
  unfold resolve. f_equal. rewrite Z.opp_involutive. apply set_eq. intros x.
  rewrite !elem_of_difference, !elem_of_list_to_set, !elem_of_app.
  rewrite !elem_of_union, !elem_of_singleton. tauto.
Qed.

(** Each resolvent of two clauses of a list without complementary
    literals is found by the round, whatever the order of the two. *)
Lemma dp_resolvent_new clauses new_clauses c1 c2 l :
  resolve_pairs (combinations clauses) ∅ = Some new_clauses →
  Forall (λ c, is_redundant_clause c = false) clauses →
  c1 ∈ clauses → c2 ∈ clauses → l ∈ c1 → - l ∈ c2 →
  resolve c1 c2 l ≠ [] → is_redundant_clause (resolve c1 c2 l) = false →
  sorted (resolve c1 c2 l) ∈ new_clauses.
Proof.
  rewrite Forall_forall. intros Hpairs Hall Hc1 Hc2 Hl1 Hl2 Hne Hred.
  assert (c1 ≠ c2) as Hdiff.
  { intros ->. specialize (Hall c2 Hc2). rewrite is_redundant_clause_false in Hall.
    by apply (Hall l). }
  apply (dp_resolve_pairs_Some _ _ _ _ Hpairs). right.
  destruct (combinations_elem_of clauses c1 c2 Hc1 Hc2 Hdiff) as [Hin|Hin].
  - exists c1, c2, (resolve c1 c2 l). split; [done|]. split; [|done].
    apply dp_elem_of_find_resolvents. by exists l.
  - exists c2, c1, (resolve c2 c1 (- l)). split; [done|].
    rewrite resolve_swap. split; [|done].
    apply dp_elem_of_find_resolvents. exists (- l).
    rewrite Z.opp_involutive, resolve_swap. done.
Qed.

Lemma dp_new_candidates literals clauses new_clauses t :
  (∀ x, x ∈ mjoin clauses → x ∈ literals) →
  resolve_pairs (combinations clauses) ∅ = Some new_clauses →
  t ∈ new_clauses → t ∈ candidates literals.
Proof.
  intros Hlits Hpairs Ht.
  destruct (dp_new_clause _ _ _ Hpairs Ht) as (_ & _ & c1 & c2 & l & ? & ? & _ & _ & ->).
  apply ResolutionTermination.elem_of_candidates; [apply NoDup_set_list_Z|].
  intros x ([Hx|Hx] & _)%elem_of_resolve; apply Hlits, list_elem_of_join; eauto.
Qed.

(** The clause list after a round. *)
Lemma dp_round clauses new_clauses :
  resolve_pairs (combinations clauses) ∅ = Some new_clauses →
  let clauses' :=
    filter (λ clause, is_redundant_clause clause = false)
           (set_list_clause (list_to_set (clauses ++ set_list_clause new_clauses))) in
  Forall (λ c, is_redundant_clause c = false) clauses' ∧
  (∀ x, x ∈ mjoin clauses' → x ∈ mjoin clauses) ∧
  (Forall (λ c, is_redundant_clause c = false) clauses →
   resolved_from clauses' new_clauses).
Proof.
  intros Hpairs clauses'.
  assert (∀ c, c ∈ clauses' ↔
               is_redundant_clause c = false ∧ (c ∈ clauses ∨ c ∈ new_clauses)) as Hin.
  { intros c. unfold clauses'.
    rewrite list_elem_of_filter, elem_of_set_list_clause, elem_of_list_to_set.
    by rewrite elem_of_app, elem_of_set_list_clause. }
  assert (Forall (λ c, is_redundant_clause c = false) clauses') as Hnr.
  { apply Forall_forall. by intros c [? _]%Hin. }
  split; [done|]. split.
  - intros x (c & Hx & [_ [Hc|Hc]]%Hin)%list_elem_of_join.
    + apply list_elem_of_join. by exists c.
    + by apply (dp_new_clause_literals _ _ c x Hpairs).
  - rewrite Forall_forall. intros Hall. split; [done|]. intros t Ht.
    apply (dp_resolve_pairs_Some _ _ _ t Hpairs) in Ht
      as [?%elem_of_empty|(c1 & c2 & r & Hpair & Hr & ->)]; [done|].
    apply ResolutionSemantics.combinations_elem_of_inv in Hpair as [Hc1 Hc2].
    apply dp_elem_of_find_resolvents in Hr as (l & Hl1 & Hl2 & -> & Hne & Hred).
    exists c1, c2, l. split; [apply Hin; by auto|]. split; [apply Hin; by auto|]. done.
Qed.

Lemma davis_putnam_loop_returns literals fuel :
  ∀ clauses final_assignment previous_clauses (m : nat),
    (∀ x, x ∈ mjoin clauses → x ∈ literals) →
    rounds_left literals clauses previous_clauses m →
    (literal_count clauses * (size (candidates literals) + 3) + m < fuel)%nat →
    ∃ r, davis_putnam_loop fuel clauses final_assignment previous_clauses = Return r.
Proof.
  induction fuel as [|fuel IH];
    intros clauses final_assignment previous_clauses m Hlits Hleft Hfuel; [lia|].
  destruct clauses as [|c0 clauses0]; [by eexists|].
  cbn [davis_putnam_loop].
  destruct (dp_unit_propagation_returns (c0 :: clauses0)) as [[clauses1 ua] Hup].
  rewrite Hup. cbn [mbind outcome_bind].
  destruct (simplification_progress _ _ _ Hup) as [Hsub2 Hprog2].
  destruct (monotone_literal_fixing clauses1) as [clauses2 ma].
  cbn [fst] in Hsub2, Hprog2.
  destruct clauses2 as [|c2 clauses2]; [by eexists|].
  case_bool_decide as Hempty; [by eexists|].
  destruct (resolve_pairs (combinations (c2 :: clauses2)) ∅) as [new_clauses|] eqn:Hpairs;
    [|by eexists].
  case_bool_decide as Hsame; [by eexists|].
  destruct (dp_round _ _ Hpairs) as (Hnr3 & Hsub3 & Hres3).
  set (clauses3 := filter _ _) in *.
  destruct (dp_unit_propagation_returns clauses3) as [[clauses4 ua'] Hup'].
  rewrite Hup'. cbn [mbind outcome_bind].
  destruct (simplification_progress _ _ _ Hup') as [Hsub5 Hprog5].
  destruct (monotone_literal_fixing clauses4) as [clauses5 ma'].
  cbn [fst] in Hsub5, Hprog5.
  destruct clauses5 as [|c5 clauses5]; [by eexists|].
  pose proof (literal_count_le _ _ Hsub2) as Hle2.
  pose proof (literal_count_le _ _ Hsub3) as Hle3.
  pose proof (literal_count_le _ _ Hsub5) as Hle5.
  set (K := (size (candidates literals) + 3)%nat) in *.
  assert (∃ m', rounds_left literals (c5 :: clauses5) new_clauses m' ∧
                (literal_count (c5 :: clauses5) * K + m' < fuel)%nat)
    as (m' & Hleft' & Hfuel').
  { assert ((literal_count (c5 :: clauses5) < literal_count (c0 :: clauses0))%nat →
            ∃ m', rounds_left literals (c5 :: clauses5) new_clauses m' ∧
                  (literal_count (c5 :: clauses5) * K + m' < fuel)%nat) as Hless.
    { intros Hlt. exists (size (candidates literals) + 2)%nat. split; [by left|].
      subst K. nia. }
    destruct Hprog2 as [Heq2|Hlt2]; [|apply Hless; lia].
    destruct Hprog5 as [Heq5|Hlt5]; [|apply Hless; lia].
    injection Heq2 as -> ->. rewrite Heq5 in *. clear Hless.
    assert (∀ t, t ∈ new_clauses → t ∈ candidates literals) as Hcand.
    { intros t. by apply (dp_new_candidates literals (c0 :: clauses0)). }
    assert (size (candidates literals ∖ new_clauses) ≤ size (candidates literals))%nat
      as Hsize by (apply subseteq_size; by intros t [? _]%elem_of_difference).
    destruct Hleft as [Hm|[[Hnr Hm]|[[Hnr Hprev] Hm]]].
    - exists (size (candidates literals) + 1)%nat. split; [right; left; by split|].
      subst K. nia.
    - exists (size (candidates literals ∖ new_clauses)). split.
      + right. right. split; [by apply Hres3|done].
      + subst K. nia.
    - exists (size (candidates literals ∖ new_clauses)). split.
      + right. right. split; [by apply Hres3|done].
      + assert (∀ t, t ∈ previous_clauses → t ∈ new_clauses) as Hgrow.
        { intros t (c1 & c2 & l & ? & ? & ? & ? & -> & ? & ?)%Hprev.
          by apply (dp_resolvent_new (c0 :: clauses0)). }
        assert (∃ t, t ∈ new_clauses ∧ t ∉ previous_clauses) as (t & Ht & Hfresh).
        { destruct (decide (new_clauses ∖ previous_clauses = ∅)) as [Hnone|Hsome].
          - exfalso. apply Hsame. apply set_eq. intros t. split; [|apply Hgrow].
            intros Ht. destruct (decide (t ∈ previous_clauses)) as [|Hn]; [done|].
            exfalso. apply (not_elem_of_empty (C := gset (list Z)) t).
            rewrite <- Hnone. by apply elem_of_difference.
          - apply set_choose_L in Hsome as [t [? ?]%elem_of_difference]. by exists t. }
        assert (candidates literals ∖ new_clauses ⊂ candidates literals ∖ previous_clauses)
          as Hlt%subset_size.
        { split.
          - intros t' [? Hn]%elem_of_difference. apply elem_of_difference.
            split; [done|]. intros ?. by apply Hn, Hgrow.
          - intros Hall.
            assert (t ∈ candidates literals ∖ new_clauses) as [_ Hbad]%elem_of_difference.
            { apply Hall, elem_of_difference. split; [by apply Hcand|done]. }
            done. }
        subst K. nia. }
  destruct (IH (c5 :: clauses5) (ma' ∪ (ua' ∪ (ma ∪ (ua ∪ final_assignment))))
              new_clauses m') as [r Hr]; [|done|done|].
  { intros x Hx. apply Hlits, Hsub2, Hsub3, Hsub5, Hx. }
  eexists. exact Hr.
Qed.

(** More rounds than needed change nothing. *)
Lemma davis_putnam_loop_S fuel clauses final_assignment previous_clauses r :
  davis_putnam_loop fuel clauses final_assignment previous_clauses = Return r →
  davis_putnam_loop (S fuel) clauses final_assignment previous_clauses = Return r.
Proof.
  revert clauses final_assignment previous_clauses.
  induction fuel as [|fuel IH]; intros clauses final_assignment previous_clauses.
  { by destruct clauses. }
  remember (S fuel) as fuel' eqn:Hfuel'.
  rewrite Hfuel' at 1.
  destruct clauses as [|c0 clauses0]; [done|].
  cbn [davis_putnam_loop].
  destruct (unit_propagation (c0 :: clauses0)) as [[clauses1 ua]| |]; [|done..].
  cbn [mbind outcome_bind].
  destruct (monotone_literal_fixing clauses1) as [clauses2 ma].
  destruct clauses2 as [|c2 clauses2]; [done|].
  case_bool_decide; [done|].
  destruct (resolve_pairs (combinations (c2 :: clauses2)) ∅) as [new_clauses|]; [|done].
  case_bool_decide; [done|].
  destruct (unit_propagation _) as [[clauses4 ua']| |]; [|done..].
  cbn [mbind outcome_bind].
  destruct (monotone_literal_fixing clauses4) as [clauses5 ma'].
  destruct clauses5 as [|c5 clauses5]; [done|].
  subst fuel'. apply IH.
Qed.

Lemma davis_putnam_loop_le fuel fuel' clauses final_assignment previous_clauses r :
  (fuel ≤ fuel')%nat →
  davis_putnam_loop fuel clauses final_assignment previous_clauses = Return r →
  davis_putnam_loop fuel' clauses final_assignment previous_clauses = Return r.
Proof. induction 1; [done|]. intros. by apply davis_putnam_loop_S; auto. Qed.

Lemma davis_putnam_loop_verdict fuel clauses final_assignment previous_clauses r :
  davis_putnam_loop fuel clauses final_assignment previous_clauses = Return r →
  r.1 = SAT ∨ r.1 = UNSAT.
Proof.
  revert clauses final_assignment previous_clauses.
  induction fuel as [|fuel IH]; intros clauses final_assignment previous_clauses.
  { destruct clauses; [|done]. intros [= <-]. by left. }
  destruct clauses as [|c0 clauses0]; [intros [= <-]; by left|].
  cbn [davis_putnam_loop].
  destruct (unit_propagation (c0 :: clauses0)) as [[clauses1 ua]| |]; [|done..].
  cbn [mbind outcome_bind].
  destruct (monotone_literal_fixing clauses1) as [clauses2 ma].
  destruct clauses2 as [|c2 clauses2]; [intros [= <-]; by left|].
  case_bool_decide; [intros [= <-]; by right|].
  destruct (resolve_pairs (combinations (c2 :: clauses2)) ∅) as [new_clauses|];
    [|intros [= <-]; by right].
  case_bool_decide; [intros [= <-]; by left|].
  destruct (unit_propagation _) as [[clauses4 ua']| |]; [|done..].
  cbn [mbind outcome_bind].
  destruct (monotone_literal_fixing clauses4) as [clauses5 ma'].
  destruct clauses5 as [|c5 clauses5]; [intros [= <-]; by left|].
  apply IH.
Qed.

Lemma davis_putnam_returns clauses :
  ∃ r, (r.1 = SAT ∨ r.1 = UNSAT) ∧
    ∀ fuel, ((literal_count clauses + 1) * (2 ^ literal_count clauses + 3) < fuel)%nat →
            davis_putnam fuel clauses = Return r.
Proof.
  set (literals := list_to_set (mjoin clauses) : gset Z).
  set (K := (size (candidates literals) + 3)%nat).
  destruct (davis_putnam_loop_returns literals (S (literal_count clauses * K + (K - 1)))
              clauses ∅ ∅ (K - 1)) as [r Hr].
  - intros x Hx. by apply elem_of_list_to_set.
  - left. subst K. lia.
  - lia.
  - exists r. split; [by apply davis_putnam_loop_verdict in Hr|].
    intros fuel Hfuel. refine (davis_putnam_loop_le _ _ _ _ _ _ _ Hr).
    pose proof (ResolutionTermination.size_candidates literals) as Hsize.
    unfold literal_count in *. fold literals in Hfuel |- *.
    pose proof (Nat.mul_le_mono_l _ _ (size literals) Hsize) as Hmul.
    subst K. lia.
Qed.

End order.

End DavisPutnamTermination.

(** X25. [davis_putnam] terminates on every clause list: a round that
    does not return either removes a literal from the clause list for
    good, or leaves the clause list without complementary literals in a
    clause, or adds to the set of resolvents found. With [n] distinct
    literals in the input there are at most [(n + 1) * (2 ^ n + 3)]
    rounds; with more rounds than that allowed, the result is always the
    same, and its verdict is 0 or 1. *)
Theorem davis_putnam_terminates `{SetOrder} (clauses : list (list Z)) :
  ∃ r, (r.1 = SAT ∨ r.1 = UNSAT) ∧
    ∀ fuel, ((literal_count clauses + 1) * (2 ^ literal_count clauses + 3) < fuel)%nat →
            Dp.davis_putnam fuel clauses = Return r.
Proof. apply DavisPutnamTermination.davis_putnam_returns. Qed.

Lemma davis_putnam_terminates_witness :
  let clauses := [[1; 2]; [-1; 2]; [-2]] in
  ∃ r, (r.1 = SAT ∨ r.1 = UNSAT) ∧
       Dp.davis_putnam (H := elements_order) 96 clauses = Return r.
Proof.
  intros clauses.
  destruct (davis_putnam_terminates (H := elements_order) clauses)
    as (r & Hverdict & Hloop).
  exists r. split; [exact Hverdict|]. apply Hloop. vm_compute. lia.
Defined.

(** ** dp.py: both answers *)

Module DavisPutnamDecision.

Implicit Types (clauses : list (list Z)).

Section order.
Context `{SetOrder}.

Lemma davis_putnam_decides clauses fuel :
  Forall NoDup clauses →
  Forall (λ clause, is_redundant_clause clause = false) clauses →
  ((literal_count clauses + 1) * (2 ^ literal_count clauses + 3) < fuel)%nat →
  ((∃ assignment, Dp.davis_putnam fuel clauses = Return (SAT, assignment))
   ↔ satisfiable clauses) ∧
  ((∃ assignment, Dp.davis_putnam fuel clauses = Return (UNSAT, assignment))
   ↔ ¬ satisfiable clauses).
Proof.
  intros Hnd Hnr Hfuel.
  destruct (DavisPutnamTermination.davis_putnam_returns clauses)
    as ([verdict assignment] & Hverdict & Hloop).
  specialize (Hloop fuel Hfuel). simpl in Hverdict.
  assert (∀ a, Dp.davis_putnam fuel clauses = Return (SAT, a) → satisfiable clauses)
    as Hsat.
  { intros a. apply DavisPutnamCompleteness.davis_putnam_loop_sat; [done| |].
    - by apply Agreement.not_redundant_no_zero.
    - by intros t ?%elem_of_empty. }
  assert (∀ a, Dp.davis_putnam fuel clauses = Return (UNSAT, a) → ¬ satisfiable clauses)
    as Hunsat.
  { intros a. by apply DavisPutnamSemantics.davis_putnam_loop_unsat. }
  rewrite Hloop in *. destruct Hverdict as [-> | ->].
  - pose proof (Hsat _ eq_refl) as Hmodel. split.
    + split; [done|]. intros _. by exists assignment.
    + split; [by intros [a [=]]|done].
  - pose proof (Hunsat _ eq_refl) as Hnone. split.
    + split; [by intros [a [=]]|done].
    + split; [done|]. intros _. by exists assignment.
Qed.

End order.

End DavisPutnamDecision.

(** X26. On a clause list in which no clause repeats a literal or holds
    a literal and its negation, [davis_putnam] decides satisfiability:
    allowed more than [(n + 1) * (2 ^ n + 3)] rounds, [n] the number of
    distinct literals, it returns 1 exactly when the list has a model and
    0 exactly when it has none. *)
Theorem davis_putnam_decides_satisfiability `{SetOrder} (clauses : list (list Z))
    (fuel : nat) :
  Forall NoDup clauses →
  Forall (λ clause, is_redundant_clause clause = false) clauses →
  ((literal_count clauses + 1) * (2 ^ literal_count clauses + 3) < fuel)%nat →
  ((∃ assignment, Dp.davis_putnam fuel clauses = Return (SAT, assignment))
   ↔ satisfiable clauses) ∧
  ((∃ assignment, Dp.davis_putnam fuel clauses = Return (UNSAT, assignment))
   ↔ ¬ satisfiable clauses).
Proof. apply DavisPutnamDecision.davis_putnam_decides. Qed.

Lemma davis_putnam_decides_satisfiability_witness :
  let clauses := [[1; 2]; [-1; 2]; [-2]] in
  Forall NoDup clauses ∧
  Forall (λ clause, is_redundant_clause clause = false) clauses ∧
  ((literal_count clauses + 1) * (2 ^ literal_count clauses + 3) < 96)%nat ∧
  ((∃ assignment, Dp.davis_putnam (H := elements_order) 96 clauses
                  = Return (SAT, assignment)) ↔ satisfiable clauses) ∧
  ((∃ assignment, Dp.davis_putnam (H := elements_order) 96 clauses
                  = Return (UNSAT, assignment)) ↔ ¬ satisfiable clauses).
Proof.
  intros clauses.
  assert (Forall NoDup clauses) as H1 by (repeat constructor; compute_done).
  assert (Forall (λ clause, is_redundant_clause clause = false) clauses) as H2
    by (repeat constructor).
  assert ((literal_count clauses + 1) * (2 ^ literal_count clauses + 3) < 96)%nat as H3
    by (vm_compute; lia).
  split; [exact H1|]. split; [exact H2|]. split; [exact H3|].
  exact (davis_putnam_decides_satisfiability (H := elements_order) clauses 96 H1 H2 H3).
Defined.
